(** * ProxQP dense solver: a shallow embedding of

    - [include/qp/proxqp/solver.hpp]  (outer BCL loop, inner steps, refinement)
    - [include/qp/dense/helpers.hpp]  (setup, update, warm start)
    - [include/qp/dense/preconditioner/identity.hpp]
    - [test/include/util.hpp]         (random generator, sparse conversion)

    The C++ code is a template over its scalar type [T]; the embedding is
    generic over a [Scalar] interface and is run on exact rationals and stated
    on the reals where a property depends on the arithmetic. *)

From Stdlib Require Import List Bool Arith ZArith QArith Qabs Qround Qreduction Lia.
From Stdlib Require Import Reals Lra.
Import ListNotations.

Set Implicit Arguments.

(** ** The scalar interface: what the solver asks of its template parameter *)

Class Scalar (T : Type) : Type := {
  s0 : T;
  s1 : T;
  sadd : T -> T -> T;
  ssub : T -> T -> T;
  smul : T -> T -> T;
  sdiv : T -> T -> T;
  sopp : T -> T;
  sabs : T -> T;                 (* std::abs *)
  sleb : T -> T -> bool;         (* a <= b *)
  sltb : T -> T -> bool;         (* a < b *)
  seqb : T -> T -> bool;         (* a == b *)
  spow : T -> T -> T;            (* pow from <cmath> *)
  slit : Q -> T;                 (* a floating literal such as 1.E-11 *)
  sepsilon : T                   (* std::numeric_limits<T>::epsilon() *)
}.

Declare Scope scalar_scope.
Delimit Scope scalar_scope with S.
Infix "+" := sadd : scalar_scope.
Infix "-" := ssub : scalar_scope.
Infix "*" := smul : scalar_scope.
Infix "/" := sdiv : scalar_scope.
Notation "- a" := (sopp a) : scalar_scope.
Infix "<=?" := sleb (at level 70) : scalar_scope.
Infix "<?" := sltb (at level 70) : scalar_scope.
Infix "==?" := seqb (at level 70) : scalar_scope.
Notation "a >=? b" := (sleb b a) (at level 70, only parsing) : scalar_scope.
Notation "a >? b" := (sltb b a) (at level 70, only parsing) : scalar_scope.
Notation "a !=? b" := (negb (seqb a b)) (at level 70) : scalar_scope.

Section Numeric.
Context {T : Type} {ST : Scalar T}.
Local Open Scope scalar_scope.

(** [max2] is declared outside the files at hand; it yields the larger of its
    two arguments. [std_max] and [std_min] follow the standard library:
    [std::max(a,b)] is [(a < b) ? b : a] and [std::min(a,b)] is [(b < a) ? b : a]. *)
Definition max2 (a b : T) : T := if a >? b then a else b.
Definition std_max (a b : T) : T := if a <? b then b else a.
Definition std_min (a b : T) : T := if b <? a then b else a.

(** *** Dense vectors and row-major matrices (Eigen expressions used by the solver) *)

Definition vzero (n : nat) : list T := repeat s0 n.
Definition setZero (v : list T) : list T := map (fun _ => s0) v.
Definition vadd (a b : list T) : list T := map (fun p => fst p + snd p) (combine a b).
Definition vsub (a b : list T) : list T := map (fun p => fst p - snd p) (combine a b).
Definition vscale (c : T) (a : list T) : list T := map (fun e => c * e) a.
Definition vscale_r (a : list T) (c : T) : list T := map (fun e => e * c) a.
Definition vneg (a : list T) : list T := map sopp a.
Definition dot (a b : list T) : T :=
  fold_left (fun acc p => acc + fst p * snd p) (combine a b) s0.

(** [M * v] for a row-major [M]. *)
Definition mat_vec (M : list (list T)) (v : list T) : list T :=
  map (fun row => dot row v) M.

(** [M.transpose() * v]: the combination of the rows of [M] weighted by [v];
    [n] is the number of columns of [M]. *)
Definition matT_vec (n : nat) (M : list (list T)) (v : list T) : list T :=
  fold_left (fun acc p => vadd acc (vscale (snd p) (fst p))) (combine M v) (vzero n).

Definition row (M : list (list T)) (i : nat) : list T := nth i M [].
Definition coeff (v : list T) (i : nat) : T := nth i v s0.

(** [infty_norm], declared outside the files at hand: the largest absolute
    value of the coefficients, 0 when there is none. *)
Definition infty_norm (v : list T) : T :=
  fold_left (fun acc e => max2 acc (sabs e)) v s0.

(** [v.head(n)], [v.segment(i,n)], [v.tail(n)] as values and as assignment targets. *)
Definition vhead (n : nat) (v : list T) : list T := firstn n v.
Definition vsegment (i n : nat) (v : list T) : list T := firstn n (skipn i v).
Definition vtail (n : nat) (v : list T) : list T := skipn (length v - n) v.
Definition set_head (n : nat) (src v : list T) : list T := firstn n src ++ skipn n v.
Definition set_segment (i n : nat) (src v : list T) : list T :=
  firstn i v ++ firstn n src ++ skipn (i + n) v.
Definition set_tail (n : nat) (src v : list T) : list T := firstn (length v - n) v ++ src.
Fixpoint set_coeff (i : nat) (c : T) (v : list T) : list T :=
  match v, i with
  | [], _ => []
  | _ :: v', O => c :: v'
  | e :: v', S i' => e :: set_coeff i' c v'
  end.

(** [(cond).select(a, Zero)] *)
Definition select (c : list bool) (a : list T) : list T :=
  map (fun p : bool * T => if fst p then snd p else s0) (combine c a).

(** solver.hpp:44-49 *)
Definition positive_part (e : list T) : list T :=
  map (fun a => if a >? s0 then a else s0) e.
Definition negative_part (e : list T) : list T :=
  map (fun a => if a <? s0 then a else s0) e.

(** [v.head(n) += d], [v.head(n) -= d] and the like. *)
Definition add_head (n : nat) (d v : list T) : list T := set_head n (vadd (vhead n v) d) v.
Definition sub_head (n : nat) (d v : list T) : list T := set_head n (vsub (vhead n v) d) v.
Definition sub_segment (i n : nat) (d v : list T) : list T :=
  set_segment i n (vsub (vsegment i n v) d) v.

(** Coefficient-wise comparisons and [||] on boolean arrays. *)
Definition vor (a b : list bool) : list bool :=
  map (fun p : bool * bool => fst p || snd p) (combine a b).
Definition vnor (a b : list bool) : list bool :=
  map (fun p : bool * bool => negb (fst p) && negb (snd p)) (combine a b).
Definition vcount (a : list bool) : nat := length (filter (fun c => c) a).

(** Updates of [kkt.diagonal()] over a range of rows. *)
Fixpoint map_diag_from (k : nat) (f : nat -> T -> T) (M : list (list T)) : list (list T) :=
  match M with
  | [] => []
  | r :: M' => set_coeff k (f k (coeff r k)) r :: map_diag_from (S k) f M'
  end.
Definition diag_update (i n : nat) (f : T -> T) (M : list (list T)) : list (list T) :=
  map_diag_from 0 (fun k d => if (i <=? k)%nat && (k <? i + n)%nat then f d else d) M.

(** A dense matrix read by row and column, [mat(i, j)], with [rows()] and
    [cols()]; the number of columns is read off the first row. *)
Definition dense_coeff (M : list (list T)) (i j : nat) : T := coeff (row M i) j.
Definition dense_rows (M : list (list T)) : nat := length M.
Definition dense_cols (M : list (list T)) : nat := length (row M 0).

(** [M.block(i, j, p, q) = src]: rows [i .. i+p) of [M] take the first [q]
    entries of the rows of [src] at the columns [j .. j+q). *)
Definition set_block (i j p q : nat) (src M : list (list T)) : list (list T) :=
  firstn i M
  ++ map (fun rs : list T * list T => set_segment j q (fst rs) (snd rs))
       (combine (firstn p src) (firstn p (skipn i M)))
  ++ skipn (i + p) M.

(** [M.transpose()] for a matrix [M] with [q] columns, and the zero matrix. *)
Definition transpose (q : nat) (M : list (list T)) : list (list T) :=
  map (fun j => map (fun r : list T => coeff r j) M) (seq 0 q).
Definition mzero (p q : nat) : list (list T) := repeat (vzero q) p.

End Numeric.

(** ** Data model *)

(** The initial-guess policies and preconditioner directives (helpers.hpp:239-328). *)
Inductive InitialGuessStatus : Type :=
| NO_INITIAL_GUESS
| EQUALITY_CONSTRAINED_INITIAL_GUESS
| WARM_START_WITH_PREVIOUS_RESULT
| WARM_START
| COLD_START_WITH_PREVIOUS_RESULT.

Inductive PreconditionerStatus : Type := EXECUTE | IDENTITY | KEEP.

(** Modelled from the spec: the values of [results.info.status]
    ([qp/status.hpp] is included by helpers.hpp and is not among the files at hand). *)
Inductive QPSolverOutput : Type := Solved | MaxIterReached.

(** The named members of the workspace, by the type they hold. *)
Inductive WVec : Type :=
| dw_aug | rhs | err
| x_prev | y_prev | z_prev
| Hdx | Cdx | Adx | CTz | active_part_z
| dual_residual_scaled | primal_residual_eq_scaled
| primal_residual_in_scaled_up | primal_residual_in_scaled_low
| primal_residual_in_scaled_up_plus_alphaCdx
| primal_residual_in_scaled_low_plus_alphaCdx
| g_scaled | b_scaled | u_scaled | l_scaled.

Inductive WMat : Type := H_scaled | A_scaled | C_scaled | kkt.

Inductive WBool : Type := active_set_up | active_set_low | active_inequalities.

Inductive WScal : Type :=
| alpha
| primal_feasibility_rhs_1_eq | primal_feasibility_rhs_1_in_u
| primal_feasibility_rhs_1_in_l | dual_feasibility_rhs_2
| correction_guess_rhs_g.

Definition WVec_eq_dec (a b : WVec) : {a = b} + {a <> b}.
Proof. decide equality. Defined.
Definition WMat_eq_dec (a b : WMat) : {a = b} + {a <> b}.
Proof. decide equality. Defined.
Definition WBool_eq_dec (a b : WBool) : {a = b} + {a <> b}.
Proof. decide equality. Defined.
Definition WScal_eq_dec (a b : WScal) : {a = b} + {a <> b}.
Proof. decide equality. Defined.

Section Model.
Context {T : Type} {ST : Scalar T}.
Variables Ldl Ruiz : Type.
Local Open Scope scalar_scope.

(** [QPData]: dimensions and the unscaled problem.  Sizes and indices
    ([isize]) are natural numbers, counters and iteration bounds are integers
    without wrap-around. *)
Record QPData : Type := {
  dim : nat; n_eq : nat; n_in : nat;
  H : list (list T); A : list (list T); C : list (list T);
  g : list T; b : list T; u : list T; l : list T
}.

(** [verbose] only switches printing, which the embedding leaves out. *)
Record QPSettings : Type := {
  alpha_bcl : T; beta_bcl : T;
  refactor_dual_feasibility_threshold : T; refactor_rho_threshold : T;
  mu_max_eq : T; mu_max_in : T; mu_max_eq_inv : T; mu_max_in_inv : T;
  mu_update_factor : T; mu_update_inv_factor : T;
  cold_reset_mu_eq : T; cold_reset_mu_in : T;
  cold_reset_mu_eq_inv : T; cold_reset_mu_in_inv : T;
  max_iter : Z; max_iter_in : Z;
  eps_abs : T; eps_rel : T; eps_IG : T; eps_refact : T;
  nb_iterative_refinement : Z;
  verbose : bool;
  initial_guess_policy : InitialGuessStatus
}.

(** [QPResults]; helpers.hpp reaches the scalar members through [results.info]. *)
Record QPResults : Type := {
  x : list T; y : list T; z : list T;
  rho : T; mu_eq : T; mu_in : T; mu_eq_inv : T; mu_in_inv : T;
  n_ext : Z; n_tot : Z; n_mu_change : Z;
  n_c : nat;
  objValue : T;
  status : QPSolverOutput
}.

Definition set_x (v : list T) (r : QPResults) : QPResults :=
  {| x := v; y := y r; z := z r; rho := rho r; mu_eq := mu_eq r; mu_in := mu_in r;
     mu_eq_inv := mu_eq_inv r; mu_in_inv := mu_in_inv r; n_ext := n_ext r; n_tot := n_tot r;
     n_mu_change := n_mu_change r; n_c := n_c r; objValue := objValue r; status := status r |}.
Definition set_y (v : list T) (r : QPResults) : QPResults :=
  {| x := x r; y := v; z := z r; rho := rho r; mu_eq := mu_eq r; mu_in := mu_in r;
     mu_eq_inv := mu_eq_inv r; mu_in_inv := mu_in_inv r; n_ext := n_ext r; n_tot := n_tot r;
     n_mu_change := n_mu_change r; n_c := n_c r; objValue := objValue r; status := status r |}.
Definition set_z (v : list T) (r : QPResults) : QPResults :=
  {| x := x r; y := y r; z := v; rho := rho r; mu_eq := mu_eq r; mu_in := mu_in r;
     mu_eq_inv := mu_eq_inv r; mu_in_inv := mu_in_inv r; n_ext := n_ext r; n_tot := n_tot r;
     n_mu_change := n_mu_change r; n_c := n_c r; objValue := objValue r; status := status r |}.
Definition set_rho (v : T) (r : QPResults) : QPResults :=
  {| x := x r; y := y r; z := z r; rho := v; mu_eq := mu_eq r; mu_in := mu_in r;
     mu_eq_inv := mu_eq_inv r; mu_in_inv := mu_in_inv r; n_ext := n_ext r; n_tot := n_tot r;
     n_mu_change := n_mu_change r; n_c := n_c r; objValue := objValue r; status := status r |}.
Definition set_mu (eq_ in_ eq_inv in_inv : T) (r : QPResults) : QPResults :=
  {| x := x r; y := y r; z := z r; rho := rho r; mu_eq := eq_; mu_in := in_;
     mu_eq_inv := eq_inv; mu_in_inv := in_inv; n_ext := n_ext r; n_tot := n_tot r;
     n_mu_change := n_mu_change r; n_c := n_c r; objValue := objValue r; status := status r |}.
Definition set_n_ext (v : Z) (r : QPResults) : QPResults :=
  {| x := x r; y := y r; z := z r; rho := rho r; mu_eq := mu_eq r; mu_in := mu_in r;
     mu_eq_inv := mu_eq_inv r; mu_in_inv := mu_in_inv r; n_ext := v; n_tot := n_tot r;
     n_mu_change := n_mu_change r; n_c := n_c r; objValue := objValue r; status := status r |}.
Definition set_n_tot (v : Z) (r : QPResults) : QPResults :=
  {| x := x r; y := y r; z := z r; rho := rho r; mu_eq := mu_eq r; mu_in := mu_in r;
     mu_eq_inv := mu_eq_inv r; mu_in_inv := mu_in_inv r; n_ext := n_ext r; n_tot := v;
     n_mu_change := n_mu_change r; n_c := n_c r; objValue := objValue r; status := status r |}.
Definition set_n_mu_change (v : Z) (r : QPResults) : QPResults :=
  {| x := x r; y := y r; z := z r; rho := rho r; mu_eq := mu_eq r; mu_in := mu_in r;
     mu_eq_inv := mu_eq_inv r; mu_in_inv := mu_in_inv r; n_ext := n_ext r; n_tot := n_tot r;
     n_mu_change := v; n_c := n_c r; objValue := objValue r; status := status r |}.
Definition set_n_c (v : nat) (r : QPResults) : QPResults :=
  {| x := x r; y := y r; z := z r; rho := rho r; mu_eq := mu_eq r; mu_in := mu_in r;
     mu_eq_inv := mu_eq_inv r; mu_in_inv := mu_in_inv r; n_ext := n_ext r; n_tot := n_tot r;
     n_mu_change := n_mu_change r; n_c := v; objValue := objValue r; status := status r |}.
Definition set_objValue (v : T) (r : QPResults) : QPResults :=
  {| x := x r; y := y r; z := z r; rho := rho r; mu_eq := mu_eq r; mu_in := mu_in r;
     mu_eq_inv := mu_eq_inv r; mu_in_inv := mu_in_inv r; n_ext := n_ext r; n_tot := n_tot r;
     n_mu_change := n_mu_change r; n_c := n_c r; objValue := v; status := status r |}.

(** [QPWorkspace]: the scratch buffers, read and written by member name, the
    factorization state [ldl], the preconditioner [ruiz] and the bijection map. *)
Record QPWorkspace : Type := {
  vec : WVec -> list T;
  mat : WMat -> list (list T);
  bvec : WBool -> list bool;
  scal : WScal -> T;
  ldl : Ldl;
  ruiz : Ruiz;
  current_bijection_map : list nat
}.

Definition set_vec (f : WVec) (v : list T) (w : QPWorkspace) : QPWorkspace :=
  {| vec := fun f' => if WVec_eq_dec f f' then v else vec w f';
     mat := mat w; bvec := bvec w; scal := scal w; ldl := ldl w; ruiz := ruiz w;
     current_bijection_map := current_bijection_map w |}.
Definition set_mat (f : WMat) (v : list (list T)) (w : QPWorkspace) : QPWorkspace :=
  {| vec := vec w; mat := fun f' => if WMat_eq_dec f f' then v else mat w f';
     bvec := bvec w; scal := scal w; ldl := ldl w; ruiz := ruiz w;
     current_bijection_map := current_bijection_map w |}.
Definition set_bvec (f : WBool) (v : list bool) (w : QPWorkspace) : QPWorkspace :=
  {| vec := vec w; mat := mat w; bvec := fun f' => if WBool_eq_dec f f' then v else bvec w f';
     scal := scal w; ldl := ldl w; ruiz := ruiz w;
     current_bijection_map := current_bijection_map w |}.
Definition set_scal (f : WScal) (v : T) (w : QPWorkspace) : QPWorkspace :=
  {| vec := vec w; mat := mat w; bvec := bvec w;
     scal := fun f' => if WScal_eq_dec f f' then v else scal w f';
     ldl := ldl w; ruiz := ruiz w; current_bijection_map := current_bijection_map w |}.
Definition set_ldl (v : Ldl) (w : QPWorkspace) : QPWorkspace :=
  {| vec := vec w; mat := mat w; bvec := bvec w; scal := scal w; ldl := v; ruiz := ruiz w;
     current_bijection_map := current_bijection_map w |}.
Definition set_ruiz (v : Ruiz) (w : QPWorkspace) : QPWorkspace :=
  {| vec := vec w; mat := mat w; bvec := bvec w; scal := scal w; ldl := ldl w; ruiz := v;
     current_bijection_map := current_bijection_map w |}.

(** The seven scaled buffers handed to the preconditioner as one view
    ([QpViewBoxMut], helpers.hpp:99-106). *)
Record QpViewBox : Type := {
  vH : list (list T); vg : list T; vA : list (list T); vb : list T;
  vC : list (list T); vu : list T; vl : list T
}.

(** The collaborators the two files call into and do not define: the LDLT
    engine ([ldlt/]), the preconditioner object, the line searches and the
    active-set manager ([qp/proxqp/line_search.hpp]), and the reset methods of
    the results and workspace classes.

    Modelled from the spec: what the absent collaborators may write.  The
    active-set manager updates [n_c], the bijection map and the factorization
    (spec 4.3), so it returns the new [n_c] with the workspace; the line
    searches leave their step length in [qpwork.alpha] (spec 4.6, 4.7), so they
    return the workspace. *)
Record Collaborators : Type := {
  ldl_factorize : Ldl -> list (list T) -> Ldl;
  ldl_solve_in_place : Ldl -> list T -> list T;
  ldl_insert_at : Ldl -> nat -> list T -> Ldl;
  ldl_rank_one_update : Ldl -> list T -> T -> Ldl;
  scale_primal_in_place : Ruiz -> list T -> list T;
  scale_dual_in_place_eq : Ruiz -> list T -> list T;
  scale_dual_in_place_in : Ruiz -> list T -> list T;
  unscale_primal_in_place : Ruiz -> list T -> list T;
  unscale_dual_in_place_eq : Ruiz -> list T -> list T;
  unscale_dual_in_place_in : Ruiz -> list T -> list T;
  scale_primal_residual_in_place_eq : Ruiz -> list T -> list T;
  scale_primal_residual_in_place_in : Ruiz -> list T -> list T;
  scale_dual_residual_in_place : Ruiz -> list T -> list T;
  unscale_primal_residual_in_place_eq : Ruiz -> list T -> list T;
  unscale_primal_residual_in_place_in : Ruiz -> list T -> list T;
  unscale_dual_residual_in_place : Ruiz -> list T -> list T;
  scale_qp_in_place : Ruiz -> QpViewBox -> bool -> QPSettings -> Ruiz * QpViewBox;
  active_set_change : QPData -> QPResults -> QPWorkspace -> nat * QPWorkspace;
  initial_guess_ls : QPSettings -> QPData -> QPResults -> QPWorkspace -> QPWorkspace;
  correction_guess_ls : QPData -> QPResults -> QPWorkspace -> QPWorkspace;
  results_cleanup : QPResults -> QPResults;
  results_cold_start : QPResults -> QPResults;
  results_cleanup_statistics : QPResults -> QPResults;
  work_cleanup : QPWorkspace -> QPWorkspace
}.

Variable ext : Collaborators.

(** ** solver.hpp *)

(** The loop that re-inserts the active inequality rows into the
    factorization, slot by slot (solver.hpp:70-79 and 229-238). *)
Definition reinsert_active_rows (qpmodel : QPData) (qpresults : QPResults)
    (qpwork : QPWorkspace) : QPWorkspace :=
  fold_left (fun w j =>
    fold_left (fun w i =>
      if (j =? nth i (current_bijection_map w) 0)%nat then
        let w := set_vec dw_aug
                   (set_head (dim qpmodel) (row (mat w C_scaled) i) (vec w dw_aug)) w in
        let w := set_vec dw_aug
                   (set_coeff (dim qpmodel + n_eq qpmodel + j) (- mu_in_inv qpresults)
                      (vec w dw_aug)) w in
        let w := set_ldl
                   (ldl_insert_at ext (ldl w) (n_eq qpmodel + dim qpmodel + j)
                      (vhead (dim qpmodel + n_eq qpmodel + n_c qpresults) (vec w dw_aug))) w in
        set_vec dw_aug (set_coeff (dim qpmodel + n_eq qpmodel + j) s0 (vec w dw_aug)) w
      else w)
      (seq 0 (n_in qpmodel)) w)
    (seq 0 (n_c qpresults)) qpwork.

(** solver.hpp:57-81.  The caller stores [rho_new] afterwards. *)
Definition refactorize (qpmodel : QPData) (qpresults : QPResults) (qpwork : QPWorkspace)
    (rho_new : T) : QPWorkspace :=
  let w := set_vec dw_aug (setZero (vec qpwork dw_aug)) qpwork in
  let w := set_mat kkt
             (diag_update 0 (dim qpmodel) (fun d => d + (rho_new - rho qpresults))
                (mat w kkt)) w in
  let w := set_mat kkt
             (diag_update (dim qpmodel) (n_eq qpmodel) (fun _ => - mu_eq_inv qpresults)
                (mat w kkt)) w in
  let w := set_ldl (ldl_factorize ext (ldl w) (mat w kkt)) w in
  let w := reinsert_active_rows qpmodel qpresults w in
  set_vec dw_aug (setZero (vec w dw_aug)) w.

(** solver.hpp:83-110 *)
Definition mu_update (qpmodel : QPData) (qpresults : QPResults) (qpwork : QPWorkspace)
    (mu_eq_new_inv mu_in_new_inv : T) : QPWorkspace :=
  let n := (dim qpmodel + n_eq qpmodel + n_c qpresults)%nat in
  let rank_one (off : nat) (diff : T) (w : QPWorkspace) (i : nat) :=
    let w := set_vec dw_aug (set_coeff (dim qpmodel + off + i) s1 (vec w dw_aug)) w in
    let w := set_ldl (ldl_rank_one_update ext (ldl w) (vhead n (vec w dw_aug)) diff) w in
    set_vec dw_aug (set_coeff (dim qpmodel + off + i) s0 (vec w dw_aug)) w in
  let w := set_vec dw_aug (set_head n (vzero n) (vec qpwork dw_aug)) qpwork in
  let w := if (0 <? n_eq qpmodel)%nat
           then fold_left (rank_one 0%nat (mu_eq_inv qpresults - mu_eq_new_inv))
                  (seq 0 (n_eq qpmodel)) w
           else w in
  if (0 <? n_c qpresults)%nat
  then fold_left (rank_one (n_eq qpmodel) (mu_in_inv qpresults - mu_in_new_inv))
         (seq 0 (n_c qpresults)) w
  else w.

(** solver.hpp:112-134: [err <- rhs - KKT * dw_aug], from the explicit blocks. *)
Definition iterative_residual (qpmodel : QPData) (qpresults : QPResults)
    (qpwork : QPWorkspace) (inner_pb_dim : nat) : QPWorkspace :=
  let n := dim qpmodel in
  let ne := n_eq qpmodel in
  let dw := vec qpwork dw_aug in
  let Cs := mat qpwork C_scaled in
  let e := set_head inner_pb_dim (vhead inner_pb_dim (vec qpwork rhs)) (vec qpwork err) in
  let e := sub_head n (mat_vec (mat qpwork H_scaled) (vhead n dw)) e in
  let e := sub_head n (vscale (rho qpresults) (vhead n dw)) e in
  let e := sub_head n (matT_vec n (mat qpwork A_scaled) (vsegment n ne dw)) e in
  let e := fold_left (fun e i =>
             let j := nth i (current_bijection_map qpwork) 0%nat in
             if (j <? n_c qpresults)%nat then
               let e := sub_head n (vscale (coeff dw (n + ne + j)) (row Cs i)) e in
               set_coeff (n + ne + j)
                 (coeff e (n + ne + j)
                  - (dot (row Cs i) (vhead n dw)
                     - coeff dw (n + ne + j) * mu_in_inv qpresults)) e
             else e)
             (seq 0 (n_in qpmodel)) e in
  let e := sub_segment n ne
             (vsub (mat_vec (mat qpwork A_scaled) (vhead n dw))
                   (vscale_r (vsegment n ne dw) (mu_eq_inv qpresults))) e in
  set_vec err e qpwork.

(** *** Iterative refinement (solver.hpp:136-296) *)

(** The loop variables of the refinement loop. *)
Record RefineState : Type := {
  it : Z; it_stability : Z; preverr : T; rwork : QPWorkspace
}.

(** How the loop was left: its guard failed, one of its two [break]s fired,
    or the embedding ran out of fuel. *)
Inductive RefineStop : Type :=
| ResidualBelowEps | IterationBound | StabilityBreak | OutOfFuel.

(** solver.hpp:150-158 and 246-254: direct solve, then the residual. *)
Definition first_solve (qpmodel : QPData) (qpresults : QPResults) (qpwork : QPWorkspace)
    (inner_pb_dim : nat) : QPWorkspace :=
  let w := set_vec dw_aug
             (set_head inner_pb_dim (vhead inner_pb_dim (vec qpwork rhs))
                (vec qpwork dw_aug)) qpwork in
  let w := set_vec dw_aug
             (set_head inner_pb_dim
                (ldl_solve_in_place ext (ldl w) (vhead inner_pb_dim (vec w dw_aug)))
                (vec w dw_aug)) w in
  iterative_residual qpmodel qpresults w inner_pb_dim.

(** solver.hpp:172-180 (and 268-276): one correction of [dw_aug]. *)
Definition refine_once (qpmodel : QPData) (qpresults : QPResults) (qpwork : QPWorkspace)
    (inner_pb_dim : nat) : QPWorkspace :=
  let w := set_vec err
             (set_head inner_pb_dim
                (ldl_solve_in_place ext (ldl qpwork) (vhead inner_pb_dim (vec qpwork err)))
                (vec qpwork err)) qpwork in
  let w := set_vec dw_aug
             (add_head inner_pb_dim (vhead inner_pb_dim (vec w err)) (vec w dw_aug)) w in
  let w := set_vec err (set_head inner_pb_dim (vzero inner_pb_dim) (vec w err)) w in
  iterative_residual qpmodel qpresults w inner_pb_dim.

Definition err_norm (inner_pb_dim : nat) (w : QPWorkspace) : T :=
  infty_norm (vhead inner_pb_dim (vec w err)).

(** solver.hpp:165-192 (and 261-288): one evaluation of the loop guard and,
    when it holds, one pass through the body.  [Some stop] leaves the loop. *)
Definition refinement_iteration (QPSettings_ : QPSettings) (qpmodel : QPData)
    (qpresults : QPResults) (eps : T) (inner_pb_dim : nat) (st : RefineState)
    : option RefineStop * RefineState :=
  if err_norm inner_pb_dim (rwork st) >=? eps then
    if (it st >=? nb_iterative_refinement QPSettings_)%Z then (Some IterationBound, st)
    else
      let w := refine_once qpmodel qpresults (rwork st) inner_pb_dim in
      let stab := if err_norm inner_pb_dim w >? preverr st
                  then (it_stability st + 1)%Z else 0%Z in
      if (stab =? 2)%Z then
        (Some StabilityBreak,
         {| it := (it st + 1)%Z; it_stability := stab; preverr := preverr st; rwork := w |})
      else
        (None,
         {| it := (it st + 1)%Z; it_stability := stab;
            preverr := err_norm inner_pb_dim w; rwork := w |})
  else (Some ResidualBelowEps, st).

(** The [while] loop; [fuel] bounds the passes through the body. *)
Fixpoint refinement_loop (fuel : nat) (QPSettings_ : QPSettings) (qpmodel : QPData)
    (qpresults : QPResults) (eps : T) (inner_pb_dim : nat) (st : RefineState)
    : RefineStop * RefineState :=
  match refinement_iteration QPSettings_ qpmodel qpresults eps inner_pb_dim st with
  | (Some stop, st') => (stop, st')
  | (None, st') =>
      match fuel with
      | O => (OutOfFuel, st')
      | S fuel' => refinement_loop fuel' QPSettings_ qpmodel qpresults eps inner_pb_dim st'
      end
  end.

(** The loop started after a direct solve: [it = 1], [it_stability = 0]. *)
Definition solve_and_refine (QPSettings_ : QPSettings) (qpmodel : QPData)
    (qpresults : QPResults) (qpwork : QPWorkspace) (eps : T) (inner_pb_dim : nat)
    : RefineStop * RefineState :=
  let w := first_solve qpmodel qpresults qpwork inner_pb_dim in
  refinement_loop (Z.to_nat (nb_iterative_refinement QPSettings_)) QPSettings_ qpmodel
    qpresults eps inner_pb_dim
    {| it := 1%Z; it_stability := 0%Z; preverr := err_norm inner_pb_dim w; rwork := w |}.

Definition iterative_solve_with_permut_fact (QPSettings_ : QPSettings) (qpmodel : QPData)
    (qpresults : QPResults) (qpwork : QPWorkspace) (eps : T) (inner_pb_dim : nat)
    : QPWorkspace :=
  let w := set_vec err (setZero (vec qpwork err)) qpwork in
  let w := rwork (snd (solve_and_refine QPSettings_ qpmodel qpresults w eps inner_pb_dim)) in
  let w :=
    if err_norm inner_pb_dim w >=? std_max eps (eps_refact QPSettings_) then
      let w := set_vec dw_aug (setZero (vec w dw_aug)) w in
      let w := set_mat kkt
                 (diag_update (dim qpmodel) (n_eq qpmodel) (fun _ => - mu_eq_inv qpresults)
                    (mat w kkt)) w in
      let w := set_ldl (ldl_factorize ext (ldl w) (mat w kkt)) w in
      let w := reinsert_active_rows qpmodel qpresults w in
      let w := set_vec dw_aug (setZero (vec w dw_aug)) w in
      rwork (snd (solve_and_refine QPSettings_ qpmodel qpresults w eps inner_pb_dim))
    else w in
  set_vec rhs (set_head inner_pb_dim (vzero inner_pb_dim) (vec w rhs)) w.

(** *** BCL update (solver.hpp:299-341) *)

(** The tolerances [bcl_eta_ext], [bcl_eta_in] and the pending penalties
    [new_bcl_mu_*]: locals of [qp_solve] that [bcl_update] takes by reference. *)
Record BclTolerances : Type := { bcl_eta_ext : T; bcl_eta_in : T }.
Record PendingMu : Type := {
  new_bcl_mu_in : T; new_bcl_mu_eq : T; new_bcl_mu_in_inv : T; new_bcl_mu_eq_inv : T
}.

Definition bcl_update (QPSettings_ : QPSettings) (qpmodel : QPData) (qpresults : QPResults)
    (qpwork : QPWorkspace) (primal_feasibility_lhs : T) (eta : BclTolerances)
    (bcl_eta_ext_init eps_in_min : T) (pending : PendingMu)
    : QPResults * BclTolerances * PendingMu :=
  if primal_feasibility_lhs <=? bcl_eta_ext eta then
    (qpresults,
     {| bcl_eta_ext := bcl_eta_ext eta * spow (mu_in_inv qpresults) (beta_bcl QPSettings_);
        bcl_eta_in := max2 (bcl_eta_in eta * mu_in_inv qpresults) eps_in_min |},
     pending)
  else
    let qpresults' := set_z (vec qpwork z_prev) (set_y (vec qpwork y_prev) qpresults) in
    let new_mu_in :=
      std_min (mu_in qpresults * mu_update_factor QPSettings_) (mu_max_in QPSettings_) in
    let new_mu_eq :=
      std_min (mu_eq qpresults * mu_update_factor QPSettings_) (mu_max_eq QPSettings_) in
    let new_mu_in_inv :=
      max2 (mu_in_inv qpresults * mu_update_inv_factor QPSettings_)
           (mu_max_in_inv QPSettings_) in
    let new_mu_eq_inv :=
      max2 (mu_eq_inv qpresults * mu_update_inv_factor QPSettings_)
           (mu_max_eq_inv QPSettings_) in
    (qpresults',
     {| bcl_eta_ext := bcl_eta_ext_init * spow new_mu_in_inv (alpha_bcl QPSettings_);
        bcl_eta_in := max2 new_mu_in_inv eps_in_min |},
     {| new_bcl_mu_in := new_mu_in; new_bcl_mu_eq := new_mu_eq;
        new_bcl_mu_in_inv := new_mu_in_inv; new_bcl_mu_eq_inv := new_mu_eq_inv |}).

(** *** Residuals (solver.hpp:343-439) *)

(** The scalars [global_primal_residual] and [global_dual_residual] write
    through their reference parameters. *)
Record PrimalResidual : Type := {
  primal_feasibility_lhs : T;
  primal_feasibility_eq_rhs_0 : T;
  primal_feasibility_in_rhs_0 : T;
  primal_feasibility_eq_lhs : T;
  primal_feasibility_in_lhs : T
}.
Record DualResidual : Type := {
  dual_feasibility_lhs : T;
  dual_feasibility_rhs_0 : T;
  dual_feasibility_rhs_1 : T;
  dual_feasibility_rhs_3 : T
}.

Definition global_primal_residual (qpmodel : QPData) (qpresults : QPResults)
    (qpwork : QPWorkspace) : QPWorkspace * PrimalResidual :=
  let w := set_vec primal_residual_eq_scaled
             (mat_vec (mat qpwork A_scaled) (x qpresults)) qpwork in
  let w := set_vec primal_residual_in_scaled_up
             (mat_vec (mat w C_scaled) (x qpresults)) w in
  let w := set_vec primal_residual_eq_scaled
             (unscale_primal_residual_in_place_eq ext (ruiz w)
                (vec w primal_residual_eq_scaled)) w in
  let eq_rhs_0 := infty_norm (vec w primal_residual_eq_scaled) in
  let w := set_vec primal_residual_in_scaled_up
             (unscale_primal_residual_in_place_in ext (ruiz w)
                (vec w primal_residual_in_scaled_up)) w in
  let in_rhs_0 := infty_norm (vec w primal_residual_in_scaled_up) in
  let w := set_vec primal_residual_in_scaled_low
             (vadd (positive_part (vsub (vec w primal_residual_in_scaled_up) (u qpmodel)))
                   (negative_part (vsub (vec w primal_residual_in_scaled_up) (l qpmodel))))
             w in
  let w := set_vec primal_residual_eq_scaled
             (vsub (vec w primal_residual_eq_scaled) (b qpmodel)) w in
  let in_lhs := infty_norm (vec w primal_residual_in_scaled_low) in
  let eq_lhs := infty_norm (vec w primal_residual_eq_scaled) in
  let lhs := max2 eq_lhs in_lhs in
  let w := set_vec primal_residual_eq_scaled
             (scale_primal_residual_in_place_eq ext (ruiz w)
                (vec w primal_residual_eq_scaled)) w in
  (w, {| primal_feasibility_lhs := lhs;
         primal_feasibility_eq_rhs_0 := eq_rhs_0;
         primal_feasibility_in_rhs_0 := in_rhs_0;
         primal_feasibility_eq_lhs := eq_lhs;
         primal_feasibility_in_lhs := in_lhs |}).

Definition global_dual_residual (qpmodel : QPData) (qpresults : QPResults)
    (qpwork : QPWorkspace) : QPWorkspace * DualResidual :=
  let n := dim qpmodel in
  let w := set_vec dual_residual_scaled (vec qpwork g_scaled) qpwork in
  let w := set_vec CTz (mat_vec (mat w H_scaled) (x qpresults)) w in
  let w := set_vec dual_residual_scaled (vadd (vec w dual_residual_scaled) (vec w CTz)) w in
  let w := set_vec CTz (unscale_dual_residual_in_place ext (ruiz w) (vec w CTz)) w in
  let rhs_0 := infty_norm (vec w CTz) in
  let w := set_vec CTz (matT_vec n (mat w A_scaled) (y qpresults)) w in
  let w := set_vec dual_residual_scaled (vadd (vec w dual_residual_scaled) (vec w CTz)) w in
  let w := set_vec CTz (unscale_dual_residual_in_place ext (ruiz w) (vec w CTz)) w in
  let rhs_1 := infty_norm (vec w CTz) in
  let w := set_vec CTz (matT_vec n (mat w C_scaled) (z qpresults)) w in
  let w := set_vec dual_residual_scaled (vadd (vec w dual_residual_scaled) (vec w CTz)) w in
  let w := set_vec CTz (unscale_dual_residual_in_place ext (ruiz w) (vec w CTz)) w in
  let rhs_3 := infty_norm (vec w CTz) in
  let w := set_vec dual_residual_scaled
             (unscale_dual_residual_in_place ext (ruiz w) (vec w dual_residual_scaled)) w in
  let lhs := infty_norm (vec w dual_residual_scaled) in
  let w := set_vec dual_residual_scaled
             (scale_dual_residual_in_place ext (ruiz w) (vec w dual_residual_scaled)) w in
  (w, {| dual_feasibility_lhs := lhs;
         dual_feasibility_rhs_0 := rhs_0;
         dual_feasibility_rhs_1 := rhs_1;
         dual_feasibility_rhs_3 := rhs_3 |}).

Definition compute_primal_dual_residual (qpmodel : QPData) (qpresults : QPResults)
    (qpwork : QPWorkspace) : QPWorkspace * T :=
  let zmu := vscale_r (z qpresults) (mu_in_inv qpresults) in
  let w := set_vec primal_residual_in_scaled_up
             (vsub (vec qpwork primal_residual_in_scaled_up) zmu) qpwork in
  let w := set_vec primal_residual_in_scaled_low
             (vsub (vec w primal_residual_in_scaled_low) zmu) w in
  let prim_eq_e := infty_norm (vec w primal_residual_eq_scaled) in
  let w := set_vec dual_residual_scaled
             (vadd (vec w dual_residual_scaled)
                   (matT_vec (dim qpmodel) (mat w C_scaled) (z qpresults))) w in
  let dual_e := infty_norm (vec w dual_residual_scaled) in
  let err0 := max2 prim_eq_e dual_e in
  let w := set_vec primal_residual_in_scaled_up_plus_alphaCdx
             (vadd (positive_part (vec w primal_residual_in_scaled_up))
                   (negative_part (vec w primal_residual_in_scaled_low))) w in
  let w := set_bvec active_set_up (map (fun a => a >? s0) (z qpresults)) w in
  let w := set_bvec active_set_low (map (fun a => a <? s0) (z qpresults)) w in
  let w := set_vec active_part_z
             (vadd (vadd (select (bvec w active_set_up) (vec w primal_residual_in_scaled_up))
                         (select (bvec w active_set_low)
                            (vec w primal_residual_in_scaled_low)))
                   (select (vnor (bvec w active_set_low) (bvec w active_set_up))
                      (vec w primal_residual_in_scaled_up_plus_alphaCdx))) w in
  (w, max2 err0 (infty_norm (vec w active_part_z))).

(** *** Inner steps (solver.hpp:442-668) *)

Definition newton_step (QPSettings_ : QPSettings) (qpmodel : QPData) (qpresults : QPResults)
    (qpwork : QPWorkspace) (eps : T) : QPResults * QPWorkspace :=
  let w := set_bvec active_set_up
             (map (fun a => a >? s0) (vec qpwork primal_residual_in_scaled_up)) qpwork in
  let w := set_bvec active_set_low
             (map (fun a => a <? s0) (vec w primal_residual_in_scaled_low)) w in
  let w := set_bvec active_inequalities
             (vor (bvec w active_set_up) (bvec w active_set_low)) w in
  let numactive_inequalities := vcount (bvec w active_inequalities) in
  let inner_pb_dim := (dim qpmodel + n_eq qpmodel + numactive_inequalities)%nat in
  let w := set_vec rhs (setZero (vec w rhs)) w in
  let w := set_vec dw_aug (setZero (vec w dw_aug)) w in
  let w := set_vec rhs (sub_head (dim qpmodel) (vec w dual_residual_scaled) (vec w rhs)) w in
  let changed := active_set_change ext qpmodel qpresults w in
  let r := set_n_c (fst changed) qpresults in
  let w := snd changed in
  (r, iterative_solve_with_permut_fact QPSettings_ qpmodel r w eps inner_pb_dim).

(** [initial_guess] (solver.hpp:476-586), cut at its three calls.  [ze] is a
    mutable view of [qpwork.z_prev] (solver.hpp:806): every read and write of
    [ze] below goes to that member. *)

(** solver.hpp:485-503: the active set of the candidate [ze]; hands back the
    local [inner_pb_dim] with the workspace. *)
Definition initial_guess_active_set (qpmodel : QPData) (qpresults : QPResults)
    (qpwork : QPWorkspace) : QPWorkspace * nat :=
  let n := dim qpmodel in
  let ne := n_eq qpmodel in
  let up := primal_residual_in_scaled_up in
  let low := primal_residual_in_scaled_low in
  let ze_mu (w : QPWorkspace) := vscale_r (vec w z_prev) (mu_in_inv qpresults) in
  let w := set_vec z_prev (unscale_dual_in_place_in ext (ruiz qpwork) (vec qpwork z_prev))
             qpwork in
  let w := set_vec up (vadd (vec w up) (ze_mu w)) w in
  let w := set_vec low (vec w up) w in
  let w := set_vec up (vsub (vec w up) (u qpmodel)) w in
  let w := set_vec low (vsub (vec w low) (l qpmodel)) w in
  let w := set_bvec active_set_up (map (fun a => a >=? s0) (vec w up)) w in
  let w := set_bvec active_set_low (map (fun a => a <=? s0) (vec w low)) w in
  let w := set_bvec active_inequalities
             (vor (bvec w active_set_up) (bvec w active_set_low)) w in
  let w := set_vec up (vsub (vec w up) (ze_mu w)) w in
  let w := set_vec low (vsub (vec w low) (ze_mu w)) w in
  let w := set_vec up (scale_primal_residual_in_place_in ext (ruiz w) (vec w up)) w in
  let w := set_vec low (scale_primal_residual_in_place_in ext (ruiz w) (vec w low)) w in
  let w := set_vec z_prev (scale_dual_in_place_in ext (ruiz w) (vec w z_prev)) w in
  let numactive_inequalities := vcount (bvec w active_inequalities) in
  let inner_pb_dim := (n + ne + numactive_inequalities)%nat in
  let w := set_vec rhs (setZero (vec w rhs)) w in
  let w := set_vec active_part_z (setZero (vec w active_part_z)) w in
  (w, inner_pb_dim).

(** solver.hpp:509-522: the right-hand side of the saddle-point system, after
    the active-set manager has run. *)
Definition initial_guess_rhs (qpmodel : QPData) (qpresults : QPResults)
    (qpwork : QPWorkspace) : QPWorkspace :=
  let n := dim qpmodel in
  let ne := n_eq qpmodel in
  let ni := n_in qpmodel in
  let up := primal_residual_in_scaled_up in
  let low := primal_residual_in_scaled_low in
  let w := set_vec rhs (set_head n (vneg (vec qpwork dual_residual_scaled)) (vec qpwork rhs))
             qpwork in
  let w := set_vec rhs
             (set_segment n ne (vneg (vec w primal_residual_eq_scaled)) (vec w rhs)) w in
  fold_left (fun w i =>
    let j := nth i (current_bijection_map w) 0%nat in
    if (j <? n_c qpresults)%nat then
      if nth i (bvec w active_set_up) false then
        set_vec rhs (set_coeff (j + n + ne) (- coeff (vec w up) i) (vec w rhs)) w
      else if nth i (bvec w active_set_low) false then
        set_vec rhs (set_coeff (j + n + ne) (- coeff (vec w low) i) (vec w rhs)) w
      else w
    else
      set_vec rhs
        (add_head n (vscale (coeff (z qpresults) i) (row (mat w C_scaled) i)) (vec w rhs)) w)
    (seq 0 ni) w.

(** solver.hpp:531-548: the step permuted back through the bijection map,
    and its products with the scaled matrices. *)
Definition initial_guess_direction (qpmodel : QPData) (qpresults : QPResults)
    (qpwork : QPWorkspace) : QPWorkspace :=
  let n := dim qpmodel in
  let ne := n_eq qpmodel in
  let ni := n_in qpmodel in
  let up := primal_residual_in_scaled_up in
  let low := primal_residual_in_scaled_low in
  let ze_mu (w : QPWorkspace) := vscale_r (vec w z_prev) (mu_in_inv qpresults) in
  let w := fold_left (fun w j =>
             let i := nth j (current_bijection_map w) 0%nat in
             if (i <? n_c qpresults)%nat then
               set_vec active_part_z
                 (set_coeff j (coeff (vec w dw_aug) (n + ne + i)) (vec w active_part_z)) w
             else
               set_vec active_part_z
                 (set_coeff j (- coeff (z qpresults) j) (vec w active_part_z)) w)
             (seq 0 ni) qpwork in
  let w := set_vec dw_aug (set_tail ni (vec w active_part_z) (vec w dw_aug)) w in
  let w := set_vec up (vadd (vec w up) (ze_mu w)) w in
  let w := set_vec low (vadd (vec w low) (ze_mu w)) w in
  let dx (w : QPWorkspace) := vhead n (vec w dw_aug) in
  let dy (w : QPWorkspace) := vsegment n ne (vec w dw_aug) in
  let w := set_vec Adx
             (vsub (mat_vec (mat w A_scaled) (dx w))
                   (vscale_r (dy w) (mu_eq_inv qpresults))) w in
  let w := set_vec Hdx
             (vadd (mat_vec (mat w H_scaled) (dx w)) (matT_vec n (mat w A_scaled) (dy w))) w in
  let w := set_vec Hdx (vadd (vec w Hdx) (vscale (rho qpresults) (dx w))) w in
  let w := set_vec Cdx (mat_vec (mat w C_scaled) (dx w)) w in
  set_vec dual_residual_scaled
    (vsub (vec w dual_residual_scaled)
          (matT_vec n (mat w C_scaled) (vec w z_prev))) w.

(** solver.hpp:560-585: the step of length [qpwork.alpha], taken on the
    iterate and on the residuals, and the saddle-point error it leaves. *)
Definition initial_guess_update (qpmodel : QPData) (qpresults : QPResults)
    (qpwork : QPWorkspace) : QPResults * QPWorkspace * T :=
  let n := dim qpmodel in
  let ne := n_eq qpmodel in
  let ni := n_in qpmodel in
  let up := primal_residual_in_scaled_up in
  let low := primal_residual_in_scaled_low in
  let dx (w : QPWorkspace) := vhead n (vec w dw_aug) in
  let dy (w : QPWorkspace) := vsegment n ne (vec w dw_aug) in
  let r := qpresults in
  let w := qpwork in
  let a := scal w alpha in
  let w := set_vec up (vadd (vec w up) (vscale a (vec w Cdx))) w in
  let w := set_vec low (vadd (vec w low) (vscale a (vec w Cdx))) w in
  let w := set_bvec active_set_up (map (fun a => a >=? s0) (vec w up)) w in
  let w := set_bvec active_set_low (map (fun a => a <=? s0) (vec w low)) w in
  let w := set_bvec active_inequalities
             (vor (bvec w active_set_up) (bvec w active_set_low)) w in
  let r := set_x (vadd (x r) (vscale a (dx w))) r in
  let r := set_y (vadd (y r) (vscale a (dy w))) r in
  let w := set_vec active_part_z (vadd (z r) (vscale a (vtail ni (vec w dw_aug)))) w in
  let w := set_vec primal_residual_in_scaled_up_plus_alphaCdx
             (select (map (fun a => a >? s0) (vec w active_part_z)) (vec w active_part_z)) w in
  let w := set_vec primal_residual_in_scaled_low_plus_alphaCdx
             (select (map (fun a => a <? s0) (vec w active_part_z)) (vec w active_part_z)) w in
  let r := set_z
             (vadd (vadd (select (bvec w active_set_up)
                            (vec w primal_residual_in_scaled_up_plus_alphaCdx))
                         (select (bvec w active_set_low)
                            (vec w primal_residual_in_scaled_low_plus_alphaCdx)))
                   (select (vnor (bvec w active_set_low) (bvec w active_set_up))
                      (vec w active_part_z))) r in
  let w := set_vec primal_residual_eq_scaled
             (vadd (vec w primal_residual_eq_scaled) (vscale a (vec w Adx))) w in
  let w := set_vec dual_residual_scaled
             (vadd (vec w dual_residual_scaled) (vscale a (vec w Hdx))) w in
  let w := set_vec dw_aug (setZero (vec w dw_aug)) w in
  let '(w, err_saddle_point) := compute_primal_dual_residual qpmodel r w in
  let err_saddle_point :=
    if sabs (scal w alpha) <? slit (1 # 10000000000) then s1 else err_saddle_point in
  (r, w, err_saddle_point).

Definition initial_guess (QPSettings_ : QPSettings) (qpmodel : QPData) (qpresults : QPResults)
    (qpwork : QPWorkspace) (eps_int : T) : QPResults * QPWorkspace * T :=
  let '(w, inner_pb_dim) := initial_guess_active_set qpmodel qpresults qpwork in
  let changed := active_set_change ext qpmodel qpresults w in
  let r := set_n_c (fst changed) qpresults in
  let w := initial_guess_rhs qpmodel r (snd changed) in
  let w := iterative_solve_with_permut_fact QPSettings_ qpmodel r w eps_int inner_pb_dim in
  let w := initial_guess_direction qpmodel r w in
  let w := initial_guess_ls ext QPSettings_ qpmodel r w in
  initial_guess_update qpmodel r w.

(** *** correction_guess (solver.hpp:589-668) *)

(** Which [break] of the correction loop fired. *)
Inductive CorrectionStop : Type :=
| InnerBudget          (* iter == max_iter_in, line 602 *)
| SmallStep            (* infty_norm(alpha * dx) < 1.E-11, line 629 *)
| InnerResidualSmall.  (* err_in <= eps_int * rhs_c, line 659 *)

(** solver.hpp:607-627: Newton direction, its products, the line search. *)
Definition correction_guess_direction (QPSettings_ : QPSettings) (qpmodel : QPData)
    (qpresults : QPResults) (qpwork : QPWorkspace) (eps_int : T)
    : QPResults * QPWorkspace :=
  let '(r, w) := newton_step QPSettings_ qpmodel qpresults qpwork eps_int in
  let dx := vhead (dim qpmodel) (vec w dw_aug) in
  let w := set_vec Hdx (mat_vec (mat w H_scaled) dx) w in
  let w := set_vec Adx (mat_vec (mat w A_scaled) dx) w in
  let w := set_vec Cdx (mat_vec (mat w C_scaled) dx) w in
  let w := if (0 <? n_in qpmodel)%nat then correction_guess_ls ext qpmodel r w else w in
  (r, w).

(** solver.hpp:637-654: the iterate and residuals after the step, with the
    right-hand side [rhs_c] of the inner test. *)
Definition correction_guess_step (qpmodel : QPData) (qpresults : QPResults)
    (qpwork : QPWorkspace) : QPResults * QPWorkspace * T * T :=
  let n := dim qpmodel in
  let a := scal qpwork alpha in
  let up := primal_residual_in_scaled_up in
  let low := primal_residual_in_scaled_low in
  let r := set_x (vadd (x qpresults) (vscale a (vhead n (vec qpwork dw_aug)))) qpresults in
  let w := set_vec up (vadd (vec qpwork up) (vscale a (vec qpwork Cdx))) qpwork in
  let w := set_vec low (vadd (vec w low) (vscale a (vec w Cdx))) w in
  let w := set_vec primal_residual_eq_scaled
             (vadd (vec w primal_residual_eq_scaled) (vscale a (vec w Adx))) w in
  let r := set_y (vscale (mu_eq r) (vec w primal_residual_eq_scaled)) r in
  let r := set_z (vscale_r (vadd (positive_part (vec w up)) (negative_part (vec w low)))
                    (mu_in r)) r in
  let w := set_vec dual_residual_scaled (mat_vec (mat w H_scaled) (x r)) w in
  let rhs_c := max2 (scal w correction_guess_rhs_g)
                    (infty_norm (vec w dual_residual_scaled)) in
  let w := set_vec CTz (matT_vec n (mat w A_scaled) (y r)) w in
  let w := set_vec dual_residual_scaled (vadd (vec w dual_residual_scaled) (vec w CTz)) w in
  let rhs_c := max2 rhs_c (infty_norm (vec w CTz)) in
  let w := set_vec CTz (matT_vec n (mat w C_scaled) (z r)) w in
  let w := set_vec dual_residual_scaled (vadd (vec w dual_residual_scaled) (vec w CTz)) w in
  let rhs_c := max2 rhs_c (infty_norm (vec w CTz)) in
  let w := set_vec dual_residual_scaled
             (vadd (vec w dual_residual_scaled)
                   (vadd (vec w g_scaled) (vscale (rho r) (vsub (x r) (vec w x_prev))))) w in
  let rhs_c := rhs_c + s1 in
  (r, w, rhs_c, infty_norm (vec w dual_residual_scaled)).

(** solver.hpp:629-662: the two exit tests around the step. [err_in] is the
    value the loop variable holds on entry. *)
Definition correction_guess_tail (qpmodel : QPData) (qpresults : QPResults)
    (qpwork : QPWorkspace) (eps_int : T) (iter : Z) (err_in : T)
    : option CorrectionStop * QPResults * QPWorkspace * T :=
  if infty_norm (vscale (scal qpwork alpha) (vhead (dim qpmodel) (vec qpwork dw_aug)))
       <? slit (1 # 100000000000) then
    (Some SmallStep, set_n_tot (n_tot qpresults + (iter + 1))%Z qpresults, qpwork, err_in)
  else
    let '(r, w, rhs_c, err_in) := correction_guess_step qpmodel qpresults qpwork in
    if err_in <=? eps_int * rhs_c then
      (Some InnerResidualSmall, set_n_tot (n_tot r + (iter + 1))%Z r, w, err_in)
    else (None, r, w, err_in).

(** The [for (iter = 0; iter <= max_iter_in; ++iter)] loop; [fuel] counts the
    values [iter] may still take, so that [O] is the failing loop guard. *)
Fixpoint correction_guess_loop (fuel : nat) (QPSettings_ : QPSettings) (qpmodel : QPData)
    (qpresults : QPResults) (qpwork : QPWorkspace) (eps_int : T) (iter : Z) (err_in : T)
    : option CorrectionStop * QPResults * QPWorkspace * T :=
  match fuel with
  | O => (None, qpresults, qpwork, err_in)
  | S fuel' =>
      if (iter =? max_iter_in QPSettings_)%Z then
        (Some InnerBudget,
         set_n_tot (n_tot qpresults + max_iter_in QPSettings_)%Z qpresults, qpwork, err_in)
      else
        let '(r, w) :=
          correction_guess_direction QPSettings_ qpmodel qpresults qpwork eps_int in
        match correction_guess_tail qpmodel r w eps_int iter err_in with
        | (Some stop, r, w, e) => (Some stop, r, w, e)
        | (None, r, w, e) =>
            correction_guess_loop fuel' QPSettings_ qpmodel r w eps_int (iter + 1)%Z e
        end
  end.

Definition correction_guess (QPSettings_ : QPSettings) (qpmodel : QPData)
    (qpresults : QPResults) (qpwork : QPWorkspace) (eps_int : T)
    : QPResults * QPWorkspace * T :=
  let '(_, r, w, err_in) :=
    correction_guess_loop (Z.to_nat (max_iter_in QPSettings_ + 1)) QPSettings_ qpmodel
      qpresults qpwork eps_int 0%Z (slit 1000000) in
  (r, w, err_in).

(** *** qp_solve (solver.hpp:670-975) *)

(** [R_p] and [R_d]: the norm combinations of lines 745, 751, 875 and 890. *)
Definition primal_feasibility_rhs (qpwork : QPWorkspace) (p : PrimalResidual) : T :=
  max2 (max2 (primal_feasibility_eq_rhs_0 p) (primal_feasibility_in_rhs_0 p))
       (max2 (max2 (scal qpwork primal_feasibility_rhs_1_eq)
                   (scal qpwork primal_feasibility_rhs_1_in_u))
             (scal qpwork primal_feasibility_rhs_1_in_l)).
Definition dual_feasibility_rhs (qpwork : QPWorkspace) (d : DualResidual) : T :=
  max2 (max2 (dual_feasibility_rhs_3 d) (dual_feasibility_rhs_0 d))
       (max2 (dual_feasibility_rhs_1 d) (scal qpwork dual_feasibility_rhs_2)).

(** solver.hpp:743-755 *)
Definition rhs_pri (QPSettings_ : QPSettings) (qpwork : QPWorkspace) (p : PrimalResidual) : T :=
  if eps_rel QPSettings_ !=? s0
  then eps_abs QPSettings_ + eps_rel QPSettings_ * primal_feasibility_rhs qpwork p
  else eps_abs QPSettings_.
Definition rhs_dua (QPSettings_ : QPSettings) (qpwork : QPWorkspace) (d : DualResidual) : T :=
  if eps_rel QPSettings_ !=? s0
  then eps_abs QPSettings_ + eps_rel QPSettings_ * dual_feasibility_rhs qpwork d
  else eps_abs QPSettings_.

(** solver.hpp:765-778 *)
Definition refactor_on_dual_threshold (QPSettings_ : QPSettings) (qpmodel : QPData)
    (qpresults : QPResults) (qpwork : QPWorkspace) (d : DualResidual)
    : QPResults * QPWorkspace :=
  if (dual_feasibility_lhs d >=? refactor_dual_feasibility_threshold QPSettings_)
     && (rho qpresults !=? refactor_rho_threshold QPSettings_)
  then
    let rho_new := refactor_rho_threshold QPSettings_ in
    (set_rho rho_new qpresults, refactorize qpmodel qpresults qpwork rho_new)
  else (qpresults, qpwork).

(** [(0.5 * qpmodel.H * x + qpmodel.g).dot(x)] *)
Definition objective (qpmodel : QPData) (v : list T) : T :=
  dot (vadd (mat_vec (map (vscale (slit (1 # 2))) (H qpmodel)) v) (g qpmodel)) v.

(** solver.hpp:781-785 and 895-899 *)
Definition unscale_solution (qpmodel : QPData) (qpresults : QPResults) (qpwork : QPWorkspace)
    : QPResults :=
  let r := set_x (unscale_primal_in_place ext (ruiz qpwork) (x qpresults)) qpresults in
  let r := set_y (unscale_dual_in_place_eq ext (ruiz qpwork) (y r)) r in
  let r := set_z (unscale_dual_in_place_in ext (ruiz qpwork) (z r)) r in
  set_objValue (objective qpmodel (x r)) r.

(** solver.hpp:820-831 *)
Definition prepare_correction_after_initial_guess (qpmodel : QPData) (qpresults : QPResults)
    (qpwork : QPWorkspace) : QPWorkspace :=
  let n := dim qpmodel in
  let up := primal_residual_in_scaled_up in
  let low := primal_residual_in_scaled_low in
  let w := set_vec dual_residual_scaled
             (vadd (vec qpwork dual_residual_scaled)
                   (vneg (matT_vec n (mat qpwork C_scaled) (z qpresults)))) qpwork in
  let w := set_vec dual_residual_scaled
             (vadd (vec w dual_residual_scaled)
                   (vscale (mu_eq qpresults)
                      (matT_vec n (mat w A_scaled) (vec w primal_residual_eq_scaled)))) w in
  let w := set_vec primal_residual_eq_scaled
             (vadd (vec w primal_residual_eq_scaled)
                   (vscale_r (y qpresults) (mu_eq_inv qpresults))) w in
  let w := set_vec up (vadd (vec w up) (vscale_r (z qpresults) (mu_in_inv qpresults))) w in
  let w := set_vec low (vadd (vec w low) (vscale_r (z qpresults) (mu_in_inv qpresults))) w in
  let w := set_vec active_part_z
             (vscale (mu_in qpresults)
                (vadd (positive_part (vec w up)) (negative_part (vec w low)))) w in
  set_vec dual_residual_scaled
    (vadd (vec w dual_residual_scaled) (matT_vec n (mat w C_scaled) (vec w active_part_z))) w.

(** solver.hpp:832-846 *)
Definition prepare_correction_from_previous (qpmodel : QPData) (qpresults : QPResults)
    (qpwork : QPWorkspace) : QPWorkspace :=
  let n := dim qpmodel in
  let up := primal_residual_in_scaled_up in
  let low := primal_residual_in_scaled_low in
  let w := set_vec up (scale_primal_residual_in_place_in ext (ruiz qpwork) (vec qpwork up))
             qpwork in
  let w := set_vec up (vadd (vec w up) (vscale_r (vec w z_prev) (mu_in_inv qpresults))) w in
  let w := set_vec low (vec w up) w in
  let w := set_vec up (vsub (vec w up) (vec w u_scaled)) w in
  let w := set_vec low (vsub (vec w low) (vec w l_scaled)) w in
  let w := set_vec dual_residual_scaled
             (vadd (vec w dual_residual_scaled)
                   (vscale (mu_eq qpresults)
                      (matT_vec n (mat w A_scaled) (vec w primal_residual_eq_scaled)))) w in
  let w := set_vec primal_residual_eq_scaled
             (vadd (vec w primal_residual_eq_scaled)
                   (vscale_r (y qpresults) (mu_eq_inv qpresults))) w in
  let w := set_vec active_part_z
             (vscale (mu_in qpresults)
                (vadd (positive_part (vec w up)) (negative_part (vec w low)))) w in
  let w := set_vec active_part_z (vsub (vec w active_part_z) (z qpresults)) w in
  set_vec dual_residual_scaled
    (vadd (vec w dual_residual_scaled) (matT_vec n (mat w C_scaled) (vec w active_part_z))) w.

(** solver.hpp:791-793 *)
Definition save_previous_iterate (qpresults : QPResults) (qpwork : QPWorkspace)
    : QPWorkspace :=
  let w := set_vec x_prev (x qpresults) qpwork in
  let w := set_vec y_prev (y qpresults) w in
  set_vec z_prev (z qpresults) w.

(** solver.hpp:791-860: save the previous iterate, then the inner step. *)
Definition inner_step (QPSettings_ : QPSettings) (qpmodel : QPData) (qpresults : QPResults)
    (qpwork : QPWorkspace) (primal_lhs : T) (bcl_eta_in_ : T) : QPResults * QPWorkspace :=
  let w := save_previous_iterate qpresults qpwork in
  let r := qpresults in
  let do_initial_guess_fact :=
    (primal_lhs <? eps_IG QPSettings_) || (n_in qpmodel =? 0)%nat in
  let '(r, w, err_in) :=
    if do_initial_guess_fact then
      let '(r, w, e) := initial_guess QPSettings_ qpmodel r w bcl_eta_in_ in
      (set_n_tot (n_tot r + 1)%Z r, w, e)
    else (r, w, s0) in
  let do_correction_guess :=
    (negb do_initial_guess_fact && negb (n_in qpmodel =? 0)%nat)
    || (do_initial_guess_fact && (err_in >=? bcl_eta_in_) && negb (n_in qpmodel =? 0)%nat) in
  let w := if do_initial_guess_fact && (err_in >=? bcl_eta_in_)
              && negb (n_in qpmodel =? 0)%nat
           then prepare_correction_after_initial_guess qpmodel r w else w in
  let w := if negb do_initial_guess_fact && negb (n_in qpmodel =? 0)%nat
           then prepare_correction_from_previous qpmodel r w else w in
  if do_correction_guess then
    let '(r, w, _) := correction_guess QPSettings_ qpmodel r w bcl_eta_in_ in (r, w)
  else (r, w).

(** solver.hpp:938-949 *)
Definition cold_restart (QPSettings_ : QPSettings) (qpresults : QPResults)
    (primal_lhs primal_lhs_new dual_lhs_new : T) (pending : PendingMu) : PendingMu :=
  if (primal_lhs_new / max2 primal_lhs sepsilon >=? s1)
     && (dual_lhs_new / max2 primal_lhs sepsilon >=? s1)
     && (mu_in qpresults >=? slit 100000)
  then {| new_bcl_mu_in := cold_reset_mu_in QPSettings_;
          new_bcl_mu_eq := cold_reset_mu_eq QPSettings_;
          new_bcl_mu_in_inv := cold_reset_mu_in_inv QPSettings_;
          new_bcl_mu_eq_inv := cold_reset_mu_eq_inv QPSettings_ |}
  else pending.

(** solver.hpp:954-968 *)
Definition effective_mu_update (qpmodel : QPData) (qpresults : QPResults)
    (qpwork : QPWorkspace) (pending : PendingMu) : QPResults * QPWorkspace :=
  let r := if (mu_in qpresults !=? new_bcl_mu_in pending)
              || (mu_eq qpresults !=? new_bcl_mu_eq pending)
           then set_n_mu_change (n_mu_change qpresults + 1)%Z qpresults
           else qpresults in
  let w := mu_update qpmodel r qpwork (new_bcl_mu_eq_inv pending) (new_bcl_mu_in_inv pending) in
  (set_mu (new_bcl_mu_eq pending) (new_bcl_mu_in pending)
          (new_bcl_mu_eq_inv pending) (new_bcl_mu_in_inv pending) r, w).

(** One pass through the body of the outer loop. *)
Inductive Iteration : Type :=
| ExitMaxIter (r : QPResults) (w : QPWorkspace)                   (* break, line 711 *)
| ExitSolved (r : QPResults) (w : QPWorkspace)
             (p : PrimalResidual) (d : DualResidual)               (* break, line 786 or 900 *)
| NextIteration (r : QPResults) (w : QPWorkspace) (eta : BclTolerances).

(** solver.hpp:791-968: the pass after its first exit test: inner step, second
    exit test, BCL update, cold restart, penalty update.  [p] holds the primal
    residual scalars of the first test and [pending] the [new_bcl_mu_*]. *)
Definition finish_iteration (QPSettings_ : QPSettings) (qpmodel : QPData)
    (bcl_eta_ext_init eps_in_min : T) (qpresults : QPResults) (qpwork : QPWorkspace)
    (p : PrimalResidual) (eta : BclTolerances) (pending : PendingMu) : Iteration :=
  let '(r, w) := inner_step QPSettings_ qpmodel qpresults qpwork (primal_feasibility_lhs p)
                   (bcl_eta_in eta) in
  let '(w, p_new) := global_primal_residual qpmodel r w in
  let is_primal_feasible :=
    primal_feasibility_lhs p_new
    <=? eps_abs QPSettings_ + eps_rel QPSettings_ * primal_feasibility_rhs w p_new in
  let '(w, solved) :=
    if is_primal_feasible then
      let '(w, d_new) := global_dual_residual qpmodel r w in
      if dual_feasibility_lhs d_new
         <=? eps_abs QPSettings_ + eps_rel QPSettings_ * dual_feasibility_rhs w d_new
      then (w, Some d_new) else (w, None)
    else (w, None) in
  match solved with
  | Some d_new => ExitSolved (unscale_solution qpmodel r w) w p_new d_new
  | None =>
      let '(r, eta, pending) :=
        bcl_update QPSettings_ qpmodel r w (primal_feasibility_lhs p_new) eta
          bcl_eta_ext_init eps_in_min pending in
      let '(w, d_new) := global_dual_residual qpmodel r w in
      let pending :=
        cold_restart QPSettings_ r (primal_feasibility_lhs p)
          (primal_feasibility_lhs p_new) (dual_feasibility_lhs d_new) pending in
      let '(r, w) := effective_mu_update qpmodel r w pending in
      NextIteration r w eta
  end.

(** solver.hpp:709-789, then [finish_iteration].  The residual scalars
    declared before the loop are written before they are read in every pass,
    so only the results, the workspace and the two BCL tolerances are carried
    from pass to pass. *)
Definition outer_iteration (QPSettings_ : QPSettings) (qpmodel : QPData)
    (bcl_eta_ext_init eps_in_min : T) (iter : Z)
    (qpresults : QPResults) (qpwork : QPWorkspace) (eta : BclTolerances) : Iteration :=
  let r := set_n_ext (n_ext qpresults + 1)%Z qpresults in
  if (iter =? max_iter QPSettings_)%Z then ExitMaxIter r qpwork
  else
    let '(w, p) := global_primal_residual qpmodel r qpwork in
    let '(w, d) := global_dual_residual qpmodel r w in
    let pending := {| new_bcl_mu_in := mu_in r; new_bcl_mu_eq := mu_eq r;
                      new_bcl_mu_in_inv := mu_in_inv r; new_bcl_mu_eq_inv := mu_eq_inv r |} in
    let is_primal_feasible := primal_feasibility_lhs p <=? rhs_pri QPSettings_ w p in
    let is_dual_feasible := dual_feasibility_lhs d <=? rhs_dua QPSettings_ w d in
    let '(r, w) := if is_primal_feasible
                   then refactor_on_dual_threshold QPSettings_ qpmodel r w d
                   else (r, w) in
    if is_primal_feasible && is_dual_feasible then
      ExitSolved (unscale_solution qpmodel r w) w p d
    else
      finish_iteration QPSettings_ qpmodel bcl_eta_ext_init eps_in_min r w p eta pending.

(** How the outer loop was left: through a [Solved] exit, with the residuals
    it tested, or with its iteration budget used up. *)
Inductive LoopExit : Type :=
| BySolved (p : PrimalResidual) (d : DualResidual)
| ByBudget.

(** The [for (iter = 0; iter <= max_iter; ++iter)] loop; [fuel] counts the
    values [iter] may still take. *)
Fixpoint qp_solve_loop (fuel : nat) (QPSettings_ : QPSettings) (qpmodel : QPData)
    (bcl_eta_ext_init eps_in_min : T) (iter : Z)
    (qpresults : QPResults) (qpwork : QPWorkspace) (eta : BclTolerances)
    : LoopExit * QPResults * QPWorkspace :=
  match fuel with
  | O => (ByBudget, qpresults, qpwork)
  | S fuel' =>
      match outer_iteration QPSettings_ qpmodel bcl_eta_ext_init eps_in_min iter
              qpresults qpwork eta with
      | ExitMaxIter r w => (ByBudget, r, w)
      | ExitSolved r w p d => (BySolved p d, r, w)
      | NextIteration r w eta' =>
          qp_solve_loop fuel' QPSettings_ qpmodel bcl_eta_ext_init eps_in_min (iter + 1)%Z
            r w eta'
      end
  end.

Definition qp_solve (QPSettings_ : QPSettings) (qpmodel : QPData) (qpresults : QPResults)
    (qpwork : QPWorkspace) : LoopExit * QPResults * QPWorkspace :=
  let bcl_eta_ext_init := spow (slit (1 # 10)) (alpha_bcl QPSettings_) in
  let eta := {| bcl_eta_ext := bcl_eta_ext_init; bcl_eta_in := s1 |} in
  let eps_in_min := std_min (eps_abs QPSettings_) (slit (1 # 1000000000)) in
  let '(e, r, w) :=
    qp_solve_loop (Z.to_nat (max_iter QPSettings_ + 1)) QPSettings_ qpmodel
      bcl_eta_ext_init eps_in_min 0%Z qpresults qpwork eta in
  (e, set_objValue (objective qpmodel (x r)) r, w).

(** ** helpers.hpp *)

Definition set_initial_guess (v : InitialGuessStatus) (st : QPSettings) : QPSettings :=
  {| alpha_bcl := alpha_bcl st; beta_bcl := beta_bcl st;
     refactor_dual_feasibility_threshold := refactor_dual_feasibility_threshold st;
     refactor_rho_threshold := refactor_rho_threshold st;
     mu_max_eq := mu_max_eq st; mu_max_in := mu_max_in st;
     mu_max_eq_inv := mu_max_eq_inv st; mu_max_in_inv := mu_max_in_inv st;
     mu_update_factor := mu_update_factor st; mu_update_inv_factor := mu_update_inv_factor st;
     cold_reset_mu_eq := cold_reset_mu_eq st; cold_reset_mu_in := cold_reset_mu_in st;
     cold_reset_mu_eq_inv := cold_reset_mu_eq_inv st;
     cold_reset_mu_in_inv := cold_reset_mu_in_inv st;
     max_iter := max_iter st; max_iter_in := max_iter_in st;
     eps_abs := eps_abs st; eps_rel := eps_rel st; eps_IG := eps_IG st;
     eps_refact := eps_refact st; nb_iterative_refinement := nb_iterative_refinement st;
     verbose := verbose st; initial_guess_policy := v |}.

(** helpers.hpp:93-114 *)
Definition setup_equilibration (qpwork : QPWorkspace) (qpsettings : QPSettings)
    (ruiz_ : Ruiz) (execute_preconditioner : bool) : QPWorkspace * Ruiz :=
  let qp_scaled :=
    {| vH := mat qpwork H_scaled; vg := vec qpwork g_scaled; vA := mat qpwork A_scaled;
       vb := vec qpwork b_scaled; vC := mat qpwork C_scaled; vu := vec qpwork u_scaled;
       vl := vec qpwork l_scaled |} in
  let scaled := scale_qp_in_place ext ruiz_ qp_scaled execute_preconditioner qpsettings in
  let ruiz_ := fst scaled in
  let q := snd scaled in
  let w := set_mat H_scaled (vH q) qpwork in
  let w := set_vec g_scaled (vg q) w in
  let w := set_mat A_scaled (vA q) w in
  let w := set_vec b_scaled (vb q) w in
  let w := set_mat C_scaled (vC q) w in
  let w := set_vec u_scaled (vu q) w in
  let w := set_vec l_scaled (vl q) w in
  (set_scal correction_guess_rhs_g (infty_norm (vec w g_scaled)) w, ruiz_).

(** helpers.hpp:223-329.  The dimensions of the model are fixed when it is
    built; [setup] stores the seven inputs in it. *)
Definition setup (H_ : list (list T)) (g_ : list T) (A_ : list (list T)) (b_ : list T)
    (C_ : list (list T)) (u_ : list T) (l_ : list T)
    (qpsettings : QPSettings) (qpmodel : QPData) (qpwork : QPWorkspace)
    (qpresults : QPResults) (ruiz_ : Ruiz) (preconditioner_status : PreconditionerStatus)
    : QPData * QPWorkspace * QPResults * Ruiz :=
  let '(w, r) :=
    match initial_guess_policy qpsettings with
    | EQUALITY_CONSTRAINED_INITIAL_GUESS => (work_cleanup ext qpwork, results_cleanup ext qpresults)
    | COLD_START_WITH_PREVIOUS_RESULT => (work_cleanup ext qpwork, results_cold_start ext qpresults)
    | NO_INITIAL_GUESS => (work_cleanup ext qpwork, results_cleanup ext qpresults)
    | WARM_START => (work_cleanup ext qpwork, results_cleanup ext qpresults)
    | WARM_START_WITH_PREVIOUS_RESULT => (qpwork, results_cleanup_statistics ext qpresults)
    end in
  let m := {| dim := dim qpmodel; n_eq := n_eq qpmodel; n_in := n_in qpmodel;
              H := H_; A := A_; C := C_; g := g_; b := b_; u := u_; l := l_ |} in
  let w := set_mat H_scaled (H m) w in
  let w := set_vec g_scaled (g m) w in
  let w := set_mat A_scaled (A m) w in
  let w := set_vec b_scaled (b m) w in
  let w := set_mat C_scaled (C m) w in
  let w := set_vec u_scaled (u m) w in
  let w := set_vec l_scaled (l m) w in
  let w := set_scal primal_feasibility_rhs_1_eq (infty_norm (b m)) w in
  let w := set_scal primal_feasibility_rhs_1_in_u (infty_norm (u m)) w in
  let w := set_scal primal_feasibility_rhs_1_in_l (infty_norm (l m)) w in
  let w := set_scal dual_feasibility_rhs_2 (infty_norm (g m)) w in
  let '(w, ruiz_) :=
    match preconditioner_status with
    | EXECUTE => setup_equilibration w qpsettings ruiz_ true
    | IDENTITY => setup_equilibration w qpsettings ruiz_ false
    | KEEP => setup_equilibration w qpsettings ruiz_ false
    end in
  let rescale (r : QPResults) :=
    let r := set_x (scale_primal_in_place ext ruiz_ (x r)) r in
    let r := set_y (scale_dual_in_place_eq ext ruiz_ (y r)) r in
    set_z (scale_dual_in_place_in ext ruiz_ (z r)) r in
  let r :=
    match initial_guess_policy qpsettings with
    | EQUALITY_CONSTRAINED_INITIAL_GUESS => r
    | COLD_START_WITH_PREVIOUS_RESULT => rescale r
    | NO_INITIAL_GUESS => r
    | WARM_START => r
    | WARM_START_WITH_PREVIOUS_RESULT => rescale r
    end in
  (m, w, r, ruiz_).

(** helpers.hpp:341-359 *)
Definition update_proximal_parameters (results : QPResults)
    (rho_new mu_eq_new mu_in_new : option T) : QPResults :=
  let r := match rho_new with Some v => set_rho v results | None => results end in
  let r := match mu_eq_new with
           | Some v => set_mu v (mu_in r) (s1 / v) (mu_in_inv r) r
           | None => r
           end in
  match mu_in_new with
  | Some v => set_mu (mu_eq r) v (mu_eq_inv r) (s1 / v) r
  | None => r
  end.

(** helpers.hpp:369-408.  [n_eq] and [n_in] are read off the sizes of
    [results.y] and [results.z]. *)
Definition warm_start (x_wm y_wm z_wm : option (list T)) (results : QPResults)
    (settings : QPSettings) : QPResults * QPSettings :=
  let n_eq_ := length (y results) in
  let n_in_ := length (z results) in
  let r :=
    if negb (n_eq_ =? 0)%nat then
      if negb (n_in_ =? 0)%nat then
        match x_wm, y_wm, z_wm with
        | Some xv, Some yv, Some zv => set_z zv (set_y yv (set_x xv results))
        | _, _, _ => results
        end
      else
        match x_wm, y_wm with
        | Some xv, Some yv => set_y yv (set_x xv results)
        | _, _ => results
        end
    else if negb (n_in_ =? 0)%nat then
      match x_wm, z_wm with
      | Some xv, Some zv => set_z zv (set_x xv results)
      | _, _ => results
      end
    else
      match x_wm with
      | Some xv => set_x xv results
      | None => results
      end in
  (r, set_initial_guess WARM_START settings).

(** helpers.hpp:155-205.  Each input is optional ([tl::optional]); the
    dimensions stored in the model are not among the members written. *)
Definition set_H (v : list (list T)) (m : QPData) : QPData :=
  {| dim := dim m; n_eq := n_eq m; n_in := n_in m; H := v; A := A m; C := C m;
     g := g m; b := b m; u := u m; l := l m |}.
Definition set_A (v : list (list T)) (m : QPData) : QPData :=
  {| dim := dim m; n_eq := n_eq m; n_in := n_in m; H := H m; A := v; C := C m;
     g := g m; b := b m; u := u m; l := l m |}.
Definition set_C (v : list (list T)) (m : QPData) : QPData :=
  {| dim := dim m; n_eq := n_eq m; n_in := n_in m; H := H m; A := A m; C := v;
     g := g m; b := b m; u := u m; l := l m |}.
Definition set_g (v : list T) (m : QPData) : QPData :=
  {| dim := dim m; n_eq := n_eq m; n_in := n_in m; H := H m; A := A m; C := C m;
     g := v; b := b m; u := u m; l := l m |}.
Definition set_b (v : list T) (m : QPData) : QPData :=
  {| dim := dim m; n_eq := n_eq m; n_in := n_in m; H := H m; A := A m; C := C m;
     g := g m; b := v; u := u m; l := l m |}.
Definition set_u (v : list T) (m : QPData) : QPData :=
  {| dim := dim m; n_eq := n_eq m; n_in := n_in m; H := H m; A := A m; C := C m;
     g := g m; b := b m; u := v; l := l m |}.
Definition set_l (v : list T) (m : QPData) : QPData :=
  {| dim := dim m; n_eq := n_eq m; n_in := n_in m; H := H m; A := A m; C := C m;
     g := g m; b := b m; u := u m; l := v |}.

Definition update (H_ : option (list (list T))) (g_ : option (list T))
    (A_ : option (list (list T))) (b_ : option (list T))
    (C_ : option (list (list T))) (u_ l_ : option (list T)) (model : QPData) : QPData :=
  let model := match g_ with Some v => set_g v model | None => model end in
  let model := match b_ with Some v => set_b v model | None => model end in
  let model := match u_ with Some v => set_u v model | None => model end in
  let model := match l_ with Some v => set_l v model | None => model end in
  match H_ with
  | Some Hv =>
      match A_ with
      | Some Av =>
          match C_ with
          | Some Cv => set_C Cv (set_A Av (set_H Hv model))
          | None => set_A Av (set_H Hv model)
          end
      | None =>
          match C_ with
          | Some Cv => set_C Cv (set_H Hv model)
          | None => set_H Hv model
          end
      end
  | None =>
      match A_ with
      | Some Av =>
          match C_ with
          | Some Cv => set_C Cv (set_A Av model)
          | None => set_A Av model
          end
      | None =>
          match C_ with
          | Some Cv => set_C Cv model
          | None => model
          end
      end
  end.

(** helpers.hpp:31-53 *)
Definition compute_equality_constrained_initial_guess (qpwork : QPWorkspace)
    (qpsettings : QPSettings) (qpmodel : QPData) (qpresults : QPResults)
    : QPWorkspace * QPResults :=
  let n := dim qpmodel in
  let ne := n_eq qpmodel in
  let w := set_vec rhs (setZero (vec qpwork rhs)) qpwork in
  let w := set_vec rhs (set_head n (vneg (vec w g_scaled)) (vec w rhs)) w in
  let w := set_vec rhs (set_segment n ne (vec w b_scaled) (vec w rhs)) w in
  let w := iterative_solve_with_permut_fact qpsettings qpmodel qpresults w s1 (n + ne) in
  let r := set_x (vhead n (vec w dw_aug)) qpresults in
  let r := set_y (vsegment n ne (vec w dw_aug)) r in
  let w := set_vec dw_aug (setZero (vec w dw_aug)) w in
  let w := set_vec rhs (setZero (vec w rhs)) w in
  (w, r).

(** helpers.hpp:124-138: the [initial_guess] of the dense helpers (the solver
    has an [initial_guess] of its own, above); the [switch] has one case. *)
Definition dense_initial_guess (qpwork : QPWorkspace) (qpsettings : QPSettings)
    (qpmodel : QPData) (qpresults : QPResults) : QPWorkspace * QPResults :=
  match initial_guess_policy qpsettings with
  | EQUALITY_CONSTRAINED_INITIAL_GUESS =>
      compute_equality_constrained_initial_guess qpwork qpsettings qpmodel qpresults
  | _ => (qpwork, qpresults)
  end.

(** helpers.hpp:62-84: the regularized KKT matrix of the equality-constrained
    problem, built block by block in [qpwork.kkt], and its first factorization.
    [bottomRightCorner] is taken from the size [kkt] has. *)
Definition setup_factorization (qpwork : QPWorkspace) (qpmodel : QPData)
    (qpresults : QPResults) : QPWorkspace :=
  let n := dim qpmodel in
  let ne := n_eq qpmodel in
  let K := mat qpwork kkt in
  let K := set_block 0 0 n n (mat qpwork H_scaled) K in
  let K := diag_update 0 n (fun d => d + rho qpresults) K in
  let K := set_block 0 n n ne (transpose n (mat qpwork A_scaled)) K in
  let K := set_block n 0 ne n (mat qpwork A_scaled) K in
  let K := set_block (dense_rows K - ne) (dense_cols K - ne) ne ne (mzero ne ne) K in
  let K := diag_update n ne (fun _ => - mu_eq qpresults) K in
  let w := set_mat kkt K qpwork in
  set_ldl (ldl_factorize ext (ldl w) (mat w kkt)) w.

End Model.

Arguments Collaborators T Ldl Ruiz : clear implicits.
Arguments QPWorkspace T Ldl Ruiz : clear implicits.
Arguments QPData T : clear implicits.
Arguments QPSettings T : clear implicits.
Arguments QPResults T : clear implicits.
Arguments BclTolerances T : clear implicits.
Arguments PendingMu T : clear implicits.
Arguments PrimalResidual T : clear implicits.
Arguments DualResidual T : clear implicits.
Arguments RefineState T Ldl Ruiz : clear implicits.
Arguments Iteration T Ldl Ruiz : clear implicits.
Arguments LoopExit T : clear implicits.
Arguments QpViewBox T : clear implicits.

(** ** Two scalar types *)

(** Exact rationals, kept in lowest terms.  A rational power has no exact
    value here in general: [Qpow] is exact on integral exponents, the only
    ones the runs below use, and rounds the exponent down otherwise.
    [sepsilon] is the epsilon of IEEE doubles. *)
Definition Qltb (a b : Q) : bool := negb (Qle_bool b a).
Definition Qpow (a e : Q) : Q := Qred (Qpower a (Qfloor e)).

#[export] Instance Scalar_Q : Scalar Q := {|
  s0 := 0%Q; s1 := 1%Q;
  sadd := fun a b => Qred (a + b);
  ssub := fun a b => Qred (a - b);
  smul := fun a b => Qred (a * b);
  sdiv := fun a b => Qred (a / b);
  sopp := fun a => Qred (- a);
  sabs := fun a => Qred (Qabs a);
  sleb := Qle_bool;
  sltb := Qltb;
  seqb := Qeq_bool;
  spow := Qpow;
  slit := Qred;
  sepsilon := (1 # 4503599627370496)%Q
|}.

(** The reals: the arithmetic the solver approximates.  [Rpow] is the real
    power on a positive base; the statements below keep the base positive. *)
Definition Rleb (a b : R) : bool := if Rle_dec a b then true else false.
Definition Rltb (a b : R) : bool := if Rlt_dec a b then true else false.
Definition Reqb (a b : R) : bool := if Req_dec_T a b then true else false.
Definition Rpow (a e : R) : R := if Rlt_dec 0 a then Rpower a e else 0%R.

#[export] Instance Scalar_R : Scalar R := {|
  s0 := 0%R; s1 := 1%R;
  sadd := Rplus; ssub := Rminus; smul := Rmult; sdiv := Rdiv;
  sopp := Ropp; sabs := Rabs;
  sleb := Rleb; sltb := Rltb; seqb := Reqb;
  spow := Rpow;
  slit := Q2R;
  sepsilon := (/ 4503599627370496)%R
|}.

(** ** A reference instance of the collaborators, for running the solver *)

Section Reference.
Context {T : Type} {ST : Scalar T}.
Local Open Scope scalar_scope.

(** Modelled from the spec: the dense LDLT engine (spec 4.1; [ldlt/] is not
    among the files at hand).  The engine is represented by the matrix it
    factors: [factorize] stores it, [insert_at] and [rank_one_update] edit it,
    [solve_in_place] solves with it exactly by Gauss-Jordan elimination. *)
Definition ref_factorize (_ : list (list T)) (M : list (list T)) : list (list T) := M.

Definition ref_rank_one_update (M : list (list T)) (v : list T) (sigma : T)
    : list (list T) :=
  map (fun p : list T * T => vadd (fst p) (vscale (sigma * snd p) v)) (combine M v).

Definition insert_nth (k : nat) (a : T) (v : list T) : list T :=
  firstn k v ++ a :: skipn k v.

Definition ref_insert_at (M : list (list T)) (k : nat) (col : list T) : list (list T) :=
  let d := length M in
  let old := firstn k col ++ skipn (S k) col in
  let rows := map (fun p : list T * T => insert_nth k (snd p) (fst p)) (combine M old) in
  firstn k rows ++ firstn (S d) col :: skipn k rows.

(** Elimination on the augmented rows [M | v]: for each column, bring a row
    with a nonzero entry to the diagonal, normalise it, clear the column. *)
Fixpoint find_pivot (k : nat) (rows : list (list T)) (i : nat) : option nat :=
  match rows with
  | [] => None
  | r :: rows' => if coeff r k ==? s0 then find_pivot k rows' (S i) else Some i
  end.

Definition swap_rows (i j : nat) (rows : list (list T)) : list (list T) :=
  map (fun k => if (k =? i)%nat then nth j rows []
                else if (k =? j)%nat then nth i rows [] else nth k rows [])
      (seq 0 (length rows)).

Definition eliminate_column (rows : list (list T)) (k : nat) : list (list T) :=
  match find_pivot k (skipn k rows) k with
  | None => rows
  | Some i =>
      let rows := swap_rows k i rows in
      let pr := nth k rows [] in
      let pr := vscale (s1 / coeff pr k) pr in
      map (fun p : nat * list T =>
             if (fst p =? k)%nat then pr
             else vsub (snd p) (vscale (coeff (snd p) k) pr))
          (combine (seq 0 (length rows)) rows)
  end.

Definition ref_solve_in_place (M : list (list T)) (v : list T) : list T :=
  let n := length v in
  let aug := map (fun p : list T * T => firstn n (fst p) ++ [snd p]) (combine M v) in
  map (fun r => coeff r n) (fold_left eliminate_column (seq 0 n) aug).

(** identity.hpp: every operation of the identity preconditioner leaves its
    argument as it is. *)
Definition IdentityPrecond : Type := unit.
Definition identity_in_place (_ : IdentityPrecond) (v : list T) : list T := v.

(** Stand-ins for the active-set manager and the line searches on problems
    without inequality rows: the active set stays empty and the full step
    [alpha = 1] is taken. *)
Definition no_active_set_change (m : QPData T) (r : QPResults T)
    (w : QPWorkspace T (list (list T)) IdentityPrecond)
    : nat * QPWorkspace T (list (list T)) IdentityPrecond := (n_c r, w).
Definition full_step (w : QPWorkspace T (list (list T)) IdentityPrecond)
    : QPWorkspace T (list (list T)) IdentityPrecond := set_scal alpha s1 w.

(** Modelled from the spec: the reset methods of the results ("clear
    statistics only" keeps the iterates and the proximal parameters; a cold
    start keeps x, y, z and resets the statistics; a clean-up also zeroes the
    iterates) and of the workspace ([qp/results.hpp], [qp/workspace.hpp] are
    not among the files at hand). *)
Definition ref_cleanup_statistics (r : QPResults T) : QPResults T :=
  set_objValue s0 (set_n_mu_change 0%Z (set_n_tot 0%Z (set_n_ext 0%Z r))).
Definition ref_cold_start (r : QPResults T) : QPResults T := ref_cleanup_statistics r.
Definition ref_cleanup (r : QPResults T) : QPResults T :=
  ref_cold_start (set_z (setZero (z r)) (set_y (setZero (y r)) (set_x (setZero (x r)) r))).
Definition ref_work_cleanup (w : QPWorkspace T (list (list T)) IdentityPrecond)
    : QPWorkspace T (list (list T)) IdentityPrecond :=
  {| vec := fun f => setZero (vec w f);
     mat := fun f => map (@setZero T ST) (mat w f);
     bvec := fun f => map (fun _ => false) (bvec w f);
     scal := fun _ => s0;
     ldl := ldl w; ruiz := ruiz w;
     current_bijection_map := seq 0 (length (current_bijection_map w)) |}.

Definition reference : Collaborators T (list (list T)) IdentityPrecond := {|
  ldl_factorize := ref_factorize;
  ldl_solve_in_place := ref_solve_in_place;
  ldl_insert_at := ref_insert_at;
  ldl_rank_one_update := ref_rank_one_update;
  scale_primal_in_place := identity_in_place;
  scale_dual_in_place_eq := identity_in_place;
  scale_dual_in_place_in := identity_in_place;
  unscale_primal_in_place := identity_in_place;
  unscale_dual_in_place_eq := identity_in_place;
  unscale_dual_in_place_in := identity_in_place;
  scale_primal_residual_in_place_eq := identity_in_place;
  scale_primal_residual_in_place_in := identity_in_place;
  scale_dual_residual_in_place := identity_in_place;
  unscale_primal_residual_in_place_eq := identity_in_place;
  unscale_primal_residual_in_place_in := identity_in_place;
  unscale_dual_residual_in_place := identity_in_place;
  scale_qp_in_place := fun rz q _ _ => (rz, q);
  active_set_change := no_active_set_change;
  initial_guess_ls := fun _ _ _ w => full_step w;
  correction_guess_ls := fun _ _ w => full_step w;
  results_cleanup := ref_cleanup;
  results_cold_start := ref_cold_start;
  results_cleanup_statistics := ref_cleanup_statistics;
  work_cleanup := ref_work_cleanup
|}.

End Reference.

(** ** Auxiliary notions for the statements *)

Section Auxiliary.
Context {T : Type} {ST : Scalar T} {Ldl Ruiz : Type}.
Local Open Scope scalar_scope.

(** What the inner steps leave alone in the results: the proximal
    parameters, the outer counters and the status; [n_tot] only grows. *)
Definition info_kept (r r' : QPResults T) : Prop :=
  rho r' = rho r /\ mu_eq r' = mu_eq r /\ mu_in r' = mu_in r /\
  mu_eq_inv r' = mu_eq_inv r /\ mu_in_inv r' = mu_in_inv r /\
  n_ext r' = n_ext r /\ n_mu_change r' = n_mu_change r /\
  status r' = status r /\ (n_tot r <= n_tot r')%Z.

(** What a pass of the outer loop leaves alone: [rho] (apart from the
    refactorization rule), [n_ext] (apart from its increment) and the status;
    [n_tot] and [n_mu_change] only grow. *)
Definition pass_kept (r r' : QPResults T) : Prop :=
  rho r' = rho r /\ n_ext r' = n_ext r /\ status r' = status r /\
  (n_tot r <= n_tot r')%Z /\ (n_mu_change r <= n_mu_change r')%Z.

(** The results an iteration of the outer loop hands on. *)
Definition iteration_results (i : Iteration T Ldl Ruiz) : QPResults T :=
  match i with
  | ExitMaxIter r _ => r
  | ExitSolved r _ _ _ => r
  | NextIteration r _ _ => r
  end.

End Auxiliary.

(** ** The claims as the specification words them, for comparison *)

Section Claimed.
Context {T : Type} {ST : Scalar T} {Ldl Ruiz : Type}.
Local Open Scope scalar_scope.

(** The exit test of the correction loop in the words of the specification:
    the step is below 1.E-11, or the inner dual residual is at most
    [eps_int * (1 + |H x| + |A^T y| + |C^T z|)]. *)
Definition correction_exit_claimed (m : QPData T) (r : QPResults T)
    (w : QPWorkspace T Ldl Ruiz) (eps_int : T) : bool :=
  (infty_norm (vscale (scal w alpha) (vhead (dim m) (vec w dw_aug)))
   <? slit (1 # 100000000000))
  || (let r1 := fst (fst (fst (correction_guess_step m r w))) in
      let w1 := snd (fst (fst (correction_guess_step m r w))) in
      infty_norm (vec w1 dual_residual_scaled)
      <=? eps_int * (s1 + infty_norm (mat_vec (mat w1 H_scaled) (x r1))
                        + infty_norm (matT_vec (dim m) (mat w1 A_scaled) (y r1))
                        + infty_norm (matT_vec (dim m) (mat w1 C_scaled) (z r1)))).

(** "Two consecutive refinement iterations fail to decrease the norm, equal
    norms included", on the norms before and after the two iterations. *)
Definition stalled_twice_claimed (n0 n1 n2 : T) : bool := (n1 >=? n0) && (n2 >=? n1).

(** The refactorization trigger in the words of the specification. *)
Definition refactor_trigger_claimed (s : QPSettings T) (r : QPResults T)
    (is_primal_feasible is_dual_feasible : bool) : bool :=
  is_primal_feasible && negb is_dual_feasible && (rho r !=? refactor_rho_threshold s).

(** The cold-restart test in the words of the specification: both new
    residuals, divided by the previous primal residual, are at least 1. *)
Definition cold_restart_claimed (r : QPResults T)
    (primal_lhs primal_lhs_new dual_lhs_new : T) : bool :=
  (primal_lhs_new / primal_lhs >=? s1) && (dual_lhs_new / primal_lhs >=? s1)
  && (mu_in r >=? slit 100000).

End Claimed.

(** ** Concrete problems *)

Section Concrete.
Context {T : Type} {ST : Scalar T}.
Local Open Scope scalar_scope.

Definition example_settings (beta : T) (budget : Z) (policy : InitialGuessStatus)
    : QPSettings T :=
  {| alpha_bcl := s1; beta_bcl := beta;
     refactor_dual_feasibility_threshold := slit (1 # 100);
     refactor_rho_threshold := slit (1 # 10000000);
     mu_max_eq := slit 1000000000; mu_max_in := slit 100000000;
     mu_max_eq_inv := slit (1 # 1000000000); mu_max_in_inv := slit (1 # 100000000);
     mu_update_factor := slit 10; mu_update_inv_factor := slit (1 # 10);
     cold_reset_mu_eq := slit (11 # 10); cold_reset_mu_in := slit (11 # 10);
     cold_reset_mu_eq_inv := slit (10 # 11); cold_reset_mu_in_inv := slit (10 # 11);
     max_iter := budget; max_iter_in := 1500%Z;
     eps_abs := slit (1 # 1000000000); eps_rel := s0;
     eps_IG := slit (1 # 100); eps_refact := slit (1 # 1000000);
     nb_iterative_refinement := 5%Z;
     verbose := false; initial_guess_policy := policy |}.

Definition example_results (xv yv zv : list T) (rho_ mu_eq_ mu_in_ mu_eq_inv_ mu_in_inv_ : T)
    (st : QPSolverOutput) : QPResults T :=
  {| x := xv; y := yv; z := zv;
     rho := rho_; mu_eq := mu_eq_; mu_in := mu_in_;
     mu_eq_inv := mu_eq_inv_; mu_in_inv := mu_in_inv_;
     n_ext := 0%Z; n_tot := 0%Z; n_mu_change := 0%Z; n_c := 0%nat;
     objValue := s0; status := st |}.

(** A workspace for the identity preconditioner: the scaled problem is the
    problem, the buffers are zero, no inequality is active; [K] is the matrix
    the engine holds. *)
Definition example_work (m : QPData T) (K : list (list T))
    : QPWorkspace T (list (list T)) IdentityPrecond :=
  let n := dim m in
  let ne := n_eq m in
  let ni := n_in m in
  {| vec := fun f =>
       match f with
       | dw_aug | rhs | err => vzero (n + ne + ni)
       | x_prev | Hdx | CTz | dual_residual_scaled => vzero n
       | y_prev | Adx | primal_residual_eq_scaled => vzero ne
       | g_scaled => g m | b_scaled => b m | u_scaled => u m | l_scaled => l m
       | _ => vzero ni
       end;
     mat := fun f =>
       match f with H_scaled => H m | A_scaled => A m | C_scaled => C m | kkt => K end;
     bvec := fun _ => repeat false ni;
     scal := fun f =>
       match f with
       | alpha => s1
       | primal_feasibility_rhs_1_eq => infty_norm (b m)
       | primal_feasibility_rhs_1_in_u => infty_norm (u m)
       | primal_feasibility_rhs_1_in_l => infty_norm (l m)
       | dual_feasibility_rhs_2 => infty_norm (g m)
       | correction_guess_rhs_g => infty_norm (g m)
       end;
     ldl := K; ruiz := tt; current_bijection_map := seq 0 ni |}.

End Concrete.

Open Scope Q_scope.

(** Equality-constrained problem: minimise (x1^2 + x2^2)/2 with x1 + x2 = 1
    (scenario 2 of the specification), [rho = 1e-6], [mu_eq = 1e3]. *)
Definition eq_problem : QPData Q :=
  {| dim := 2; n_eq := 1; n_in := 0;
     H := [[1; 0]; [0; 1]]; A := [[1; 1]]; C := [];
     g := [0; 0]; b := [1]; u := []; l := [] |}.
Definition eq_kkt : list (list Q) :=
  [[1 + (1 # 1000000); 0; 1]; [0; 1 + (1 # 1000000); 1]; [1; 1; - (1 # 1000)]].
Definition eq_results : QPResults Q :=
  example_results [0; 0] [0] [] (1 # 1000000) 1000 10 (1 # 1000) (1 # 10) MaxIterReached.
Definition eq_work : QPWorkspace Q (list (list Q)) IdentityPrecond :=
  example_work eq_problem eq_kkt.
Definition eq_settings : QPSettings Q := example_settings 1 10%Z NO_INITIAL_GUESS.

(** Unconstrained problem: minimise x1^2 + x2^2 - 2 x1 - 4 x2 (scenario 1 of
    the specification). *)
Definition free_problem : QPData Q :=
  {| dim := 2; n_eq := 0; n_in := 0;
     H := [[2; 0]; [0; 2]]; A := []; C := [];
     g := [- 2; - 4]; b := []; u := []; l := [] |}.
Definition free_results : QPResults Q :=
  example_results [0; 0] [] [] (1 # 1000000) 1000 10 (1 # 1000) (1 # 10) MaxIterReached.
Definition free_work : QPWorkspace Q (list (list Q)) IdentityPrecond :=
  example_work free_problem [[2 + (1 # 1000000); 0]; [0; 2 + (1 # 1000000)]].

(** The largest distance between the coefficients of two vectors. *)
Definition distance (a b : list Q) : Q := infty_norm (vsub a b).

(** One unknown, no constraint: minimise x^2/2 - x/1000, started at x = 0,
    where the dual residual is 1/1000. *)
Definition small_problem : QPData Q :=
  {| dim := 1; n_eq := 0; n_in := 0;
     H := [[1]]; A := []; C := []; g := [- (1 # 1000)]; b := []; u := []; l := [] |}.
Definition small_results (st : QPSolverOutput) : QPResults Q :=
  example_results [0] [] [] (1 # 1000000) 1000 10 (1 # 1000) (1 # 10) st.
Definition small_work : QPWorkspace Q (list (list Q)) IdentityPrecond :=
  example_work small_problem [[1 + (1 # 1000000)]].

(** A stale factorization: the engine holds [H + 0] while the results carry
    [rho = 1], so that each correction flips the sign of the residual. *)
Definition stale_problem : QPData Q :=
  {| dim := 1; n_eq := 0; n_in := 0;
     H := [[1]]; A := []; C := []; g := [0]; b := []; u := []; l := [] |}.
Definition stale_results : QPResults Q :=
  example_results [0] [] [] 1 1000 10 (1 # 1000) (1 # 10) MaxIterReached.
Definition stale_work : QPWorkspace Q (list (list Q)) IdentityPrecond :=
  set_vec rhs [1] (example_work stale_problem [[1]]).
Definition stale_state (k : nat) : RefineState Q (list (list Q)) IdentityPrecond :=
  let s := eq_settings in
  let w := first_solve reference stale_problem stale_results stale_work 1 in
  let st0 := {| it := 1%Z; it_stability := 0%Z; preverr := err_norm 1 w; rwork := w |} in
  nat_rect _ st0
    (fun _ st => snd (refinement_iteration reference s stale_problem stale_results
                        (1 # 1000000000) 1 st)) k.

(** A correction step on one unknown with the row x = 0 and the rows
    -1 <= x <= 0, all three matrices [1], from x = y = z = 0 along the
    direction dx = 1 with [alpha = 1]: after the step x = y = z = 1. *)
Definition corr_problem : QPData Q :=
  {| dim := 1; n_eq := 1; n_in := 1;
     H := [[1]]; A := [[1]]; C := [[1]]; g := [0]; b := [0]; u := [0]; l := [- 1] |}.
Definition corr_results : QPResults Q :=
  example_results [0] [0] [0] (1 # 1000000) 1 1 1 1 MaxIterReached.
Definition corr_work : QPWorkspace Q (list (list Q)) IdentityPrecond :=
  let w := example_work corr_problem [[1]] in
  let w := set_vec dw_aug [1; 0; 0] w in
  let w := set_vec Hdx [1] (set_vec Adx [1] (set_vec Cdx [1] w)) in
  let w := set_vec primal_residual_eq_scaled [0] w in
  let w := set_vec primal_residual_in_scaled_up [0] w in
  set_vec primal_residual_in_scaled_low [1] w.

(** Penalties at 1e5 with a pending increase to 1e6. *)
Definition cold_results : QPResults Q :=
  example_results [] [] [] (1 # 1000000) 100000 100000 (1 # 100000) (1 # 100000)
    MaxIterReached.
Definition cold_pending : PendingMu Q :=
  {| new_bcl_mu_in := 1000000; new_bcl_mu_eq := 1000000;
     new_bcl_mu_in_inv := 1 # 1000000; new_bcl_mu_eq_inv := 1 # 1000000 |}.

(** The tolerances [qp_solve] starts from when [alpha_bcl = 1]. *)
Definition start_tolerances : BclTolerances Q := {| bcl_eta_ext := 1 # 10; bcl_eta_in := 1 |}.
Definition unit_pending : PendingMu Q :=
  {| new_bcl_mu_in := 1; new_bcl_mu_eq := 1; new_bcl_mu_in_inv := 1; new_bcl_mu_eq_inv := 1 |}.
Definition rolled_work : QPWorkspace Q (list (list Q)) IdentityPrecond :=
  set_vec y_prev [5] (set_vec z_prev [7] corr_work).

(** The solution of the equality-constrained problem, kept for a warm start. *)
Definition warm_settings : QPSettings Q :=
  example_settings 1 10%Z WARM_START_WITH_PREVIOUS_RESULT.
Definition warm_results : QPResults Q :=
  example_results [1 # 2; 1 # 2] [- (1 # 2)] [] (1 # 1000000) 1000 10 (1 # 1000) (1 # 10)
    Solved.

Close Scope Q_scope.

(** On the reals: a results record with [mu_in = 2] and its reciprocal. *)
Definition real_results : QPResults R :=
  example_results [] [] [] 0%R 2%R 2%R (/ 2)%R (/ 2)%R MaxIterReached.
Definition real_problem : QPData R :=
  {| dim := 0; n_eq := 0; n_in := 0; H := []; A := []; C := [];
     g := []; b := []; u := []; l := [] |}.
Definition real_work : QPWorkspace R (list (list R)) IdentityPrecond :=
  example_work real_problem [].
Definition real_settings (beta : R) : QPSettings R :=
  example_settings beta 10%Z NO_INITIAL_GUESS.
Definition real_tolerances : BclTolerances R := {| bcl_eta_ext := 1%R; bcl_eta_in := 1%R |}.
Definition real_pending : PendingMu R :=
  {| new_bcl_mu_in := 2%R; new_bcl_mu_eq := 2%R;
     new_bcl_mu_in_inv := (/ 2)%R; new_bcl_mu_eq_inv := (/ 2)%R |}.

(** ** test/include/util.hpp *)

(** The Lehmer generator (util.hpp:34-52).  The state is a [uint128_t], the
    seed and the output are [uint64_t]: integers with their wrap-around. *)
Definition lehmer_multiplier : Z := 0xda942042e4dd58b5%Z.
Definition lehmer_initial_state : Z :=
  ((lehmer_multiplier * lehmer_multiplier) mod 2 ^ 128)%Z.

(** [lehmer64]: the new state, and its upper 64 bits. *)
Definition lehmer64 (state : Z) : Z * Z :=
  let state := ((state * lehmer_multiplier) mod 2 ^ 128)%Z in
  (state, (Z.shiftr state 64 mod 2 ^ 64)%Z).

(** [set_seed]: [seed + 1] is computed on 64 bits, then two draws are dropped. *)
Definition set_seed (seed : Z) : Z :=
  let state := ((seed + 1) mod 2 ^ 64)%Z in
  let state := fst (lehmer64 state) in
  fst (lehmer64 state).

(** [uniform_rand]: the draw divided by [1U << 11U] is below 2^53, so that its
    conversion to [double] and the division by 2^53 are exact; the result is
    the rational [a / 2^53]. *)
Definition uniform_rand (state : Z) : Z * Q :=
  let draw := lehmer64 state in
  let a := (snd draw / 2 ^ 11)%Z in
  (fst draw, Qmake a (2 ^ 53)%positive).

(** The generator after [k] draws. *)
Definition lehmer_iterate (k : nat) (state : Z) : Z :=
  nat_rect (fun _ => Z) state (fun _ st => fst (lehmer64 st)) k.

Section Sparse.
Context {T : Type} {ST : Scalar T}.
Local Open Scope scalar_scope.

(** A sparse matrix is the list of the entries [insert]ed into it, in the
    order of insertion. *)

(** util.hpp:225-238: column by column, the entries that are not zero. *)
Definition to_sparse (M : list (list T)) : list (nat * nat * T) :=
  flat_map (fun j =>
    flat_map (fun i =>
      if dense_coeff M i j !=? s0 then [(i, j, dense_coeff M i j)] else [])
      (seq 0 (dense_rows M)))
    (seq 0 (dense_cols M)).

(** util.hpp:240-252: the same over the rows [i < j + 1] of each column. *)
Definition to_sparse_sym (M : list (list T)) : list (nat * nat * T) :=
  flat_map (fun j =>
    flat_map (fun i =>
      if dense_coeff M i j !=? s0 then [(i, j, dense_coeff M i j)] else [])
      (seq 0 (j + 1)))
    (seq 0 (dense_cols M)).

End Sparse.

(** ** Further notions for the statements *)

Section Further.
Context {T : Type} {ST : Scalar T} {Ldl Ruiz : Type}.
Local Open Scope scalar_scope.

(** The value of an optional input, or a fallback. *)
Definition value_or (A : Type) (o : option A) (d : A) : A :=
  match o with Some v => v | None => d end.
Definition supplied (A : Type) (o : option A) : bool :=
  match o with Some _ => true | None => false end.

(** A warm start is complete when x is supplied together with the dual
    vectors of the constraint kinds the problem has. *)
Definition warm_start_complete (x_wm y_wm z_wm : option (list T)) (r : QPResults T)
    : bool :=
  supplied x_wm
  && ((length (y r) =? 0)%nat || supplied y_wm)
  && ((length (z r) =? 0)%nat || supplied z_wm).

(** A matrix of [p] rows and [q] columns. *)
Definition is_matrix (p q : nat) (M : list (list T)) : Prop :=
  length M = p /\ forall k, (k < p)%nat -> length (row M k) = q.

(** The [k]-th unit vector of size [n]. *)
Definition basis (n k : nat) : list T := set_coeff k s1 (vzero n).

(** What a linear solve with refinement may write: [dw_aug] and [err]. *)
Definition solve_frame (w w' : QPWorkspace T Ldl Ruiz) : Prop :=
  mat w' = mat w /\ bvec w' = bvec w /\ scal w' = scal w /\ ldl w' = ldl w /\
  ruiz w' = ruiz w /\ current_bijection_map w' = current_bijection_map w /\
  forall f, f <> dw_aug -> f <> err -> vec w' f = vec w f.

(** The work counters between two results: [n_tot] grows by at most [a] and
    [n_mu_change] by at most [b]. *)
Definition grows_by (a b : Z) (r r' : QPResults T) : Prop :=
  (n_tot r <= n_tot r' <= n_tot r + a)%Z /\
  (n_mu_change r <= n_mu_change r' <= n_mu_change r + b)%Z.

(** The most one inner step adds to [n_tot]: the initial guess and
    [max_iter_in] correction steps. *)
Definition inner_work (s : QPSettings T) : Z := (1 + Z.max 0 (max_iter_in s))%Z.

End Further.

(** The penalties of a results record, in the shape of the pending ones. *)
Definition penalties_of (T : Type) (r : QPResults T) : PendingMu T :=
  {| new_bcl_mu_in := mu_in r; new_bcl_mu_eq := mu_eq r;
     new_bcl_mu_in_inv := mu_in_inv r; new_bcl_mu_eq_inv := mu_eq_inv r |}.

(** The reset constants of the cold restart, in the same shape. *)
Definition cold_reset_of (T : Type) (s : QPSettings T) : PendingMu T :=
  {| new_bcl_mu_in := cold_reset_mu_in s; new_bcl_mu_eq := cold_reset_mu_eq s;
     new_bcl_mu_in_inv := cold_reset_mu_in_inv s;
     new_bcl_mu_eq_inv := cold_reset_mu_eq_inv s |}.

(** On the reals: penalties that are positive with exact reciprocals, and
    settings whose update factors, bounds and reset constants are so too. *)
Definition pending_reciprocal (p : PendingMu R) : Prop :=
  (0 < new_bcl_mu_eq p)%R /\ (0 < new_bcl_mu_in p)%R /\
  new_bcl_mu_eq_inv p = (/ new_bcl_mu_eq p)%R /\
  new_bcl_mu_in_inv p = (/ new_bcl_mu_in p)%R.

Definition penalties_reciprocal (r : QPResults R) : Prop :=
  pending_reciprocal (penalties_of r).

Definition settings_reciprocal (s : QPSettings R) : Prop :=
  (0 < mu_update_factor s)%R /\ mu_update_inv_factor s = (/ mu_update_factor s)%R /\
  (0 < mu_max_eq s)%R /\ mu_max_eq_inv s = (/ mu_max_eq s)%R /\
  (0 < mu_max_in s)%R /\ mu_max_in_inv s = (/ mu_max_in s)%R /\
  pending_reciprocal (cold_reset_of s).

(** ** Further concrete inputs *)

Open Scope Q_scope.

(** The workspace of the equality-constrained problem with the right-hand
    side (0, 0, 1) of its KKT system. *)
Definition eq_rhs_work : QPWorkspace Q (list (list Q)) IdentityPrecond :=
  set_vec rhs [0; 0; 1] eq_work.

(** A dense 2 x 2 matrix with a zero below the diagonal. *)
Definition upper_example : list (list Q) := [[1; 2]; [0; 3]].

Close Scope Q_scope.

(** On the reals: one unknown with the row x = 1 and the bounds 0 <= x <= 2,
    at the feasible point x = 1. *)
Definition real_box_problem : QPData R :=
  {| dim := 1; n_eq := 1; n_in := 1;
     H := [[1%R]]; A := [[1%R]]; C := [[1%R]];
     g := [0%R]; b := [1%R]; u := [2%R]; l := [0%R] |}.
Definition real_box_results : QPResults R :=
  example_results [1%R] [0%R] [0%R] 0%R 2%R 2%R (/ 2)%R (/ 2)%R MaxIterReached.
Definition real_box_work : QPWorkspace R (list (list R)) IdentityPrecond :=
  example_work real_box_problem [].

(** ** What the solver reads and does not write *)

Section ProblemKept.
Context {T : Type} {ST : Scalar T} {Ldl Ruiz : Type}.
Local Open Scope scalar_scope.

(** The scaled problem, the preconditioner and the recorded norms: the
    members [setup] fills and [qp_solve] only reads.  [alpha] is the one
    scalar member written during a solve. *)
Definition problem_kept (w w' : QPWorkspace T Ldl Ruiz) : Prop :=
  mat w' H_scaled = mat w H_scaled /\ mat w' A_scaled = mat w A_scaled /\
  mat w' C_scaled = mat w C_scaled /\ vec w' g_scaled = vec w g_scaled /\
  ruiz w' = ruiz w /\ forall f, f <> alpha -> scal w' f = scal w f.

(** Modelled from the spec: the active-set manager writes [n_c], the
    bijection map and the factorization (spec 4.3) and the line searches
    return a step length (spec 4.6, 4.7); neither is described as writing the
    scaled problem, the preconditioner or the recorded norms. *)
Definition collaborators_keep_problem (ext : Collaborators T Ldl Ruiz) : Prop :=
  (forall m r w, problem_kept w (snd (active_set_change ext m r w))) /\
  (forall s m r w, problem_kept w (initial_guess_ls ext s m r w)) /\
  (forall m r w, problem_kept w (correction_guess_ls ext m r w)).

(** The norms as [setup] records them (helpers.hpp:285-288). *)
Definition norms_recorded (m : QPData T) (w : QPWorkspace T Ldl Ruiz) : Prop :=
  scal w primal_feasibility_rhs_1_eq = infty_norm (b m) /\
  scal w primal_feasibility_rhs_1_in_u = infty_norm (u m) /\
  scal w primal_feasibility_rhs_1_in_l = infty_norm (l m) /\
  scal w dual_feasibility_rhs_2 = infty_norm (g m).

(** Exact arithmetic: a zero multiple added to a bound does not move it. *)
Definition zero_multiple_exact : Prop :=
  forall a e c v : T, (e !=? s0) = false -> (v <=? a + e * c) = (v <=? a).

End ProblemKept.

(** ** The termination test as the specification words it (C1) *)

Section TerminationClaimed.
Context {T : Type} {ST : Scalar T} {Ldl Ruiz : Type}.
Variable ext : Collaborators T Ldl Ruiz.
Variable m : QPData T.
Variable w : QPWorkspace T Ldl Ruiz.
Local Open Scope scalar_scope.

(** Spec 4.4: the products are taken in the scaled space, with the scaled
    matrices of the workspace, then unscaled.  [xs], [ys], [zs] are the
    scaled iterate. *)
Definition Ax_claimed (xs : list T) : list T :=
  unscale_primal_residual_in_place_eq ext (ruiz w) (mat_vec (mat w A_scaled) xs).
Definition Cx_claimed (xs : list T) : list T :=
  unscale_primal_residual_in_place_in ext (ruiz w) (mat_vec (mat w C_scaled) xs).
Definition Hx_claimed (xs : list T) : list T :=
  unscale_dual_residual_in_place ext (ruiz w) (mat_vec (mat w H_scaled) xs).
Definition ATy_claimed (ys : list T) : list T :=
  unscale_dual_residual_in_place ext (ruiz w) (matT_vec (dim m) (mat w A_scaled) ys).
Definition CTz_claimed (zs : list T) : list T :=
  unscale_dual_residual_in_place ext (ruiz w) (matT_vec (dim m) (mat w C_scaled) zs).

(** C1, spec 4.4: the norm of the primal residual, [p_eq = A x - b] and
    [p_in = [C x - u]+ + [C x - l]-]. *)
Definition primal_residual_claimed (xs : list T) : T :=
  max2 (infty_norm (vsub (Ax_claimed xs) (b m)))
       (infty_norm (vadd (positive_part (vsub (Cx_claimed xs) (u m)))
                         (negative_part (vsub (Cx_claimed xs) (l m))))).

(** C1, spec 4.4: the norm of the dual residual [d = H x + g + A^T y + C^T z]. *)
Definition dual_residual_claimed (xs ys zs : list T) : T :=
  infty_norm
    (unscale_dual_residual_in_place ext (ruiz w)
       (vadd (vadd (vadd (vec w g_scaled) (mat_vec (mat w H_scaled) xs))
                   (matT_vec (dim m) (mat w A_scaled) ys))
             (matT_vec (dim m) (mat w C_scaled) zs))).

(** C1: [R_p], the maximum of the norms of [A x], [C x], [b], [u], [l], and
    [R_d], the maximum of the norms of [H x], [A^T y], [C^T z], [g]. *)
Definition R_p_claimed (xs : list T) : T :=
  max2 (max2 (infty_norm (Ax_claimed xs)) (infty_norm (Cx_claimed xs)))
       (max2 (max2 (infty_norm (b m)) (infty_norm (u m))) (infty_norm (l m))).
Definition R_d_claimed (xs ys zs : list T) : T :=
  max2 (max2 (infty_norm (CTz_claimed zs)) (infty_norm (Hx_claimed xs)))
       (max2 (infty_norm (ATy_claimed ys)) (infty_norm (g m))).

(** The test [v <= eps_abs + eps_rel * R] of the claim, and the test as
    lines 743-755 take it: there the relative term is added only when
    [eps_rel != 0]. *)
Definition within_tolerance (s : QPSettings T) (v R : T) : Prop :=
  (v <=? eps_abs s + eps_rel s * R) = true.
Definition within_guarded_tolerance (s : QPSettings T) (v R : T) : Prop :=
  within_tolerance s v R \/ ((eps_rel s !=? s0) = false /\ (v <=? eps_abs s) = true).

(** What a [Solved] exit with tested residuals [p], [d] and returned results
    [r'] is entitled to: the residuals are the ones of the returned iterate,
    and they are within their tolerances. *)
Definition solved_exit_claimed (s : QPSettings T) (r' : QPResults T)
    (p : PrimalResidual T) (d : DualResidual T) : Prop :=
  exists xs ys zs : list T,
    x r' = unscale_primal_in_place ext (ruiz w) xs /\
    y r' = unscale_dual_in_place_eq ext (ruiz w) ys /\
    z r' = unscale_dual_in_place_in ext (ruiz w) zs /\
    primal_feasibility_lhs p = primal_residual_claimed xs /\
    dual_feasibility_lhs d = dual_residual_claimed xs ys zs /\
    within_guarded_tolerance s (primal_residual_claimed xs) (R_p_claimed xs) /\
    within_guarded_tolerance s (dual_residual_claimed xs ys zs) (R_d_claimed xs ys zs).

End TerminationClaimed.

(** ** The passes of the outer loop *)

Section Passes.
Context {T : Type} {ST : Scalar T} {Ldl Ruiz : Type}.
Variable ext : Collaborators T Ldl Ruiz.

(** The workspace an iteration of the outer loop hands on. *)
Definition iteration_workspace (i : Iteration T Ldl Ruiz) : QPWorkspace T Ldl Ruiz :=
  match i with
  | ExitMaxIter _ w => w
  | ExitSolved _ w _ _ => w
  | NextIteration _ w _ => w
  end.

(** The loop state after [k] passes of the outer loop that each went on to
    the next iteration, the first of them at iteration [iter]; [None] when
    one of them left the loop. *)
Fixpoint completed_passes (k : nat) (s : QPSettings T) (m : QPData T)
    (bcl_eta_ext_init eps_in_min : T) (iter : Z)
    (r : QPResults T) (w : QPWorkspace T Ldl Ruiz) (eta : BclTolerances T)
    : option (QPResults T * QPWorkspace T Ldl Ruiz * BclTolerances T) :=
  match k with
  | O => Some (r, w, eta)
  | S k' =>
      match outer_iteration ext s m bcl_eta_ext_init eps_in_min iter r w eta with
      | NextIteration r1 w1 eta1 =>
          completed_passes k' s m bcl_eta_ext_init eps_in_min (iter + 1)%Z r1 w1 eta1
      | _ => None
      end
  end.

End Passes.

(** ** The ways out of a linear solve with refinement *)

Section RefinementExit.
Context {T : Type} {ST : Scalar T} {Ldl Ruiz : Type}.
Local Open Scope scalar_scope.


End RefinementExit.

(** ** Concrete passes of the outer loop *)

Open Scope Q_scope.

(** An equality-constrained problem started at x = (-1, 0), y = 3 with
    [mu_eq = 1] and [rho = 1]: the first pass takes a bad BCL step, and the
    iterate it leaves has a larger primal and a larger dual residual than
    the starting one. *)
Definition worse_problem : QPData Q :=
  {| dim := 2; n_eq := 1; n_in := 0;
     H := [[1; 2]; [2; 5]]; A := [[1; 1]]; C := [];
     g := [3; - 1]; b := [1]; u := []; l := [] |}.
Definition worse_results : QPResults Q :=
  example_results [- 1; 0] [3] [] 1 1 1 1 1 MaxIterReached.
Definition worse_work : QPWorkspace Q (list (list Q)) IdentityPrecond :=
  example_work worse_problem [[2; 2; 1]; [2; 6; 1]; [1; 1; - 1]].

(** Two equality rows that contradict each other, x = 1 and x = -1, with the
    penalties at 1e5: the primal residual cannot fall below 1. *)
Definition clash_problem : QPData Q :=
  {| dim := 1; n_eq := 2; n_in := 0;
     H := [[1]]; A := [[1]; [1]]; C := [];
     g := [0]; b := [1; - 1]; u := []; l := [] |}.
Definition clash_results : QPResults Q :=
  example_results [0] [1; 1] [] (1 # 1000000) 100000 100000 (1 # 100000) (1 # 100000)
    MaxIterReached.
Definition clash_work : QPWorkspace Q (list (list Q)) IdentityPrecond :=
  example_work clash_problem
    [[1 + (1 # 1000000); 1; 1]; [1; - (1 # 100000); 0]; [1; 0; - (1 # 100000)]].

(** One unknown with a dual residual of 1000 at x = 0, [rho] already at
    [refactor_rho_threshold], and an engine that holds the stale matrix
    [1/4] in place of the KKT matrix [1 + rho]. *)
Definition steep_problem : QPData Q :=
  {| dim := 1; n_eq := 0; n_in := 0;
     H := [[1]]; A := []; C := []; g := [- 1000]; b := []; u := []; l := [] |}.
Definition steep_results : QPResults Q :=
  example_results [0] [] [] (1 # 10000000) 1000 10 (1 # 1000) (1 # 10) MaxIterReached.
Definition steep_work : QPWorkspace Q (list (list Q)) IdentityPrecond :=
  set_ldl [[1 # 4]] (example_work steep_problem [[1 + (1 # 10000000)]]).

Close Scope Q_scope.

(** * Properties *)

Unset Implicit Arguments.

Section Properties.
Context {T : Type} {ST : Scalar T} {Ldl Ruiz : Type}.
Variable ext : Collaborators T Ldl Ruiz.
Local Open Scope scalar_scope.

(** ** Warm start (helpers.hpp:369-408) *)

(** C9: on a problem with equality and inequality rows, a warm start that
    lacks one of its three vectors leaves x, y and z of the results as they
    were, and still switches the policy to [WARM_START]. *)
Theorem warm_start_partial_guess_discarded
    (x_wm y_wm z_wm : option (list T)) (results : QPResults T) (settings : QPSettings T) :
  (0 < length (y results))%nat ->
  (0 < length (z results))%nat ->
  x_wm = None \/ y_wm = None \/ z_wm = None ->
  x (fst (warm_start x_wm y_wm z_wm results settings)) = x results /\
  y (fst (warm_start x_wm y_wm z_wm results settings)) = y results /\
  z (fst (warm_start x_wm y_wm z_wm results settings)) = z results /\
  initial_guess_policy (snd (warm_start x_wm y_wm z_wm results settings)) = WARM_START.
Proof.
  intros Hy Hz Habsent. unfold warm_start.
  destruct (length (y results)) as [|ny] eqn:Ey; [inversion Hy|].
  destruct (length (z results)) as [|nz] eqn:Ez; [inversion Hz|].
  cbn [Nat.eqb negb fst snd].
  destruct x_wm, y_wm, z_wm; cbn; repeat split;
    destruct Habsent as [E | [E | E]]; discriminate E.
Qed.

(** ** BCL update (solver.hpp:299-341) *)

(** C10: a bad step puts y and z back to [y_prev] and [z_prev], the members
    in which the outer loop saves the iterate before the inner step; x keeps
    the value it had after the inner step, whatever [x_prev] holds. *)
Theorem bcl_update_bad_step_rolls_back_duals_only
    (s : QPSettings T) (m : QPData T) (r : QPResults T) (w : QPWorkspace T Ldl Ruiz)
    (lhs : T) (eta : BclTolerances T) (eta_init eps_in_min : T) (pending : PendingMu T) :
  (lhs <=? bcl_eta_ext eta) = false ->
  let r' := fst (fst (bcl_update s m r w lhs eta eta_init eps_in_min pending)) in
  (y r' = vec w y_prev /\ z r' = vec w z_prev /\ x r' = x r) /\
  (forall (r0 : QPResults T) (w0 : QPWorkspace T Ldl Ruiz),
     vec (save_previous_iterate r0 w0) x_prev = x r0 /\
     vec (save_previous_iterate r0 w0) y_prev = y r0 /\
     vec (save_previous_iterate r0 w0) z_prev = z r0).
Proof.
  intros Hbad. unfold bcl_update. rewrite Hbad. cbn. repeat split.
Qed.

End Properties.

Section Frames.
Context {T : Type} {ST : Scalar T} {Ldl Ruiz : Type}.
Variable ext : Collaborators T Ldl Ruiz.
Local Open Scope scalar_scope.

Lemma fold_left_invariant (A B : Type) (P : A -> Prop) (f : A -> B -> A) (xs : list B) :
  (forall a e, P a -> P (f a e)) -> forall a, P a -> P (fold_left f xs a).
Proof.
  intros Hstep. induction xs as [|e xs IH]; intros a Ha; cbn; auto.
Qed.

Lemma info_kept_refl (r : QPResults T) : info_kept r r.
Proof. unfold info_kept. repeat split; reflexivity. Qed.

Lemma info_kept_trans (r1 r2 r3 : QPResults T) :
  info_kept r1 r2 -> info_kept r2 r3 -> info_kept r1 r3.
Proof.
  unfold info_kept. intros (a1 & a2 & a3 & a4 & a5 & a6 & a7 & a8 & a9)
    (b1 & b2 & b3 & b4 & b5 & b6 & b7 & b8 & b9).
  repeat split; try congruence. eapply Z.le_trans; eassumption.
Qed.

Lemma info_kept_n_tot (r : QPResults T) (k : Z) :
  (0 <= k)%Z -> info_kept r (set_n_tot (n_tot r + k)%Z r).
Proof. intros Hk. unfold info_kept. cbn. repeat split; try reflexivity. lia. Qed.

Lemma info_kept_initial_guess s m r w eps :
  info_kept r (fst (fst (initial_guess ext s m r w eps))).
Proof. unfold info_kept. repeat split; reflexivity. Qed.

Lemma info_kept_correction_guess_direction s m r w eps :
  info_kept r (fst (correction_guess_direction ext s m r w eps)).
Proof. unfold info_kept. repeat split; reflexivity. Qed.

Lemma info_kept_correction_guess_step (m : QPData T) r (w : QPWorkspace T Ldl Ruiz) :
  info_kept r (fst (fst (fst (correction_guess_step m r w)))).
Proof. unfold info_kept. repeat split; reflexivity. Qed.

Lemma info_kept_correction_guess_tail (m : QPData T) r (w : QPWorkspace T Ldl Ruiz)
    eps iter e :
  (0 <= iter)%Z ->
  info_kept r (snd (fst (fst (correction_guess_tail m r w eps iter e)))).
Proof.
  intros Hiter. unfold correction_guess_tail.
  destruct (_ <? _).
  - cbn [fst snd]. apply info_kept_n_tot. lia.
  - pose proof (info_kept_correction_guess_step m r w) as Hstep.
    destruct (correction_guess_step m r w) as [[[r1 w1] c1] e1]. cbn [fst snd] in Hstep.
    destruct (_ <=? _); cbn [fst snd].
    + eapply info_kept_trans; [exact Hstep|]. apply info_kept_n_tot. lia.
    + exact Hstep.
Qed.

Lemma info_kept_correction_guess_loop s m eps fuel :
  forall iter r w e, (0 <= iter)%Z ->
  info_kept r (snd (fst (fst (correction_guess_loop ext fuel s m r w eps iter e)))).
Proof.
  induction fuel as [|fuel IH]; intros iter r w e Hiter; cbn [correction_guess_loop].
  - apply info_kept_refl.
  - destruct (iter =? max_iter_in s)%Z eqn:Ebudget.
    + cbn [fst snd]. apply info_kept_n_tot. apply Z.eqb_eq in Ebudget. lia.
    + pose proof (info_kept_correction_guess_direction s m r w eps) as Hdir.
      destruct (correction_guess_direction ext s m r w eps) as [r1 w1].
      cbn [fst snd] in Hdir.
      pose proof (info_kept_correction_guess_tail m r1 w1 eps iter e Hiter) as Htail.
      destruct (correction_guess_tail m r1 w1 eps iter e) as [[[stop r2] w2] e2].
      cbn [fst snd] in Htail.
      destruct stop as [stop|].
      * cbn [fst snd]. eapply info_kept_trans; eassumption.
      * eapply info_kept_trans; [exact Hdir|].
        eapply info_kept_trans; [exact Htail|]. apply IH. lia.
Qed.

Lemma info_kept_correction_guess s m r w eps :
  info_kept r (fst (fst (correction_guess ext s m r w eps))).
Proof.
  unfold correction_guess.
  pose proof (info_kept_correction_guess_loop s m eps (Z.to_nat (max_iter_in s + 1))
                0%Z r w (slit 1000000) (Z.le_refl 0)) as Hloop.
  destruct (correction_guess_loop _ _ _ _ _ _ _ _ _) as [[[stop r1] w1] e1].
  exact Hloop.
Qed.

Lemma info_kept_inner_step s m r w lhs eta_in :
  info_kept r (fst (inner_step ext s m r w lhs eta_in)).
Proof.
  unfold inner_step. cbv zeta.
  destruct ((lhs <? eps_IG s) || (n_in m =? 0)%nat) eqn:Eig.
  - match goal with |- context [initial_guess ?e ?a ?b ?c ?d ?f] =>
      pose proof (info_kept_initial_guess a b c d f) as Hig;
      destruct (initial_guess e a b c d f) as [[r1 w1] e1] end.
    cbn [fst snd] in Hig.
    assert (Hr1 : info_kept r (set_n_tot (n_tot r1 + 1)%Z r1)).
    { eapply info_kept_trans; [exact Hig|]. apply info_kept_n_tot. lia. }
    cbn [negb andb orb].
    destruct ((e1 >=? eta_in) && negb (n_in m =? 0)%nat); cbn [fst snd].
    + match goal with |- context [correction_guess ?e ?a ?b ?c ?d ?f] =>
        pose proof (info_kept_correction_guess a b c d f) as Hcg;
        destruct (correction_guess e a b c d f) as [[r2 w2] e2] end.
      cbn [fst snd] in *. eapply info_kept_trans; eassumption.
    + exact Hr1.
  - cbn [negb andb orb].
    destruct (negb (n_in m =? 0)%nat); cbn [fst snd].
    + match goal with |- context [correction_guess ?e ?a ?b ?c ?d ?f] =>
        pose proof (info_kept_correction_guess a b c d f) as Hcg;
        destruct (correction_guess e a b c d f) as [[r2 w2] e2] end.
      cbn [fst snd] in *. exact Hcg.
    + apply info_kept_refl.
Qed.

End Frames.

Section OuterLoop.
Context {T : Type} {ST : Scalar T} {Ldl Ruiz : Type}.
Variable ext : Collaborators T Ldl Ruiz.
Local Open Scope scalar_scope.

Lemma info_kept_pass_kept (r r' : QPResults T) : info_kept r r' -> pass_kept r r'.
Proof.
  unfold info_kept, pass_kept.
  intros (a1 & a2 & a3 & a4 & a5 & a6 & a7 & a8 & a9). repeat split; try assumption. lia.
Qed.

Lemma pass_kept_trans (r1 r2 r3 : QPResults T) :
  pass_kept r1 r2 -> pass_kept r2 r3 -> pass_kept r1 r3.
Proof.
  unfold pass_kept. intros (a1 & a2 & a3 & a4 & a5) (b1 & b2 & b3 & b4 & b5).
  repeat split; try congruence; lia.
Qed.

Lemma pass_kept_unscale_solution m r (w : QPWorkspace T Ldl Ruiz) :
  pass_kept r (unscale_solution ext m r w).
Proof. unfold pass_kept. cbn. repeat split; try reflexivity; lia. Qed.

Lemma pass_kept_bcl_update s m r (w : QPWorkspace T Ldl Ruiz) lhs eta init emin pending :
  pass_kept r (fst (fst (bcl_update s m r w lhs eta init emin pending))).
Proof.
  unfold bcl_update. destruct (_ <=? _); unfold pass_kept; cbn;
    repeat split; try reflexivity; lia.
Qed.

Lemma pass_kept_effective_mu_update m r (w : QPWorkspace T Ldl Ruiz) pending :
  pass_kept r (fst (effective_mu_update ext m r w pending)).
Proof.
  unfold effective_mu_update. cbv zeta.
  destruct (_ || _); unfold pass_kept; cbn; repeat split; try reflexivity; lia.
Qed.

Lemma pass_kept_finish_iteration s m init emin r w p eta pending :
  pass_kept r (iteration_results (finish_iteration ext s m init emin r w p eta pending)).
Proof.
  unfold finish_iteration.
  pose proof (info_kept_inner_step ext s m r w (primal_feasibility_lhs p) (bcl_eta_in eta))
    as Hinner.
  apply info_kept_pass_kept in Hinner.
  destruct (inner_step ext s m r w (primal_feasibility_lhs p) (bcl_eta_in eta)) as [r1 w1].
  cbn [fst] in Hinner.
  destruct (global_primal_residual ext m r1 w1) as [w2 p2].
  cbv zeta.
  assert (Hrest : forall w3,
    pass_kept r1
      (iteration_results
         (let '(r, eta0, pending0) :=
            bcl_update s m r1 w3 (primal_feasibility_lhs p2) eta init emin pending in
          let '(w, d_new) := global_dual_residual ext m r w3 in
          let pending1 :=
            cold_restart s r (primal_feasibility_lhs p) (primal_feasibility_lhs p2)
              (dual_feasibility_lhs d_new) pending0 in
          let '(r0, w0) := effective_mu_update ext m r w pending1 in
          NextIteration r0 w0 eta0))).
  { intros w3.
    pose proof (pass_kept_bcl_update s m r1 w3 (primal_feasibility_lhs p2) eta init emin
                  pending) as Hbcl.
    destruct (bcl_update s m r1 w3 (primal_feasibility_lhs p2) eta init emin pending)
      as [[r3 eta3] pending3].
    cbn [fst] in Hbcl.
    destruct (global_dual_residual ext m r3 w3) as [w4 d4]. cbv zeta.
    match goal with |- context [effective_mu_update ?e ?a ?b ?c ?d] =>
      pose proof (pass_kept_effective_mu_update a b c d) as Hmu;
      destruct (effective_mu_update e a b c d) as [r5 w5] end.
    cbn [fst iteration_results] in *. eapply pass_kept_trans; eassumption. }
  eapply pass_kept_trans; [exact Hinner|].
  destruct (_ <=? _).
  - destruct (global_dual_residual ext m r1 w2) as [w3 d3].
    destruct (_ <=? _).
    + cbn [iteration_results]. apply pass_kept_unscale_solution.
    + apply Hrest.
  - apply Hrest.
Qed.

Lemma scal_reinsert_active_rows m r (w : QPWorkspace T Ldl Ruiz) :
  scal (reinsert_active_rows ext m r w) = scal w.
Proof.
  unfold reinsert_active_rows.
  apply fold_left_invariant with (P := fun w' => scal w' = scal w); [|reflexivity].
  intros w1 j Hw1.
  apply fold_left_invariant with (P := fun w' => scal w' = scal w); [|exact Hw1].
  intros w2 i Hw2. destruct (_ =? _)%nat; [|exact Hw2]. exact Hw2.
Qed.

Lemma scal_refactorize m r (w : QPWorkspace T Ldl Ruiz) rho_new :
  scal (refactorize ext m r w rho_new) = scal w.
Proof. unfold refactorize. cbv zeta. cbn [scal set_vec]. rewrite scal_reinsert_active_rows. reflexivity. Qed.

Lemma scal_refactor_on_dual_threshold s m r (w : QPWorkspace T Ldl Ruiz) d :
  scal (snd (refactor_on_dual_threshold ext s m r w d)) = scal w.
Proof.
  unfold refactor_on_dual_threshold. destruct (_ && _); cbn [snd]; [|reflexivity].
  apply scal_refactorize.
Qed.

End OuterLoop.

Section Solve.
Context {T : Type} {ST : Scalar T} {Ldl Ruiz : Type}.
Variable ext : Collaborators T Ldl Ruiz.
Local Open Scope scalar_scope.

Lemma primal_feasibility_rhs_scal (w1 w2 : QPWorkspace T Ldl Ruiz) p :
  scal w1 = scal w2 -> primal_feasibility_rhs w1 p = primal_feasibility_rhs w2 p.
Proof. intros E. unfold primal_feasibility_rhs. rewrite E. reflexivity. Qed.

Lemma dual_feasibility_rhs_scal (w1 w2 : QPWorkspace T Ldl Ruiz) d :
  scal w1 = scal w2 -> dual_feasibility_rhs w1 d = dual_feasibility_rhs w2 d.
Proof. intros E. unfold dual_feasibility_rhs. rewrite E. reflexivity. Qed.

Lemma pass_kept_refactor_on_dual_threshold s m r (w : QPWorkspace T Ldl Ruiz) d :
  let r' := fst (refactor_on_dual_threshold ext s m r w d) in
  n_ext r' = n_ext r /\ status r' = status r /\ n_tot r' = n_tot r /\
  n_mu_change r' = n_mu_change r /\ x r' = x r /\ y r' = y r /\ z r' = z r.
Proof.
  unfold refactor_on_dual_threshold. destruct (_ && _); cbn; repeat split.
Qed.

(** The bookkeeping of one pass: [n_ext] advances by one, the status is left
    alone, the inner and penalty counters do not decrease. *)
Lemma outer_iteration_bookkeeping s m init emin iter r w eta :
  let r' := iteration_results (outer_iteration ext s m init emin iter r w eta) in
  n_ext r' = (n_ext r + 1)%Z /\ status r' = status r /\
  (n_tot r <= n_tot r')%Z /\ (n_mu_change r <= n_mu_change r')%Z.
Proof.
  unfold outer_iteration. cbv zeta.
  destruct (iter =? max_iter s)%Z.
  - cbn. repeat split; lia.
  - destruct (global_primal_residual ext m _ w) as [w1 p].
    destruct (global_dual_residual ext m _ w1) as [w2 d].
    set (r1 := set_n_ext (n_ext r + 1)%Z r).
    assert (Hstage : forall rw : QPResults T * QPWorkspace T Ldl Ruiz,
      (n_ext (fst rw) = n_ext r1 /\ status (fst rw) = status r1 /\
       n_tot (fst rw) = n_tot r1 /\ n_mu_change (fst rw) = n_mu_change r1) ->
      forall pending,
      let r' := iteration_results
        (let '(r0, w0) := rw in
         if (primal_feasibility_lhs p <=? rhs_pri s w2 p)
            && (dual_feasibility_lhs d <=? rhs_dua s w2 d)
         then ExitSolved (unscale_solution ext m r0 w0) w0 p d
         else finish_iteration ext s m init emin r0 w0 p eta pending) in
      n_ext r' = (n_ext r + 1)%Z /\ status r' = status r /\
      (n_tot r <= n_tot r')%Z /\ (n_mu_change r <= n_mu_change r')%Z).
    { intros [r0 w0] (e1 & e2 & e3 & e4) pending. cbn [fst] in *.
      destruct (_ && _).
      - cbn. rewrite e1, e2, e3, e4. cbn. repeat split; lia.
      - pose proof (pass_kept_finish_iteration ext s m init emin r0 w0 p eta pending)
          as (k1 & k2 & k3 & k4 & k5).
        cbv zeta. rewrite k2, k3, e1, e2. rewrite e3 in k4. rewrite e4 in k5.
        cbn in *. repeat split; lia. }
    destruct (primal_feasibility_lhs p <=? rhs_pri s w2 p) eqn:Epf.
    + apply Hstage.
      pose proof (pass_kept_refactor_on_dual_threshold s m r1 w2 d) as Hr. cbv zeta in Hr.
      tauto.
    + apply (Hstage (r1, w2)). cbn. repeat split.
Qed.

Lemma finish_iteration_not_budget s m init emin r w p eta pending r1 w1 :
  finish_iteration ext s m init emin r w p eta pending <> ExitMaxIter r1 w1.
Proof.
  unfold finish_iteration.
  destruct (inner_step ext s m r w (primal_feasibility_lhs p) (bcl_eta_in eta)) as [r2 w2].
  destruct (global_primal_residual ext m r2 w2) as [w3 p3]. cbv zeta.
  assert (Hrest : forall w4,
    (let '(r, eta0, pending0) :=
       bcl_update s m r2 w4 (primal_feasibility_lhs p3) eta init emin pending in
     let '(w, d_new) := global_dual_residual ext m r w4 in
     let pending1 :=
       cold_restart s r (primal_feasibility_lhs p) (primal_feasibility_lhs p3)
         (dual_feasibility_lhs d_new) pending0 in
     let '(r0, w0) := effective_mu_update ext m r w pending1 in
     NextIteration r0 w0 eta0) <> ExitMaxIter r1 w1).
  { intros w4. destruct (bcl_update _ _ _ _ _ _ _ _ _) as [[r5 eta5] pending5].
    destruct (global_dual_residual ext m r5 w4) as [w6 d6]. cbv zeta.
    destruct (effective_mu_update _ _ _ _ _) as [r7 w7]. discriminate. }
  destruct (_ <=? _).
  - destruct (global_dual_residual ext m r2 w3) as [w4 d4].
    destruct (_ <=? _); [discriminate | apply Hrest].
  - apply Hrest.
Qed.

Lemma outer_iteration_budget_exit s m init emin iter r w eta r1 w1 :
  outer_iteration ext s m init emin iter r w eta = ExitMaxIter r1 w1 ->
  iter = max_iter s.
Proof.
  unfold outer_iteration. cbv zeta.
  destruct (iter =? max_iter s)%Z eqn:Elast; [intros _; apply Z.eqb_eq; exact Elast|].
  destruct (global_primal_residual ext m _ w) as [w2 p].
  destruct (global_dual_residual ext m _ w2) as [w3 d].
  match goal with |- context [if ?c then refactor_on_dual_threshold ?e ?a ?b ?r ?v ?d else ?o] =>
    destruct (if c then refactor_on_dual_threshold e a b r v d else o) as [r4 w4] end.
  destruct (_ && _); [discriminate|].
  intros Hexit. exfalso. eapply finish_iteration_not_budget. exact Hexit.
Qed.

Lemma outer_iteration_last s m init emin r w eta :
  outer_iteration ext s m init emin (max_iter s) r w eta
  = ExitMaxIter (set_n_ext (n_ext r + 1)%Z r) w.
Proof. unfold outer_iteration. cbv zeta. rewrite Z.eqb_refl. reflexivity. Qed.

Lemma qp_solve_loop_bookkeeping s m init emin fuel :
  forall iter r w eta,
  (iter + Z.of_nat fuel = max_iter s + 1)%Z ->
  let '(e, r', _) := qp_solve_loop ext fuel s m init emin iter r w eta in
  status r' = status r /\
  (n_tot r <= n_tot r')%Z /\ (n_mu_change r <= n_mu_change r')%Z /\
  match e with
  | ByBudget => n_ext r' = (n_ext r + Z.of_nat fuel)%Z
  | BySolved _ _ => (n_ext r < n_ext r' < n_ext r + Z.of_nat fuel)%Z
  end.
Proof.
  induction fuel as [|fuel IH]; intros iter r w eta Hfuel; cbn [qp_solve_loop].
  - repeat split; try lia.
  - pose proof (outer_iteration_bookkeeping s m init emin iter r w eta)
      as (k1 & k2 & k3 & k4).
    destruct (outer_iteration ext s m init emin iter r w eta)
      as [r1 w1 | r1 w1 p1 d1 | r1 w1 eta1] eqn:Epass; cbn [iteration_results] in *.
    + apply outer_iteration_budget_exit in Epass. repeat split; try assumption; lia.
    + assert (iter <> max_iter s) as Hnot.
      { intros ->. rewrite outer_iteration_last in Epass. discriminate. }
      repeat split; try assumption; lia.
    + assert (iter <> max_iter s) as Hnot.
      { intros ->. rewrite outer_iteration_last in Epass. discriminate. }
      specialize (IH (iter + 1)%Z r1 w1 eta1).
      destruct (qp_solve_loop ext fuel s m init emin (iter + 1) r1 w1 eta1)
        as [[e r2] w2].
      destruct IH as (j1 & j2 & j3 & j4); [lia|].
      rewrite j1, k2. repeat split; try lia.
      destruct e; lia.
Qed.

End Solve.
Section SolveTheorems.
Context {T : Type} {ST : Scalar T} {Ldl Ruiz : Type}.
Variable ext : Collaborators T Ldl Ruiz.
Local Open Scope scalar_scope.

(** The outer loop, pass by pass: on the budget exit all the passes before
    the last went on, and the last only advanced [n_ext]; on a [Solved] exit
    the passes before the exiting one went on. *)
Lemma qp_solve_loop_passes s m init emin fuel :
  forall iter r w eta,
  (iter + Z.of_nat fuel = max_iter s + 1)%Z -> (0 < fuel)%nat ->
  let '(e, r', w') := qp_solve_loop ext fuel s m init emin iter r w eta in
  match e with
  | ByBudget =>
      exists r_l eta_l,
        completed_passes ext (fuel - 1) s m init emin iter r w eta = Some (r_l, w', eta_l) /\
        r' = set_n_ext (n_ext r_l + 1)%Z r_l
  | BySolved p d =>
      exists k r_k w_k eta_k,
        (k < fuel - 1)%nat /\
        completed_passes ext k s m init emin iter r w eta = Some (r_k, w_k, eta_k) /\
        outer_iteration ext s m init emin (iter + Z.of_nat k)%Z r_k w_k eta_k
        = ExitSolved r' w' p d
  end.
Proof.
  induction fuel as [|fuel IH]; intros iter r w eta Hfuel Hpos; [lia|].
  cbn [qp_solve_loop].
  destruct (outer_iteration ext s m init emin iter r w eta)
    as [r1 w1 | r1 w1 p1 d1 | r1 w1 eta1] eqn:Epass.
  - pose proof (outer_iteration_budget_exit ext s m init emin iter r w eta r1 w1 Epass)
      as Hlast.
    subst iter. rewrite outer_iteration_last in Epass. injection Epass as <- <-.
    assert (fuel = 0)%nat as -> by lia.
    exists r, eta. split; reflexivity.
  - assert (iter <> max_iter s) as Hnot.
    { intros ->. rewrite outer_iteration_last in Epass. discriminate. }
    exists 0%nat, r, w, eta. split; [lia|]. split; [reflexivity|].
    rewrite Z.add_0_r. exact Epass.
  - assert (iter <> max_iter s) as Hnot.
    { intros ->. rewrite outer_iteration_last in Epass. discriminate. }
    specialize (IH (iter + 1)%Z r1 w1 eta1).
    destruct (qp_solve_loop ext fuel s m init emin (iter + 1) r1 w1 eta1) as [[e r2] w2].
    assert (Hf : (0 < fuel)%nat) by lia.
    specialize (IH ltac:(lia) Hf).
    destruct fuel as [|fuel']; [lia|].
    replace (S (S fuel') - 1)%nat with (S fuel') by lia.
    replace (S fuel' - 1)%nat with fuel' in IH by lia.
    destruct e as [p d|].
    + destruct IH as (k & r_k & w_k & eta_k & Hk & Hpasses & Hexit).
      exists (S k), r_k, w_k, eta_k. split; [lia|].
      split; [cbn [completed_passes]; rewrite Epass; exact Hpasses|].
      replace (iter + Z.of_nat (S k))%Z with (iter + 1 + Z.of_nat k)%Z by lia.
      exact Hexit.
    + destruct IH as (r_l & eta_l & Hpasses & Hr).
      exists r_l, eta_l. split; [|exact Hr].
      cbn [completed_passes]. rewrite Epass. exact Hpasses.
Qed.

(** C2 (as amended): every call of [qp_solve] populates the results from
    the passes of its outer loop.  On a [Solved] exit, after fewer than
    [max_iter] passes that went on, the results are those of the exiting
    pass; with the budget used up, x, y, z and the counters are those left by
    the last of the [max_iter] passes that went on, and [n_ext] counts the
    last pass too.  [objValue] is the objective of the returned x, [n_tot]
    and [n_mu_change] never decrease, and the status member is left as it
    was found. *)
Theorem qp_solve_populates_results
    (s : QPSettings T) (m : QPData T) (r : QPResults T) (w : QPWorkspace T Ldl Ruiz) :
  let init := spow (slit (1 # 10)) (alpha_bcl s) in
  let eta := {| bcl_eta_ext := init; bcl_eta_in := s1 |} in
  let emin := std_min (eps_abs s) (slit (1 # 1000000000)) in
  let '(e, r', w') := qp_solve ext s m r w in
  status r' = status r /\
  objValue r' = objective m (x r') /\
  (n_tot r <= n_tot r')%Z /\ (n_mu_change r <= n_mu_change r')%Z /\
  match e with
  | ByBudget =>
      n_ext r' = (n_ext r + Z.max 0 (max_iter s + 1))%Z /\
      (((max_iter s < 0)%Z /\ r' = set_objValue (objective m (x r)) r /\ w' = w) \/
       ((0 <= max_iter s)%Z /\
        exists r_l eta_l,
          completed_passes ext (Z.to_nat (max_iter s)) s m init emin 0%Z r w eta
          = Some (r_l, w', eta_l) /\
          r' = set_objValue (objective m (x r_l)) (set_n_ext (n_ext r_l + 1)%Z r_l)))
  | BySolved p d =>
      (n_ext r < n_ext r' <= n_ext r + max_iter s)%Z /\
      exists k r_k w_k eta_k r_e,
        (Z.of_nat k < max_iter s)%Z /\
        completed_passes ext k s m init emin 0%Z r w eta = Some (r_k, w_k, eta_k) /\
        outer_iteration ext s m init emin (Z.of_nat k) r_k w_k eta_k
        = ExitSolved r_e w' p d /\
        r' = set_objValue (objective m (x r_e)) r_e
  end.
Proof.
  cbv zeta. unfold qp_solve. cbv zeta.
  destruct (Z.le_gt_cases (max_iter s + 1) 0) as [Hneg | Hpos].
  - replace (Z.to_nat (max_iter s + 1)) with 0%nat by lia.
    cbn [qp_solve_loop]. cbn [status objValue x n_tot n_mu_change n_ext set_objValue].
    repeat split; try lia. left. repeat split. lia.
  - match goal with |- context [qp_solve_loop ?e ?f ?a ?b ?c ?d ?i ?rr ?ww ?et] =>
      pose proof (@qp_solve_loop_bookkeeping T ST Ldl Ruiz e a b c d f i rr ww et) as Hloop;
      pose proof (qp_solve_loop_passes a b c d f i rr ww et) as Hpasses;
      destruct (qp_solve_loop e f a b c d i rr ww et) as [[e1 r1] w1] end.
    destruct Hloop as (k1 & k2 & k3 & k4); [lia|].
    specialize (Hpasses ltac:(lia) ltac:(lia)).
    cbn [status objValue x n_tot n_mu_change n_ext set_objValue].
    repeat (split; [first [assumption | reflexivity]|]).
    destruct e1 as [p d|].
    + split; [lia|].
      destruct Hpasses as (k & r_k & w_k & eta_k & Hk & Hp & Hexit).
      exists k, r_k, w_k, eta_k, r1. split; [lia|]. split; [exact Hp|].
      split; [exact Hexit|reflexivity].
    + split; [lia|]. right. split; [lia|].
      destruct Hpasses as (r_l & eta_l & Hp & Hr).
      exists r_l, eta_l.
      replace (Z.to_nat (max_iter s + 1) - 1)%nat with (Z.to_nat (max_iter s)) in Hp by lia.
      split; [exact Hp|]. rewrite Hr. reflexivity.
Qed.

(** C6 (as amended): a pass that is not the budget exit evaluates the two
    residuals, which leaves the factorization and the KKT matrix alone, and
    then goes on from [rho = refactor_rho_threshold] and the workspace
    [refactorize] returns exactly when the primal test passes, the dual
    residual is at least [refactor_dual_feasibility_threshold], and [rho]
    differs from [refactor_rho_threshold]; otherwise it goes on from the
    results and the workspace as they are.  Nothing else in the pass changes
    [rho]. *)
Theorem outer_iteration_refactor_rule
    (s : QPSettings T) (m : QPData T) (eta_init eps_in_min : T) (iter : Z)
    (r : QPResults T) (w : QPWorkspace T Ldl Ruiz) (eta : BclTolerances T) :
  let r1 := set_n_ext (n_ext r + 1)%Z r in
  let w1 := fst (global_primal_residual ext m r1 w) in
  let p := snd (global_primal_residual ext m r1 w) in
  let w2 := fst (global_dual_residual ext m r1 w1) in
  let d := snd (global_dual_residual ext m r1 w1) in
  let is_primal_feasible := primal_feasibility_lhs p <=? rhs_pri s w2 p in
  let is_dual_feasible := dual_feasibility_lhs d <=? rhs_dua s w2 d in
  let trigger :=
    is_primal_feasible
    && (dual_feasibility_lhs d >=? refactor_dual_feasibility_threshold s)
    && (rho r !=? refactor_rho_threshold s) in
  let go_on (r3 : QPResults T) (w3 : QPWorkspace T Ldl Ruiz) :=
    if is_primal_feasible && is_dual_feasible
    then ExitSolved (unscale_solution ext m r3 w3) w3 p d
    else finish_iteration ext s m eta_init eps_in_min r3 w3 p eta (penalties_of r1) in
  outer_iteration ext s m eta_init eps_in_min iter r w eta
  = (if (iter =? max_iter s)%Z then ExitMaxIter r1 w
     else if trigger
          then go_on (set_rho (refactor_rho_threshold s) r1)
                     (refactorize ext m r1 w2 (refactor_rho_threshold s))
          else go_on r1 w2) /\
  ldl w2 = ldl w /\ mat w2 kkt = mat w kkt /\
  rho (iteration_results (outer_iteration ext s m eta_init eps_in_min iter r w eta))
  = if (iter =? max_iter s)%Z then rho r
    else if trigger then refactor_rho_threshold s else rho r.
Proof.
  cbv zeta.
  assert (Hpass :
    outer_iteration ext s m eta_init eps_in_min iter r w eta
    = (if (iter =? max_iter s)%Z then ExitMaxIter (set_n_ext (n_ext r + 1)%Z r) w
       else
         let r1 := set_n_ext (n_ext r + 1)%Z r in
         let w1 := fst (global_primal_residual ext m r1 w) in
         let p := snd (global_primal_residual ext m r1 w) in
         let w2 := fst (global_dual_residual ext m r1 w1) in
         let d := snd (global_dual_residual ext m r1 w1) in
         if (primal_feasibility_lhs p <=? rhs_pri s w2 p)
            && (dual_feasibility_lhs d >=? refactor_dual_feasibility_threshold s)
            && (rho r !=? refactor_rho_threshold s)
         then
           if (primal_feasibility_lhs p <=? rhs_pri s w2 p)
              && (dual_feasibility_lhs d <=? rhs_dua s w2 d)
           then ExitSolved
                  (unscale_solution ext m (set_rho (refactor_rho_threshold s) r1)
                     (refactorize ext m r1 w2 (refactor_rho_threshold s)))
                  (refactorize ext m r1 w2 (refactor_rho_threshold s)) p d
           else finish_iteration ext s m eta_init eps_in_min
                  (set_rho (refactor_rho_threshold s) r1)
                  (refactorize ext m r1 w2 (refactor_rho_threshold s)) p eta
                  (penalties_of r1)
         else
           if (primal_feasibility_lhs p <=? rhs_pri s w2 p)
              && (dual_feasibility_lhs d <=? rhs_dua s w2 d)
           then ExitSolved (unscale_solution ext m r1 w2) w2 p d
           else finish_iteration ext s m eta_init eps_in_min r1 w2 p eta
                  (penalties_of r1))).
  { unfold outer_iteration. cbv zeta.
    destruct (iter =? max_iter s)%Z; [reflexivity|].
    destruct (global_primal_residual ext m _ w) as [w1 p]. cbn [fst snd].
    destruct (global_dual_residual ext m _ w1) as [w2 d]. cbn [fst snd].
    unfold refactor_on_dual_threshold. cbn [rho set_n_ext].
    destruct (primal_feasibility_lhs p <=? rhs_pri s w2 p); cbn [andb]; [|reflexivity].
    destruct ((dual_feasibility_lhs d >=? refactor_dual_feasibility_threshold s)
              && (rho r !=? refactor_rho_threshold s)); reflexivity. }
  split; [exact Hpass|]. split; [reflexivity|]. split; [reflexivity|].
  rewrite Hpass. cbv zeta.
  destruct (iter =? max_iter s)%Z; [reflexivity|].
  destruct (_ && _ && _);
    (destruct (_ && _);
     [reflexivity
     |match goal with
      | |- rho (iteration_results (finish_iteration ext s m ?a ?b ?r3 ?w3 ?p ?e ?pe)) = _ =>
          exact (proj1 (pass_kept_finish_iteration ext s m a b r3 w3 p e pe))
      end]).
Qed.

(** The BCL update reads the previous multipliers and nothing else in the
    workspace, and the residual evaluations do not write them. *)
Lemma bcl_update_reads_previous s m r (w w' : QPWorkspace T Ldl Ruiz) lhs eta init emin
    pending :
  vec w' y_prev = vec w y_prev -> vec w' z_prev = vec w z_prev ->
  bcl_update s m r w' lhs eta init emin pending
  = bcl_update s m r w lhs eta init emin pending.
Proof. intros Hy Hz. unfold bcl_update. rewrite Hy, Hz. reflexivity. Qed.

Lemma dual_residual_after_dual_residual m r r0 (w : QPWorkspace T Ldl Ruiz) :
  snd (global_dual_residual ext m r (fst (global_dual_residual ext m r0 w)))
  = snd (global_dual_residual ext m r w).
Proof. vm_compute. reflexivity. Qed.

(** The penalties a pass that goes on stores, and the tolerances it hands
    on. *)
Lemma finish_iteration_penalties s m init emin r (w : QPWorkspace T Ldl Ruiz)
    p eta pending r' w' eta' :
  finish_iteration ext s m init emin r w p eta pending = NextIteration r' w' eta' ->
  let step := inner_step ext s m r w (primal_feasibility_lhs p) (bcl_eta_in eta) in
  let gp := global_primal_residual ext m (fst step) (snd step) in
  let primal_new := primal_feasibility_lhs (snd gp) in
  let bcl := bcl_update s m (fst step) (fst gp) primal_new eta init emin pending in
  let r_bcl := fst (fst bcl) in
  let dual_new :=
    dual_feasibility_lhs (snd (global_dual_residual ext m r_bcl (fst gp))) in
  penalties_of r'
  = cold_restart s r_bcl (primal_feasibility_lhs p) primal_new dual_new (snd bcl) /\
  eta' = snd (fst bcl).
Proof.
  cbv zeta. unfold finish_iteration.
  destruct (inner_step ext s m r w (primal_feasibility_lhs p) (bcl_eta_in eta))
    as [r1 w1]. cbn [fst snd].
  destruct (global_primal_residual ext m r1 w1) as [w2 p2]. cbn [fst snd]. cbv zeta.
  assert (Hrest : forall w4 : QPWorkspace T Ldl Ruiz,
    vec w4 y_prev = vec w2 y_prev -> vec w4 z_prev = vec w2 z_prev ->
    (forall r5, snd (global_dual_residual ext m r5 w4)
                = snd (global_dual_residual ext m r5 w2)) ->
    (let '(r, eta0, pending0) :=
       bcl_update s m r1 w4 (primal_feasibility_lhs p2) eta init emin pending in
     let '(w, d_new) := global_dual_residual ext m r w4 in
     let pending1 :=
       cold_restart s r (primal_feasibility_lhs p) (primal_feasibility_lhs p2)
         (dual_feasibility_lhs d_new) pending0 in
     let '(r0, w0) := effective_mu_update ext m r w pending1 in
     NextIteration r0 w0 eta0) = NextIteration r' w' eta' ->
    penalties_of r'
    = cold_restart s
        (fst (fst (bcl_update s m r1 w2 (primal_feasibility_lhs p2) eta init emin pending)))
        (primal_feasibility_lhs p) (primal_feasibility_lhs p2)
        (dual_feasibility_lhs
           (snd (global_dual_residual ext m
              (fst (fst (bcl_update s m r1 w2 (primal_feasibility_lhs p2) eta init emin
                           pending))) w2)))
        (snd (bcl_update s m r1 w2 (primal_feasibility_lhs p2) eta init emin pending)) /\
    eta' = snd (fst (bcl_update s m r1 w2 (primal_feasibility_lhs p2) eta init emin
                       pending))).
  { intros w4 Hy Hz Hd.
    rewrite (bcl_update_reads_previous s m r1 w2 w4 _ eta init emin pending Hy Hz).
    destruct (bcl_update s m r1 w2 (primal_feasibility_lhs p2) eta init emin pending)
      as [[r5 eta5] pending5]. cbn [fst snd].
    rewrite <- (Hd r5).
    destruct (global_dual_residual ext m r5 w4) as [w6 d6]. cbn [fst snd]. cbv zeta.
    unfold effective_mu_update. cbv zeta.
    intros Hnext. injection Hnext as <- <- <-.
    split; [|reflexivity].
    destruct (cold_restart s r5 _ _ _ pending5); reflexivity. }
  destruct (primal_feasibility_lhs p2 <=? _).
  - pose proof (fun r5 => dual_residual_after_dual_residual m r5 r1 w2) as Hd.
    assert (Hy : vec (fst (global_dual_residual ext m r1 w2)) y_prev = vec w2 y_prev)
      by reflexivity.
    assert (Hz : vec (fst (global_dual_residual ext m r1 w2)) z_prev = vec w2 z_prev)
      by reflexivity.
    destruct (global_dual_residual ext m r1 w2) as [w3 d3]. cbn [fst snd] in *.
    destruct (dual_feasibility_lhs d3 <=? _); [discriminate|].
    apply Hrest; assumption.
  - apply Hrest; reflexivity.
Qed.

(** C7 (as amended): in a pass that goes on to the next iteration, let
    [previous] be the primal residual of the first test, and [primal_new],
    [dual_new] the residuals after the inner step and after the BCL update.
    When [primal_new] and [dual_new], each divided by the larger of
    [previous] and the machine epsilon, are at least 1 and [mu_in >= 1.E5],
    the penalties and inverses the pass stores are the cold-reset constants
    of the settings; otherwise they are the pending ones of the BCL update. *)
Theorem outer_iteration_cold_restart_rule
    (s : QPSettings T) (m : QPData T) (eta_init eps_in_min : T) (iter : Z)
    (r : QPResults T) (w : QPWorkspace T Ldl Ruiz) (eta : BclTolerances T)
    (r' : QPResults T) (w' : QPWorkspace T Ldl Ruiz) (eta' : BclTolerances T) :
  outer_iteration ext s m eta_init eps_in_min iter r w eta = NextIteration r' w' eta' ->
  let r1 := set_n_ext (n_ext r + 1)%Z r in
  let gp0 := global_primal_residual ext m r1 w in
  let gd0 := global_dual_residual ext m r1 (fst gp0) in
  let previous := primal_feasibility_lhs (snd gp0) in
  let start :=
    if previous <=? rhs_pri s (fst gd0) (snd gp0)
    then refactor_on_dual_threshold ext s m r1 (fst gd0) (snd gd0)
    else (r1, fst gd0) in
  let step := inner_step ext s m (fst start) (snd start) previous (bcl_eta_in eta) in
  let gp := global_primal_residual ext m (fst step) (snd step) in
  let primal_new := primal_feasibility_lhs (snd gp) in
  let bcl :=
    bcl_update s m (fst step) (fst gp) primal_new eta eta_init eps_in_min (penalties_of r1) in
  let r_bcl := fst (fst bcl) in
  let dual_new :=
    dual_feasibility_lhs (snd (global_dual_residual ext m r_bcl (fst gp))) in
  let cold :=
    (primal_new / max2 previous sepsilon >=? s1)
    && (dual_new / max2 previous sepsilon >=? s1)
    && (mu_in r_bcl >=? slit 100000) in
  penalties_of r' = (if cold then cold_reset_of s else snd bcl) /\
  eta' = snd (fst bcl).
Proof.
  cbv zeta. unfold outer_iteration. cbv zeta.
  destruct (iter =? max_iter s)%Z; [discriminate|].
  destruct (global_primal_residual ext m _ w) as [w1 p]. cbn [fst snd].
  destruct (global_dual_residual ext m _ w1) as [w2 d]. cbn [fst snd].
  set (r1 := set_n_ext (n_ext r + 1)%Z r).
  assert (Hfin : forall r3 (w3 : QPWorkspace T Ldl Ruiz),
    (if (primal_feasibility_lhs p <=? rhs_pri s w2 p)
        && (dual_feasibility_lhs d <=? rhs_dua s w2 d)
     then ExitSolved (unscale_solution ext m r3 w3) w3 p d
     else finish_iteration ext s m eta_init eps_in_min r3 w3 p eta (penalties_of r1))
    = NextIteration r' w' eta' ->
    finish_iteration ext s m eta_init eps_in_min r3 w3 p eta (penalties_of r1)
    = NextIteration r' w' eta').
  { intros r3 w3. destruct (_ && _); [discriminate|]. exact (fun H => H). }
  destruct (if primal_feasibility_lhs p <=? rhs_pri s w2 p
            then refactor_on_dual_threshold ext s m r1 w2 d else (r1, w2)) as [r3 w3].
  cbn [fst snd].
  intros Hnext. apply Hfin in Hnext.
  apply finish_iteration_penalties in Hnext. cbv zeta in Hnext.
  destruct Hnext as (Hpen & Heta). split; [|exact Heta].
  rewrite Hpen. unfold cold_restart, cold_reset_of.
  destruct (_ && _ && _); reflexivity.
Qed.

End SolveTheorems.

Section InnerLoops.
Context {T : Type} {ST : Scalar T} {Ldl Ruiz : Type}.
Variable ext : Collaborators T Ldl Ruiz.
Local Open Scope scalar_scope.

Lemma correction_guess_step_parts
    (m : QPData T) (r : QPResults T) (w : QPWorkspace T Ldl Ruiz) :
  let r1 := fst (fst (fst (correction_guess_step m r w))) in
  let w1 := snd (fst (fst (correction_guess_step m r w))) in
  let Hx := mat_vec (mat w H_scaled) (x r1) in
  let ATy := matT_vec (dim m) (mat w A_scaled) (y r1) in
  let CTz := matT_vec (dim m) (mat w C_scaled) (z r1) in
  correction_guess_step m r w
  = (r1, w1,
     max2 (max2 (max2 (scal w correction_guess_rhs_g) (infty_norm Hx)) (infty_norm ATy))
          (infty_norm CTz) + s1,
     infty_norm (vec w1 dual_residual_scaled)) /\
  vec w1 dual_residual_scaled
  = vadd (vadd (vadd Hx ATy) CTz)
         (vadd (vec w g_scaled) (vscale (rho r) (vsub (x r1) (vec w x_prev)))).
Proof. split; vm_compute; reflexivity. Qed.

(** C3 (as amended): a pass of the correction loop that is within budget
    leaves the loop exactly when the step [alpha * dx] is below 1.E-11 in
    infinity norm or when the inner dual residual
    [H x + A^T y + C^T z + g + rho (x - x_prev)] of the new iterate is at most
    [eps_int * (max(|g|, |H x|, |A^T y|, |C^T z|) + 1)], all in the scaled space. *)
Theorem correction_guess_tail_exit_rule
    (m : QPData T) (r : QPResults T) (w : QPWorkspace T Ldl Ruiz)
    (eps_int : T) (iter : Z) (err_in : T) :
  let small_step :=
    infty_norm (vscale (scal w alpha) (vhead (dim m) (vec w dw_aug)))
    <? slit (1 # 100000000000) in
  let r1 := fst (fst (fst (correction_guess_step m r w))) in
  let w1 := snd (fst (fst (correction_guess_step m r w))) in
  let Hx := mat_vec (mat w H_scaled) (x r1) in
  let ATy := matT_vec (dim m) (mat w A_scaled) (y r1) in
  let CTz := matT_vec (dim m) (mat w C_scaled) (z r1) in
  let rhs_c :=
    max2 (max2 (max2 (scal w correction_guess_rhs_g) (infty_norm Hx)) (infty_norm ATy))
         (infty_norm CTz) + s1 in
  vec w1 dual_residual_scaled
  = vadd (vadd (vadd Hx ATy) CTz)
         (vadd (vec w g_scaled) (vscale (rho r) (vsub (x r1) (vec w x_prev)))) /\
  fst (fst (fst (correction_guess_tail m r w eps_int iter err_in)))
  = if small_step then Some SmallStep
    else if infty_norm (vec w1 dual_residual_scaled) <=? eps_int * rhs_c
         then Some InnerResidualSmall
         else None.
Proof.
  cbv zeta. pose proof (correction_guess_step_parts m r w) as [Hparts Hres].
  cbv zeta in Hparts, Hres. split; [exact Hres|]. clear Hres.
  unfold correction_guess_tail.
  destruct (_ <? _); [reflexivity|].
  destruct (correction_guess_step m r w) as [[[r1 w1] c1] e1].
  cbn [fst snd] in *. injection Hparts as Hc He. rewrite <- Hc, <- He.
  destruct (e1 <=? eps_int * c1); reflexivity.
Qed.

(** C4 (as amended): with [it_stability] at 0 or 1, a pass of the refinement
    loop whose guard holds breaks exactly when the count [it] has reached
    [nb_iterative_refinement], or when the correction just made strictly
    increased the residual norm and the one before it had done so too
    ([it_stability = 1]); a correction that leaves the norm equal or lower
    resets the count. *)
Theorem refinement_iteration_break_rule
    (s : QPSettings T) (m : QPData T) (r : QPResults T) (eps : T) (inner_pb_dim : nat)
    (st : RefineState T Ldl Ruiz) :
  (it_stability st = 0 \/ it_stability st = 1)%Z ->
  let w := refine_once ext m r (rwork st) inner_pb_dim in
  let increased := err_norm inner_pb_dim w >? preverr st in
  refinement_iteration ext s m r eps inner_pb_dim st
  = if err_norm inner_pb_dim (rwork st) >=? eps then
      if (it st >=? nb_iterative_refinement s)%Z then (Some IterationBound, st)
      else if increased && (it_stability st =? 1)%Z then
        (Some StabilityBreak,
         {| it := (it st + 1)%Z; it_stability := 2%Z; preverr := preverr st; rwork := w |})
      else
        (None,
         {| it := (it st + 1)%Z; it_stability := if increased then 1%Z else 0%Z;
            preverr := err_norm inner_pb_dim w; rwork := w |})
    else (Some ResidualBelowEps, st).
Proof.
  intros Hstab. cbv zeta. unfold refinement_iteration.
  destruct (_ >=? eps); [|reflexivity].
  destruct (it st >=? nb_iterative_refinement s)%Z; [reflexivity|].
  destruct (_ >? preverr st); cbn [andb].
  - destruct Hstab as [-> | ->]; reflexivity.
  - reflexivity.
Qed.

Lemma refinement_iteration_stop s m r eps inner_pb_dim st :
  fst (refinement_iteration ext s m r eps inner_pb_dim st) <> Some OutOfFuel.
Proof.
  unfold refinement_iteration.
  destruct (_ >=? eps); [|discriminate].
  destruct (it st >=? nb_iterative_refinement s)%Z; [discriminate|].
  cbv zeta. destruct (_ =? 2)%Z; discriminate.
Qed.

Lemma refinement_iteration_continue s m r eps inner_pb_dim st st' :
  refinement_iteration ext s m r eps inner_pb_dim st = (None, st') ->
  (it st < nb_iterative_refinement s)%Z /\ it st' = (it st + 1)%Z.
Proof.
  unfold refinement_iteration.
  destruct (_ >=? eps); [|discriminate].
  destruct (it st >=? nb_iterative_refinement s)%Z eqn:Ebound; [discriminate|].
  cbv zeta. destruct (_ =? 2)%Z; [discriminate|].
  intros Hnext. injection Hnext as <-. cbn [it].
  rewrite Z.geb_leb in Ebound. apply Z.leb_gt in Ebound. split; [exact Ebound | reflexivity].
Qed.

(** The fuel [solve_and_refine] gives the loop is never used up: the loop
    always ends through its guard or one of its two breaks. *)
Lemma refinement_loop_fuel s m r eps inner_pb_dim fuel :
  forall st,
  (nb_iterative_refinement s <= it st + Z.of_nat fuel)%Z ->
  fst (refinement_loop ext fuel s m r eps inner_pb_dim st) <> OutOfFuel.
Proof.
  induction fuel as [|fuel IH]; intros st Hfuel; cbn [refinement_loop];
    pose proof (refinement_iteration_stop s m r eps inner_pb_dim st) as Hstop;
    destruct (refinement_iteration ext s m r eps inner_pb_dim st) as [[stop|] st'] eqn:Epass;
    cbn [fst] in *; try congruence;
    apply refinement_iteration_continue in Epass as [Hlt Hit].
  - lia.
  - apply IH. lia.
Qed.

Lemma solve_and_refine_terminates s m r w eps inner_pb_dim :
  fst (solve_and_refine ext s m r w eps inner_pb_dim) <> OutOfFuel.
Proof. unfold solve_and_refine. cbv zeta. apply refinement_loop_fuel. cbn [it]. lia. Qed.

End InnerLoops.

Section Setup.
Context {T : Type} {ST : Scalar T} {Ldl Ruiz : Type}.
Variable ext : Collaborators T Ldl Ruiz.
Local Open Scope scalar_scope.

(** C8: a setup under [WARM_START_WITH_PREVIOUS_RESULT] does not clean the
    workspace: the factorization, the preconditioner it holds, the bijection
    map, the KKT matrix, the active-set masks, [alpha] and every buffer other
    than the scaled copies of the problem are left as they were.  Of the
    results only [cleanup_statistics] is applied, after which x, y and z are
    rescaled by the preconditioner. *)
Theorem setup_warm_start_with_previous_result
    (H_ : list (list T)) (g_ : list T) (A_ : list (list T)) (b_ : list T)
    (C_ : list (list T)) (u_ l_ : list T)
    (s : QPSettings T) (m : QPData T) (w : QPWorkspace T Ldl Ruiz) (r : QPResults T)
    (rz : Ruiz) (ps : PreconditionerStatus) :
  initial_guess_policy s = WARM_START_WITH_PREVIOUS_RESULT ->
  let out := setup ext H_ g_ A_ b_ C_ u_ l_ s m w r rz ps in
  let w' := snd (fst (fst out)) in
  let r' := snd (fst out) in
  let rz' := snd out in
  let kept := results_cleanup_statistics ext r in
  (ldl w' = ldl w /\ ruiz w' = ruiz w /\
   current_bijection_map w' = current_bijection_map w /\
   mat w' kkt = mat w kkt /\ bvec w' = bvec w /\ scal w' alpha = scal w alpha /\
   forall f, f <> g_scaled -> f <> b_scaled -> f <> u_scaled -> f <> l_scaled ->
             vec w' f = vec w f) /\
  r' = set_z (scale_dual_in_place_in ext rz' (z kept))
         (set_y (scale_dual_in_place_eq ext rz' (y kept))
            (set_x (scale_primal_in_place ext rz' (x kept)) kept)).
Proof.
  intros Hpolicy. cbv zeta. unfold setup. rewrite Hpolicy.
  destruct ps; (split; [repeat split; try reflexivity|reflexivity]);
    intros f Hg Hb Hu Hl; destruct f; try reflexivity; congruence.
Qed.

End Setup.

(** ** The BCL good step on the reals *)

(** C5 (as amended): on a good step with [mu_in > 1], [mu_in_inv = 1/mu_in],
    [beta_bcl > 0] and [bcl_eta_ext > 0], the new [bcl_eta_ext] is strictly
    smaller than the old one; the results, hence [mu_eq], [mu_in] and [rho],
    and the pending penalties are left as they were. *)
Theorem bcl_update_good_step_tightens
    {Ldl Ruiz : Type} (s : QPSettings R) (m : QPData R) (r : QPResults R)
    (w : QPWorkspace R Ldl Ruiz) (lhs : R) (eta : BclTolerances R)
    (eta_init eps_in_min : R) (pending : PendingMu R) :
  (lhs <= bcl_eta_ext eta)%R ->
  (1 < mu_in r)%R ->
  mu_in_inv r = (/ mu_in r)%R ->
  (0 < beta_bcl s)%R ->
  (0 < bcl_eta_ext eta)%R ->
  let out := bcl_update s m r w lhs eta eta_init eps_in_min pending in
  (bcl_eta_ext (snd (fst out)) < bcl_eta_ext eta)%R /\
  mu_eq (fst (fst out)) = mu_eq r /\ mu_in (fst (fst out)) = mu_in r /\
  rho (fst (fst out)) = rho r /\ snd out = pending.
Proof.
  intros Hgood Hmu Hinv Hbeta Heta. cbv zeta. unfold bcl_update.
  change (sleb lhs (bcl_eta_ext eta)) with (Rleb lhs (bcl_eta_ext eta)).
  unfold Rleb. destruct (Rle_dec lhs (bcl_eta_ext eta)) as [_|Hno]; [|contradiction].
  cbn [fst snd bcl_eta_ext]. repeat split.
  change (smul ?a ?b) with (Rmult a b).
  change (spow ?a ?b) with (Rpow a b).
  rewrite Hinv. unfold Rpow.
  assert (Hpos : (0 < / mu_in r)%R) by (apply Rinv_0_lt_compat; lra).
  destruct (Rlt_dec 0 (/ mu_in r)) as [_|Hno]; [|contradiction].
  assert (Hlt : (Rpower (/ mu_in r) (beta_bcl s) < 1)%R).
  { unfold Rpower. rewrite <- exp_0. apply exp_increasing.
    rewrite ln_Rinv by lra.
    assert (0 < ln (mu_in r))%R by (rewrite <- ln_1; apply ln_increasing; lra).
    nra. }
  nra.
Qed.

(** ** The statements at concrete inputs *)

Lemma Q_zero_multiple_neutral :
  forall a e c v : Q, (e !=? s0)%S = false -> (v <=? a + e * c)%S = (v <=? a)%S.
Proof.
  intros a e c v He.
  change (negb (Qeq_bool e 0) = false) in He.
  change (Qle_bool v (Qred (a + Qred (e * c))) = Qle_bool v a).
  apply negb_false_iff, Qeq_bool_iff in He.
  assert (Hsame : (Qred (a + Qred (e * c)) == a)%Q).
  { rewrite !Qred_correct, He. ring. }
  destruct (Qle_bool v a) eqn:Ea.
  - apply Qle_bool_iff. rewrite Hsame. apply Qle_bool_iff. exact Ea.
  - destruct (Qle_bool v (Qred (a + Qred (e * c)))) eqn:Eb; [|reflexivity].
    apply Qle_bool_iff in Eb. rewrite Hsame in Eb. apply Qle_bool_iff in Eb. congruence.
Qed.

(** The embedding run on the first two scenarios of the specification: the
    solver reaches x = (1, 2) with objective -5, and x = (1/2, 1/2) with
    y = -1/2, up to the proximal perturbation. *)
Example free_problem_solved :
  let '(e, r', _) := qp_solve reference eq_settings free_problem free_results free_work in
  e <> ByBudget /\
  Qle_bool (distance (x r') [1; 2]%Q) (1 # 1000000)%Q = true /\
  Qle_bool (Qabs (objValue r' + 5)) (1 # 1000000)%Q = true.
Proof. vm_compute. repeat split; discriminate. Qed.

Example eq_problem_solved :
  let '(e, r', _) := qp_solve reference eq_settings eq_problem eq_results eq_work in
  e <> ByBudget /\
  Qle_bool (distance (x r') [1 # 2; 1 # 2]%Q) (1 # 1000000)%Q = true /\
  Qle_bool (distance (y r') [- (1 # 2)]%Q) (1 # 1000)%Q = true.
Proof. vm_compute. repeat split; discriminate. Qed.

(** C2, as stated, fails: with [max_iter = 0] the budget is used up at once
    and the status left by an earlier solve, [Solved], is still there; after
    a [Solved] exit the status is still the [MaxIterReached] it was; and with
    [max_iter = 1] the iterate kept on the budget exit is the one the single
    pass left, with primal and dual residuals 3 and 21/4, where the starting
    iterate had 2 and 5. *)
Lemma qp_solve_leaves_status_alone :
  (let '(e, r', _) :=
     qp_solve reference (example_settings 1%Q 0%Z NO_INITIAL_GUESS) small_problem
       (small_results Solved) small_work in
   e = ByBudget /\ status r' = Solved /\ status r' <> MaxIterReached) /\
  (let '(e, r', _) :=
     qp_solve reference eq_settings eq_problem eq_results eq_work in
   e <> ByBudget /\ status r' = MaxIterReached /\ status r' <> Solved) /\
  (let '(e, r', w') :=
     qp_solve reference (example_settings 1%Q 1%Z NO_INITIAL_GUESS) worse_problem
       worse_results worse_work in
   e = ByBudget /\
   primal_residual_claimed reference worse_problem worse_work (x worse_results) = 2%Q /\
   dual_residual_claimed reference worse_problem worse_work
     (x worse_results) (y worse_results) (z worse_results) = 5%Q /\
   primal_residual_claimed reference worse_problem w' (x r') = 3%Q /\
   dual_residual_claimed reference worse_problem w' (x r') (y r') (z r') = (21 # 4)%Q).
Proof.
  split; [|split].
  - vm_compute. repeat split; discriminate.
  - assert (Hexit : match fst (fst (qp_solve reference eq_settings eq_problem
                                       eq_results eq_work)) with
                    | BySolved _ _ => true
                    | ByBudget => false
                    end = true) by (vm_compute; reflexivity).
    assert (Hstatus : status (snd (fst (qp_solve reference eq_settings eq_problem
                                          eq_results eq_work))) = MaxIterReached)
      by (vm_compute; reflexivity).
    destruct (qp_solve _ _ _ _ _) as [[e r'] w']. cbn [fst snd] in *.
    repeat split.
    + intros ->. discriminate Hexit.
    + exact Hstatus.
    + rewrite Hstatus. discriminate.
  - vm_compute. repeat split; reflexivity.
Qed.

(** C3, as stated, fails: after the step x = y = z = 1, the inner residual
    is 3 + 1e-6, within [1 * (1 + 1 + 1 + 1)], and the loop goes on, since
    the residual exceeds [1 * (max(0, 1, 1, 1) + 1)]. *)
Lemma correction_guess_continues_within_claimed_bound :
  correction_exit_claimed corr_problem corr_results corr_work 1%Q = true /\
  correction_guess_tail corr_problem corr_results corr_work 1%Q 0%Z (slit 1000000)
  = (None,
     fst (fst (fst (correction_guess_step corr_problem corr_results corr_work))),
     snd (fst (fst (correction_guess_step corr_problem corr_results corr_work))),
     (3000001 # 1000000)%Q) /\
  x (fst (fst (fst (correction_guess_step corr_problem corr_results corr_work)))) = [1%Q] /\
  y (fst (fst (fst (correction_guess_step corr_problem corr_results corr_work)))) = [1%Q] /\
  z (fst (fst (fst (correction_guess_step corr_problem corr_results corr_work)))) = [1%Q].
Proof. repeat (split; [vm_compute; reflexivity|]). vm_compute. reflexivity. Qed.

(** C4, as stated, fails: with the stale factorization the residual norm is 1
    after the direct solve and after each of the first two corrections, so
    two consecutive corrections fail to decrease it, and the loop is not
    left: it runs on to the iteration bound. *)
Lemma refinement_continues_on_equal_norms :
  let n0 := err_norm 1 (rwork (stale_state 0)) in
  let n1 := err_norm 1 (rwork (stale_state 1)) in
  let n2 := err_norm 1 (rwork (stale_state 2)) in
  stalled_twice_claimed n0 n1 n2 = true /\
  fst (refinement_iteration reference eq_settings stale_problem stale_results
         (1 # 1000000000)%Q 1 (stale_state 0)) = None /\
  fst (refinement_iteration reference eq_settings stale_problem stale_results
         (1 # 1000000000)%Q 1 (stale_state 1)) = None /\
  (it (stale_state 2) < nb_iterative_refinement eq_settings)%Z /\
  fst (solve_and_refine reference eq_settings stale_problem stale_results stale_work
         (1 # 1000000000)%Q 1) = IterationBound.
Proof. vm_compute. repeat split; reflexivity. Qed.

Lemma refinement_iteration_break_rule_witness :
  (it_stability (stale_state 0) = 0 \/ it_stability (stale_state 0) = 1)%Z /\
  fst (refinement_iteration reference eq_settings stale_problem stale_results
         (1 # 1000000000)%Q 1 (stale_state 0)) = None.
Proof.
  split; [left; reflexivity|].
  rewrite (refinement_iteration_break_rule reference eq_settings stale_problem
             stale_results (1 # 1000000000)%Q 1 (stale_state 0) (or_introl eq_refl)).
  vm_compute. reflexivity.
Defined.

(** C6, as stated, fails: at x = 0 the unconstrained problem passes the
    primal test and fails the dual one (residual 1/1000 against 1e-9), and
    [rho = 1e-6] differs from [refactor_rho_threshold = 1e-7]; the residual is
    below [refactor_dual_feasibility_threshold = 1/100], and [rho] is left.
    And on the steep problem, where [rho] is at [refactor_rho_threshold]
    already and the claimed trigger is off, the pass still rebuilds the
    factorization: the linear solve of the inner step finds the stale engine
    and falls back on a factorization of the KKT matrix. *)
Lemma outer_iteration_keeps_rho_below_dual_threshold :
  (let s := eq_settings in
   let r := small_results MaxIterReached in
   let r1 := set_n_ext (n_ext r + 1)%Z r in
   let wp := global_primal_residual reference small_problem r1 small_work in
   let wd := global_dual_residual reference small_problem r1 (fst wp) in
   let is_primal_feasible :=
     (primal_feasibility_lhs (snd wp) <=? rhs_pri s (fst wd) (snd wp))%S in
   let is_dual_feasible :=
     (dual_feasibility_lhs (snd wd) <=? rhs_dua s (fst wd) (snd wd))%S in
   refactor_trigger_claimed s r is_primal_feasible is_dual_feasible = true /\
   rho (iteration_results
          (outer_iteration reference s small_problem (1 # 10)%Q (1 # 1000000000)%Q 0%Z
             r small_work start_tolerances))
   = (1 # 1000000)%Q /\
   refactor_rho_threshold s = (1 # 10000000)%Q) /\
  (let s := eq_settings in
   let r := steep_results in
   let r1 := set_n_ext (n_ext r + 1)%Z r in
   let wp := global_primal_residual reference steep_problem r1 steep_work in
   let wd := global_dual_residual reference steep_problem r1 (fst wp) in
   let is_primal_feasible :=
     (primal_feasibility_lhs (snd wp) <=? rhs_pri s (fst wd) (snd wp))%S in
   let is_dual_feasible :=
     (dual_feasibility_lhs (snd wd) <=? rhs_dua s (fst wd) (snd wd))%S in
   let pass :=
     outer_iteration reference s steep_problem (1 # 10)%Q (1 # 1000000000)%Q 0%Z
       r steep_work start_tolerances in
   refactor_trigger_claimed s r is_primal_feasible is_dual_feasible = false /\
   ldl steep_work = [[(1 # 4)%Q]] /\
   ldl (iteration_workspace pass) = [[(10000001 # 10000000)%Q]] /\
   rho (iteration_results pass) = refactor_rho_threshold s).
Proof. split; vm_compute; repeat split; reflexivity. Qed.

(** C7, as stated, fails: with a previous primal residual of 2^-60, new
    residuals 2^-58 and 1, and [mu_in = 1e5], both ratios to the previous
    primal residual are at least 1, and the pending penalties are left,
    since 2^-58 / max(2^-60, 2^-52) is below 1. *)
Lemma cold_restart_guarded_by_machine_epsilon :
  let previous := (1 # 1152921504606846976)%Q in
  let primal_new := (1 # 288230376151711744)%Q in
  cold_restart_claimed cold_results previous primal_new 1%Q = true /\
  cold_restart eq_settings cold_results previous primal_new 1%Q cold_pending
  = cold_pending /\
  new_bcl_mu_in cold_pending <> cold_reset_mu_in eq_settings.
Proof. vm_compute. repeat split; discriminate. Qed.

Lemma warm_start_partial_guess_discarded_witness :
  x (fst (warm_start (Some [1%Q]) None (Some [2%Q]) corr_results eq_settings)) = [0%Q] /\
  z (fst (warm_start (Some [1%Q]) None (Some [2%Q]) corr_results eq_settings)) = [0%Q].
Proof.
  destruct (warm_start_partial_guess_discarded (Some [1%Q]) None (Some [2%Q])
              corr_results eq_settings) as (Hx & _ & Hz & _).
  - cbn. lia.
  - cbn. lia.
  - right. left. reflexivity.
  - split; [exact Hx | exact Hz].
Defined.

Lemma bcl_update_bad_step_rolls_back_duals_only_witness :
  let r' := fst (fst (bcl_update eq_settings corr_problem corr_results rolled_work 1%Q
                        start_tolerances (1 # 10)%Q (1 # 1000000000)%Q unit_pending)) in
  y r' = [5%Q] /\ z r' = [7%Q] /\ x r' = [0%Q].
Proof.
  cbv zeta.
  apply (bcl_update_bad_step_rolls_back_duals_only eq_settings corr_problem corr_results
           rolled_work 1%Q start_tolerances (1 # 10)%Q (1 # 1000000000)%Q unit_pending).
  reflexivity.
Defined.

Lemma setup_warm_start_with_previous_result_witness :
  let out := setup reference (H eq_problem) (g eq_problem) (A eq_problem) (b eq_problem)
               (C eq_problem) (u eq_problem) (l eq_problem) warm_settings eq_problem eq_work
               warm_results tt KEEP in
  ldl (snd (fst (fst out))) = eq_kkt /\ x (snd (fst out)) = x warm_results.
Proof.
  cbv zeta.
  destruct (setup_warm_start_with_previous_result reference
              (H eq_problem) (g eq_problem) (A eq_problem) (b eq_problem)
              (C eq_problem) (u eq_problem) (l eq_problem)
              warm_settings eq_problem eq_work warm_results tt KEEP eq_refl)
    as ((Hldl & _) & Hr).
  split; [exact Hldl|]. rewrite Hr. reflexivity.
Defined.

(** C5, as stated, fails: with [beta_bcl = 0] a good step at [mu_in = 2]
    leaves [bcl_eta_ext] at 1. *)
Lemma bcl_update_good_step_beta_zero :
  let out := bcl_update (real_settings 0%R) real_problem real_results real_work 0%R
               real_tolerances 1%R 0%R real_pending in
  (0 <= bcl_eta_ext real_tolerances)%R /\ (1 < mu_in real_results)%R /\
  bcl_eta_ext (snd (fst out)) = bcl_eta_ext real_tolerances /\
  ~ (bcl_eta_ext (snd (fst out)) < bcl_eta_ext real_tolerances)%R.
Proof.
  cbv zeta.
  assert (Hsame :
    bcl_eta_ext (snd (fst (bcl_update (real_settings 0%R) real_problem real_results
                             real_work 0%R real_tolerances 1%R 0%R real_pending))) = 1%R).
  { unfold bcl_update.
    change (sleb 0%R (bcl_eta_ext real_tolerances)) with (Rleb 0 1).
    unfold Rleb. destruct (Rle_dec 0 1) as [_|Hno]; [|exfalso; apply Hno; lra].
    cbn [fst snd bcl_eta_ext].
    change (1 * Rpow (/ 2) 0 = 1)%R. unfold Rpow.
    destruct (Rlt_dec 0 (/ 2)) as [_|Hno]; [|exfalso; apply Hno; lra].
    unfold Rpower. rewrite Rmult_0_l, exp_0. lra. }
  rewrite Hsame. cbn. repeat split; lra.
Qed.

Lemma bcl_update_good_step_tightens_witness :
  (bcl_eta_ext (snd (fst (bcl_update (real_settings (9 / 10)%R) real_problem real_results
                            real_work 0%R real_tolerances 1%R 0%R real_pending)))
   < bcl_eta_ext real_tolerances)%R.
Proof.
  apply (bcl_update_good_step_tightens (real_settings (9 / 10)%R)
           real_problem real_results real_work 0%R real_tolerances 1%R 0%R real_pending);
    cbn; try reflexivity; lra.
Defined.

(** * Further properties of the dense helpers (helpers.hpp) *)

Section Helpers.
Context {T : Type} {ST : Scalar T} {Ldl Ruiz : Type}.
Variable ext : Collaborators T Ldl Ruiz.
Local Open Scope scalar_scope.

(** X1: [update] replaces each of the seven members of the model exactly
    when the matching input is supplied, independently of the other six, and
    never writes the stored dimensions, whatever the sizes of the inputs. *)
Theorem update_replaces_what_is_supplied
    (H_ : option (list (list T))) (g_ : option (list T)) (A_ : option (list (list T)))
    (b_ : option (list T)) (C_ : option (list (list T))) (u_ l_ : option (list T))
    (model : QPData T) :
  let m' := update H_ g_ A_ b_ C_ u_ l_ model in
  H m' = value_or H_ (H model) /\ g m' = value_or g_ (g model) /\
  A m' = value_or A_ (A model) /\ b m' = value_or b_ (b model) /\
  C m' = value_or C_ (C model) /\ u m' = value_or u_ (u model) /\
  l m' = value_or l_ (l model) /\
  dim m' = dim model /\ n_eq m' = n_eq model /\ n_in m' = n_in model.
Proof.
  destruct H_, g_, A_, b_, C_, u_, l_; cbn; repeat split; reflexivity.
Qed.

(** X2: an [update] with no input supplied is the identity, and an [update]
    applied twice with the same inputs does what one does. *)
Theorem update_idempotent
    (H_ : option (list (list T))) (g_ : option (list T)) (A_ : option (list (list T)))
    (b_ : option (list T)) (C_ : option (list (list T))) (u_ l_ : option (list T))
    (model : QPData T) :
  update None None None None None None None model = model /\
  update H_ g_ A_ b_ C_ u_ l_ (update H_ g_ A_ b_ C_ u_ l_ model)
  = update H_ g_ A_ b_ C_ u_ l_ model.
Proof.
  split; [reflexivity|].
  destruct H_, g_, A_, b_, C_, u_, l_; reflexivity.
Qed.

(** X3: [warm_start] in all four dimension cases.  The guess is stored when
    x is supplied together with the dual vectors of the constraint kinds the
    results have rows for; a dual vector of a kind without rows is never
    stored, supplied or not; an incomplete guess changes nothing.  The other
    members of the results are kept and the policy becomes [WARM_START]. *)
Theorem warm_start_stores_complete_guess
    (x_wm y_wm z_wm : option (list T)) (r : QPResults T) (s : QPSettings T) :
  let r' := fst (warm_start x_wm y_wm z_wm r s) in
  let complete := warm_start_complete x_wm y_wm z_wm r in
  x r' = (if complete then value_or x_wm (x r) else x r) /\
  y r' = (if complete && negb (length (y r) =? 0)%nat then value_or y_wm (y r) else y r) /\
  z r' = (if complete && negb (length (z r) =? 0)%nat then value_or z_wm (z r) else z r) /\
  info_kept r r' /\ n_tot r' = n_tot r /\ n_c r' = n_c r /\ objValue r' = objValue r /\
  initial_guess_policy (snd (warm_start x_wm y_wm z_wm r s)) = WARM_START.
Proof.
  cbv zeta. unfold warm_start, warm_start_complete, info_kept.
  destruct (length (y r)) as [|ny], (length (z r)) as [|nz];
    destruct x_wm, y_wm, z_wm; cbn; repeat split; try reflexivity; lia.
Qed.

(** X4: whatever the policy, [setup] hands the seven unscaled inputs to
    [scale_qp_in_place] of the preconditioner it is given, with
    [execute_preconditioner] set under the directive [EXECUTE] only, and stores
    what comes back in the scaled buffers and as the new preconditioner.  The
    directive [IDENTITY] is treated exactly as [KEEP]: the preconditioner is
    not replaced by the identity. *)
Theorem setup_equilibrates_inputs
    (H_ : list (list T)) (g_ : list T) (A_ : list (list T)) (b_ : list T)
    (C_ : list (list T)) (u_ l_ : list T)
    (s : QPSettings T) (m : QPData T) (w : QPWorkspace T Ldl Ruiz) (r : QPResults T)
    (rz : Ruiz) (ps : PreconditionerStatus) :
  let out := setup ext H_ g_ A_ b_ C_ u_ l_ s m w r rz ps in
  let w' := snd (fst (fst out)) in
  let scaled :=
    scale_qp_in_place ext rz
      {| vH := H_; vg := g_; vA := A_; vb := b_; vC := C_; vu := u_; vl := l_ |}
      (match ps with EXECUTE => true | IDENTITY | KEEP => false end) s in
  snd out = fst scaled /\
  mat w' H_scaled = vH (snd scaled) /\ vec w' g_scaled = vg (snd scaled) /\
  mat w' A_scaled = vA (snd scaled) /\ vec w' b_scaled = vb (snd scaled) /\
  mat w' C_scaled = vC (snd scaled) /\ vec w' u_scaled = vu (snd scaled) /\
  vec w' l_scaled = vl (snd scaled) /\
  setup ext H_ g_ A_ b_ C_ u_ l_ s m w r rz IDENTITY
  = setup ext H_ g_ A_ b_ C_ u_ l_ s m w r rz KEEP.
Proof.
  cbv zeta. unfold setup.
  destruct (initial_guess_policy s), ps; cbn [fst snd];
    repeat (split; [vm_compute; reflexivity|]); reflexivity.
Qed.

(** X5: whatever the policy and the directive, [setup] stores the seven
    inputs in the model, keeps its dimensions, and records the norms of the
    unscaled b, u, l and g, so that the right-hand sides of the two stopping
    tests of [qp_solve] are the maxima of the residual norms with these;
    [correction_guess_rhs_g] is the norm of the scaled g. *)
Theorem setup_records_problem_norms
    (H_ : list (list T)) (g_ : list T) (A_ : list (list T)) (b_ : list T)
    (C_ : list (list T)) (u_ l_ : list T)
    (s : QPSettings T) (m : QPData T) (w : QPWorkspace T Ldl Ruiz) (r : QPResults T)
    (rz : Ruiz) (ps : PreconditionerStatus)
    (p : PrimalResidual T) (d : DualResidual T) :
  let out := setup ext H_ g_ A_ b_ C_ u_ l_ s m w r rz ps in
  let m' := fst (fst (fst out)) in
  let w' := snd (fst (fst out)) in
  (H m' = H_ /\ g m' = g_ /\ A m' = A_ /\ b m' = b_ /\ C m' = C_ /\ u m' = u_ /\
   l m' = l_ /\ dim m' = dim m /\ n_eq m' = n_eq m /\ n_in m' = n_in m) /\
  primal_feasibility_rhs w' p
  = max2 (max2 (primal_feasibility_eq_rhs_0 p) (primal_feasibility_in_rhs_0 p))
         (max2 (max2 (infty_norm b_) (infty_norm u_)) (infty_norm l_)) /\
  dual_feasibility_rhs w' d
  = max2 (max2 (dual_feasibility_rhs_3 d) (dual_feasibility_rhs_0 d))
         (max2 (dual_feasibility_rhs_1 d) (infty_norm g_)) /\
  scal w' correction_guess_rhs_g = infty_norm (vec w' g_scaled).
Proof.
  cbv zeta. unfold setup, primal_feasibility_rhs, dual_feasibility_rhs.
  destruct (initial_guess_policy s), ps; cbn [fst snd];
    (split; [repeat split; reflexivity|]);
    (split; [vm_compute; reflexivity|]); (split; vm_compute; reflexivity).
Qed.

(** X6: the policy table of [setup].  Three policies clean the results, the
    cold start with the previous result applies [cold_start] and rescales x,
    y, z with the preconditioner, the warm start with the previous result
    applies [cleanup_statistics] and rescales; every policy but the last
    starts from the cleaned workspace, whose factorization, bijection map and
    KKT matrix [setup] passes on. *)
Theorem setup_policy_table
    (H_ : list (list T)) (g_ : list T) (A_ : list (list T)) (b_ : list T)
    (C_ : list (list T)) (u_ l_ : list T)
    (s : QPSettings T) (m : QPData T) (w : QPWorkspace T Ldl Ruiz) (r : QPResults T)
    (rz : Ruiz) (ps : PreconditionerStatus) :
  let out := setup ext H_ g_ A_ b_ C_ u_ l_ s m w r rz ps in
  let w' := snd (fst (fst out)) in
  let r' := snd (fst out) in
  let rescale r0 :=
    set_z (scale_dual_in_place_in ext (snd out) (z r0))
      (set_y (scale_dual_in_place_eq ext (snd out) (y r0))
         (set_x (scale_primal_in_place ext (snd out) (x r0)) r0)) in
  let w0 := match initial_guess_policy s with
            | WARM_START_WITH_PREVIOUS_RESULT => w
            | _ => work_cleanup ext w
            end in
  r' = match initial_guess_policy s with
       | COLD_START_WITH_PREVIOUS_RESULT => rescale (results_cold_start ext r)
       | WARM_START_WITH_PREVIOUS_RESULT => rescale (results_cleanup_statistics ext r)
       | _ => results_cleanup ext r
       end /\
  ldl w' = ldl w0 /\ current_bijection_map w' = current_bijection_map w0 /\
  mat w' kkt = mat w0 kkt /\ bvec w' = bvec w0 /\ ruiz w' = ruiz w0.
Proof.
  cbv zeta. unfold setup.
  destruct (initial_guess_policy s), ps; repeat split; reflexivity.
Qed.

End Helpers.

(** * Further properties of the linear solves (solver.hpp:112-296) *)

Section LinearSolves.
Context {T : Type} {ST : Scalar T} {Ldl Ruiz : Type}.
Variable ext : Collaborators T Ldl Ruiz.
Local Open Scope scalar_scope.

Lemma vec_set_vec_other (g f : WVec) (v : list T) (w : QPWorkspace T Ldl Ruiz) :
  g <> f -> vec (set_vec g v w) f = vec w f.
Proof. intros Hne. cbn [vec set_vec]. destruct (WVec_eq_dec g f); congruence. Qed.

Lemma vec_set_vec_same (g : WVec) (v : list T) (w : QPWorkspace T Ldl Ruiz) :
  vec (set_vec g v w) g = v.
Proof. cbn [vec set_vec]. destruct (WVec_eq_dec g g); congruence. Qed.

Lemma solve_frame_refl (w : QPWorkspace T Ldl Ruiz) : solve_frame w w.
Proof. unfold solve_frame. repeat split; reflexivity. Qed.

Lemma solve_frame_trans (w1 w2 w3 : QPWorkspace T Ldl Ruiz) :
  solve_frame w1 w2 -> solve_frame w2 w3 -> solve_frame w1 w3.
Proof.
  unfold solve_frame.
  intros (a1 & a2 & a3 & a4 & a5 & a6 & a7) (b1 & b2 & b3 & b4 & b5 & b6 & b7).
  repeat split; try congruence.
  intros f Hd He. rewrite b7, a7; auto.
Qed.

Lemma solve_frame_set_dw_aug (w : QPWorkspace T Ldl Ruiz) v :
  solve_frame w (set_vec dw_aug v w).
Proof.
  unfold solve_frame. repeat split; try reflexivity.
  intros f Hd He. destruct f; try reflexivity; congruence.
Qed.

Lemma solve_frame_set_err (w : QPWorkspace T Ldl Ruiz) v :
  solve_frame w (set_vec err v w).
Proof.
  unfold solve_frame. repeat split; try reflexivity.
  intros f Hd He. destruct f; try reflexivity; congruence.
Qed.

Lemma iterative_residual_writes_err (m : QPData T) r (w : QPWorkspace T Ldl Ruiz) k :
  exists v, iterative_residual m r w k = set_vec err v w.
Proof. unfold iterative_residual. cbv zeta. eexists. reflexivity. Qed.

Lemma solve_frame_iterative_residual (m : QPData T) r (w : QPWorkspace T Ldl Ruiz) k :
  solve_frame w (iterative_residual m r w k).
Proof.
  destruct (iterative_residual_writes_err m r w k) as [v ->]. apply solve_frame_set_err.
Qed.

Lemma solve_frame_first_solve m r (w : QPWorkspace T Ldl Ruiz) k :
  solve_frame w (first_solve ext m r w k).
Proof.
  unfold first_solve. cbv zeta.
  eapply solve_frame_trans; [|apply solve_frame_iterative_residual].
  eapply solve_frame_trans; apply solve_frame_set_dw_aug.
Qed.

Lemma solve_frame_refine_once m r (w : QPWorkspace T Ldl Ruiz) k :
  solve_frame w (refine_once ext m r w k).
Proof.
  unfold refine_once. cbv zeta.
  eapply solve_frame_trans; [|apply solve_frame_iterative_residual].
  eapply solve_frame_trans; [|apply solve_frame_set_err].
  eapply solve_frame_trans; [apply solve_frame_set_err|apply solve_frame_set_dw_aug].
Qed.

(** What each way out of a pass of the refinement loop establishes. *)
Lemma refinement_iteration_exit s m r eps k (st : RefineState T Ldl Ruiz) :
  let out := refinement_iteration ext s m r eps k st in
  solve_frame (rwork st) (rwork (snd out)) /\
  match fst out with
  | Some ResidualBelowEps =>
      snd out = st /\ (err_norm k (rwork st) >=? eps) = false
  | Some IterationBound =>
      snd out = st /\ (err_norm k (rwork st) >=? eps) = true /\
      (nb_iterative_refinement s <= it st)%Z
  | Some StabilityBreak =>
      it (snd out) = (it st + 1)%Z /\ (it st < nb_iterative_refinement s)%Z /\
      it_stability (snd out) = 2%Z /\
      (err_norm k (rwork (snd out)) >? preverr (snd out)) = true
  | Some OutOfFuel => False
  | None => it (snd out) = (it st + 1)%Z /\ (it st < nb_iterative_refinement s)%Z
  end.
Proof.
  cbv zeta. unfold refinement_iteration.
  destruct (_ >=? eps) eqn:Eguard; cbn [fst snd].
  2:{ split; [apply solve_frame_refl|]. split; reflexivity. }
  destruct (it st >=? nb_iterative_refinement s)%Z eqn:Ebound; cbn [fst snd].
  { split; [apply solve_frame_refl|]. repeat split.
    rewrite Z.geb_leb in Ebound. apply Z.leb_le in Ebound. exact Ebound. }
  rewrite Z.geb_leb in Ebound. apply Z.leb_gt in Ebound.
  cbv zeta.
  destruct (_ >? preverr st) eqn:Einc.
  - destruct (it_stability st + 1 =? 2)%Z eqn:Estab; cbn [fst snd it it_stability rwork preverr];
      (split; [apply solve_frame_refine_once|]).
    + apply Z.eqb_eq in Estab. repeat split; try assumption.
    + split; [reflexivity|assumption].
  - cbn [Z.eqb fst snd it rwork]. split; [apply solve_frame_refine_once|].
    split; [reflexivity|assumption].
Qed.

Lemma refinement_loop_exit s m r eps k fuel :
  forall st : RefineState T Ldl Ruiz,
  (nb_iterative_refinement s <= it st + Z.of_nat fuel)%Z ->
  let out := refinement_loop ext fuel s m r eps k st in
  solve_frame (rwork st) (rwork (snd out)) /\
  (it st <= it (snd out) <= Z.max (it st) (nb_iterative_refinement s))%Z /\
  match fst out with
  | ResidualBelowEps => (err_norm k (rwork (snd out)) >=? eps) = false
  | IterationBound =>
      (err_norm k (rwork (snd out)) >=? eps) = true /\
      (nb_iterative_refinement s <= it (snd out))%Z
  | StabilityBreak =>
      it_stability (snd out) = 2%Z /\
      (err_norm k (rwork (snd out)) >? preverr (snd out)) = true
  | OutOfFuel => False
  end.
Proof.
  induction fuel as [|fuel IH]; intros st Hfuel; cbv zeta; cbn [refinement_loop];
    pose proof (refinement_iteration_exit s m r eps k st) as Hpass; cbv zeta in Hpass;
    destruct (refinement_iteration ext s m r eps k st) as [[stop|] st'];
    cbn [fst snd] in *; destruct Hpass as [Hframe Hpass].
  - split; [exact Hframe|].
    destruct stop; try contradiction.
    + destruct Hpass as [-> Hguard]. split; [lia|exact Hguard].
    + destruct Hpass as (-> & Hguard & Hnb). split; [lia|]. split; assumption.
    + destruct Hpass as (Hit & Hlt & Hstab & Hinc). split; [lia|]. split; assumption.
  - lia.
  - split; [exact Hframe|].
    destruct stop; try contradiction.
    + destruct Hpass as [-> Hguard]. split; [lia|exact Hguard].
    + destruct Hpass as (-> & Hguard & Hnb). split; [lia|]. split; assumption.
    + destruct Hpass as (Hit & Hlt & Hstab & Hinc). split; [lia|]. split; assumption.
  - destruct Hpass as [Hit Hlt].
    assert (Hfuel' : (nb_iterative_refinement s <= it st' + Z.of_nat fuel)%Z) by lia.
    specialize (IH st' Hfuel'). cbv zeta in IH.
    destruct (refinement_loop ext fuel s m r eps k st') as [stop st''].
    cbn [fst snd] in *. destruct IH as (Hframe' & Hbound & Hexit).
    split; [eapply solve_frame_trans; eassumption|]. split; [lia|exact Hexit].
Qed.

Lemma solve_frame_solve_and_refine s m r (w : QPWorkspace T Ldl Ruiz) eps k :
  solve_frame w (rwork (snd (solve_and_refine ext s m r w eps k))).
Proof.
  unfold solve_and_refine. cbv zeta.
  match goal with
  | |- context [refinement_loop ext ?fuel s m r eps k ?st] =>
      pose proof (refinement_loop_exit s m r eps k fuel st) as Hloop
  end.
  cbn [it rwork] in Hloop. cbv zeta in Hloop.
  destruct Hloop as (Hframe & _); [lia|].
  eapply solve_frame_trans; [apply solve_frame_first_solve|exact Hframe].
Qed.


(** What the re-insertion of the active rows writes: [dw_aug] and the
    factorization. *)
Lemma reinsert_active_rows_frame (m : QPData T) r (w : QPWorkspace T Ldl Ruiz) :
  let w' := reinsert_active_rows ext m r w in
  mat w' = mat w /\ bvec w' = bvec w /\ scal w' = scal w /\ ruiz w' = ruiz w /\
  current_bijection_map w' = current_bijection_map w /\
  forall f, f <> dw_aug -> vec w' f = vec w f.
Proof.
  cbv zeta. unfold reinsert_active_rows.
  apply fold_left_invariant with
    (P := fun w' : QPWorkspace T Ldl Ruiz =>
            mat w' = mat w /\ bvec w' = bvec w /\ scal w' = scal w /\ ruiz w' = ruiz w /\
            current_bijection_map w' = current_bijection_map w /\
            forall f, f <> dw_aug -> vec w' f = vec w f).
  - intros w1 j H1. apply fold_left_invariant; [|exact H1].
    intros w2 i (a1 & a2 & a3 & a4 & a5 & a6).
    destruct (_ =? _)%nat; [|repeat split; assumption].
    cbv zeta. cbn [mat bvec scal ruiz current_bijection_map set_vec set_ldl].
    repeat split; try assumption.
    intros f Hf. cbn [vec]. destruct f; try (apply a6; assumption); congruence.
  - repeat split; reflexivity.
Qed.


(** X8: [iterative_solve_with_permut_fact] never writes the scaled problem,
    the masks, the scalars, the preconditioner or the bijection map; of the
    buffers it writes [dw_aug], [err] and [rhs] only, and of the matrices the
    KKT matrix only.  It hands back [rhs] with its first [inner_pb_dim]
    entries zeroed. *)
Theorem iterative_solve_frame
    (s : QPSettings T) (m : QPData T) (r : QPResults T) (w : QPWorkspace T Ldl Ruiz)
    (eps : T) (k : nat) :
  let w' := iterative_solve_with_permut_fact ext s m r w eps k in
  (forall f, f <> kkt -> mat w' f = mat w f) /\
  bvec w' = bvec w /\ scal w' = scal w /\ ruiz w' = ruiz w /\
  current_bijection_map w' = current_bijection_map w /\
  (forall f, f <> dw_aug -> f <> err -> f <> rhs -> vec w' f = vec w f) /\
  vec w' rhs = set_head k (vzero k) (vec w rhs).
Proof.
  cbv zeta. unfold iterative_solve_with_permut_fact. cbv zeta.
  set (w0 := set_vec err (setZero (vec w err)) w).
  pose proof (solve_frame_solve_and_refine s m r w0 eps k) as F1.
  set (w1 := rwork (snd (solve_and_refine ext s m r w0 eps k))) in *.
  assert (F01 : solve_frame w w1).
  { eapply solve_frame_trans; [apply solve_frame_set_err|exact F1]. }
  clear F1. clearbody w1. clear w0.
  destruct (_ >=? std_max eps (eps_refact s)).
  - match goal with
    | |- context [reinsert_active_rows ext m r ?wa] =>
        pose proof (reinsert_active_rows_frame m r wa) as F2; cbv zeta in F2;
        set (w2 := reinsert_active_rows ext m r wa) in *
    end.
    match goal with
    | |- context [solve_and_refine ext s m r ?wb eps k] =>
        pose proof (solve_frame_solve_and_refine s m r wb eps k) as F3;
        set (w3 := rwork (snd (solve_and_refine ext s m r wb eps k))) in *
    end.
    clearbody w3.
    destruct F01 as (a1 & a2 & a3 & a4 & a5 & a6 & a7).
    destruct F2 as (b1 & b2 & b3 & b4 & b5 & b6).
    destruct F3 as (c1 & c2 & c3 & c4 & c5 & c6 & c7).
    cbn [mat bvec scal ruiz current_bijection_map set_vec set_mat set_ldl]
      in b1, b2, b3, b4, b5, c1, c2, c3, c5, c6.
    clearbody w2.
    cbn [mat bvec scal ruiz current_bijection_map set_vec].
    repeat split; try congruence.
    + intros f Hf. rewrite c1, b1.
      destruct f; try congruence; cbv beta; cbn [WMat_eq_dec]; rewrite a1; reflexivity.
    + intros f Hd He Hr. rewrite vec_set_vec_other by congruence.
      rewrite c7 by assumption. rewrite vec_set_vec_other by congruence.
      rewrite b6 by assumption. cbn [vec set_ldl set_mat].
      rewrite vec_set_vec_other by congruence. apply a7; assumption.
    + rewrite vec_set_vec_same. f_equal.
      rewrite c7 by congruence. rewrite vec_set_vec_other by congruence.
      rewrite b6 by congruence. cbn [vec set_ldl set_mat].
      rewrite vec_set_vec_other by congruence. apply a7; congruence.
  - destruct F01 as (a1 & a2 & a3 & a4 & a5 & a6 & a7).
    cbn [mat bvec scal ruiz current_bijection_map set_vec].
    repeat split; try congruence.
    + intros f Hd He Hr. rewrite vec_set_vec_other by congruence. apply a7; assumption.
    + rewrite vec_set_vec_same. f_equal. apply a7; congruence.
Qed.

(** X9: when the first solve ends with a residual norm below
    [max eps eps_refact], [iterative_solve_with_permut_fact] keeps the
    factorization and the KKT matrix it was given: a refactorization takes
    place only after a refinement that failed. *)
Theorem iterative_solve_keeps_factorization
    (s : QPSettings T) (m : QPData T) (r : QPResults T) (w : QPWorkspace T Ldl Ruiz)
    (eps : T) (k : nat) :
  let first := solve_and_refine ext s m r (set_vec err (setZero (vec w err)) w) eps k in
  (err_norm k (rwork (snd first)) >=? std_max eps (eps_refact s)) = false ->
  let w' := iterative_solve_with_permut_fact ext s m r w eps k in
  ldl w' = ldl w /\ mat w' kkt = mat w kkt /\
  vec w' dw_aug = vec (rwork (snd first)) dw_aug.
Proof.
  cbv zeta. intros Hbelow. unfold iterative_solve_with_permut_fact. cbv zeta.
  rewrite Hbelow.
  set (w0 := set_vec err (setZero (vec w err)) w).
  pose proof (solve_frame_solve_and_refine s m r w0 eps k) as F1.
  destruct F1 as (a1 & a2 & a3 & a4 & a5 & a6 & a7).
  cbn [ldl mat vec set_vec]. repeat split.
  - rewrite a4. reflexivity.
  - rewrite a1. reflexivity.
Qed.

End LinearSolves.

(** * Further properties of the penalty update (solver.hpp:83-110) *)

Section PenaltyUpdate.
Context {T : Type} {ST : Scalar T} {Ldl Ruiz : Type}.
Variable ext : Collaborators T Ldl Ruiz.
Local Open Scope scalar_scope.

Lemma set_coeff_vhead (n k : nat) (c : T) : forall v : list T,
  vhead n (set_coeff k c v) = set_coeff k c (vhead n v).
Proof.
  unfold vhead. revert k.
  induction n as [|n IH]; intros k v.
  - destruct v, k; reflexivity.
  - destruct v as [|e v]; [destruct k; reflexivity|].
    destruct k as [|k]; cbn [set_coeff firstn]; [reflexivity|].
    rewrite IH. reflexivity.
Qed.

Lemma set_coeff_twice (k : nat) (c c' : T) : forall v : list T,
  set_coeff k c (set_coeff k c' v) = set_coeff k c v.
Proof.
  induction k as [|k IH]; intros [|e v]; cbn [set_coeff]; try reflexivity.
  rewrite IH. reflexivity.
Qed.

Lemma set_coeff_zero_block (n k : nat) (t : list T) :
  set_coeff k s0 (vzero n ++ t) = vzero n ++ t \/ (n <= k)%nat.
Proof.
  unfold vzero. revert k.
  induction n as [|n IH]; intros k; [right; lia|].
  destruct k as [|k]; [left; reflexivity|].
  destruct (IH k) as [E | Hle]; [left|right; lia].
  cbn [repeat app set_coeff]. rewrite E. reflexivity.
Qed.

Lemma vhead_zero_block (n : nat) (t : list T) : vhead n (vzero n ++ t) = vzero n.
Proof.
  unfold vhead, vzero. induction n as [|n IH]; [reflexivity|].
  cbn [repeat app firstn]. rewrite IH. reflexivity.
Qed.

Lemma fold_left_ext_nat (A : Type) (f g : A -> nat -> A) (xs : list nat) (a : A) :
  (forall a i, f a i = g a i) -> fold_left f xs a = fold_left g xs a.
Proof.
  intros Hfg. revert a. induction xs as [|e xs IH]; intros a; cbn [fold_left];
    [reflexivity|]. rewrite Hfg. apply IH.
Qed.

Lemma guarded_fold (A : Type) (f : A -> nat -> A) (k : nat) (a : A) :
  (if (0 <? k)%nat then fold_left f (seq 0 k) a else a) = fold_left f (seq 0 k) a.
Proof. destruct k; reflexivity. Qed.

(** The rank-one updates of one block of the diagonal: each sees the unit
    vector of its row, and [dw_aug] is handed back as it was. *)
Lemma rank_one_block (n base : nat) (diff : T) (t : list T) (idx : list nat) :
  (forall i, In i idx -> (base + i < n)%nat) ->
  forall w : QPWorkspace T Ldl Ruiz,
  vec w dw_aug = vzero n ++ t ->
  let step (w : QPWorkspace T Ldl Ruiz) (i : nat) :=
    let w := set_vec dw_aug (set_coeff (base + i) s1 (vec w dw_aug)) w in
    let w := set_ldl (ldl_rank_one_update ext (ldl w) (vhead n (vec w dw_aug)) diff) w in
    set_vec dw_aug (set_coeff (base + i) s0 (vec w dw_aug)) w in
  let w' := fold_left step idx w in
  ldl w' = fold_left (fun L i => ldl_rank_one_update ext L (basis n (base + i)) diff)
             idx (ldl w) /\
  vec w' dw_aug = vzero n ++ t /\
  mat w' = mat w /\ bvec w' = bvec w /\ scal w' = scal w /\ ruiz w' = ruiz w /\
  current_bijection_map w' = current_bijection_map w /\
  forall f, f <> dw_aug -> vec w' f = vec w f.
Proof.
  cbv zeta. induction idx as [|i idx IH]; intros Hidx w Hdw.
  - cbn [fold_left]. repeat split; try reflexivity. exact Hdw.
  - cbn [fold_left].
    match goal with
    | |- context [fold_left ?f idx ?w1] =>
        assert (Hdw1 : vec w1 dw_aug = vzero n ++ t);
        [| assert (Hldl1 : ldl w1 = ldl_rank_one_update ext (ldl w) (basis n (base + i)) diff);
           [| specialize (IH (fun j Hj => Hidx j (or_intror Hj)) w1 Hdw1);
              destruct IH as (I1 & I2 & I3 & I4 & I5 & I6 & I7 & I8) ] ]
    end.
    + rewrite vec_set_vec_same. cbn [vec set_ldl]. rewrite vec_set_vec_same.
      rewrite set_coeff_twice, Hdw.
      destruct (set_coeff_zero_block n (base + i) t) as [E | Hle]; [exact E|].
      specialize (Hidx i (or_introl eq_refl)). lia.
    + cbn [ldl set_vec set_ldl]. rewrite vec_set_vec_same.
      rewrite set_coeff_vhead, Hdw, vhead_zero_block. reflexivity.
    + rewrite I1, Hldl1. repeat split; try assumption.
      intros f Hf. rewrite I8 by assumption.
      rewrite vec_set_vec_other by congruence. cbn [vec set_ldl].
      apply vec_set_vec_other. congruence.
Qed.

(** X10: [mu_update] is a sequence of rank-one updates of the factorization,
    one per equality row with weight [mu_eq_inv - mu_eq_new_inv], then one per
    active inequality slot with weight [mu_in_inv - mu_in_new_inv], each along
    the unit vector of its row of the KKT matrix, in increasing order of the
    rows.  Nothing else of the workspace changes but the first
    [dim + n_eq + n_c] entries of [dw_aug], which are handed back as zeros. *)
Theorem mu_update_rank_one_updates
    (m : QPData T) (r : QPResults T) (w : QPWorkspace T Ldl Ruiz)
    (mu_eq_new_inv mu_in_new_inv : T) :
  let n := (dim m + n_eq m + n_c r)%nat in
  let w' := mu_update ext m r w mu_eq_new_inv mu_in_new_inv in
  ldl w'
  = fold_left (fun L i => ldl_rank_one_update ext L (basis n (dim m + n_eq m + i))
                            (mu_in_inv r - mu_in_new_inv))
      (seq 0 (n_c r))
      (fold_left (fun L i => ldl_rank_one_update ext L (basis n (dim m + i))
                               (mu_eq_inv r - mu_eq_new_inv))
         (seq 0 (n_eq m)) (ldl w)) /\
  vec w' dw_aug = set_head n (vzero n) (vec w dw_aug) /\
  mat w' = mat w /\ bvec w' = bvec w /\ scal w' = scal w /\ ruiz w' = ruiz w /\
  current_bijection_map w' = current_bijection_map w /\
  forall f, f <> dw_aug -> vec w' f = vec w f.
Proof.
  cbv zeta. unfold mu_update. cbv zeta. rewrite !guarded_fold.
  set (n := (dim m + n_eq m + n_c r)%nat).
  set (w0 := set_vec dw_aug (set_head n (vzero n) (vec w dw_aug)) w).
  assert (H0 : vec w0 dw_aug = vzero n ++ skipn n (vec w dw_aug)).
  { unfold w0. rewrite vec_set_vec_same. unfold set_head. f_equal.
    unfold vzero. apply firstn_all2. rewrite repeat_length. lia. }
  pose proof (rank_one_block n (dim m + 0) (mu_eq_inv r - mu_eq_new_inv)
                (skipn n (vec w dw_aug)) (seq 0 (n_eq m))) as B1.
  cbv zeta in B1.
  destruct (B1 (fun i Hi => ltac:(apply in_seq in Hi; unfold n; lia)) w0 H0)
    as (E1 & E2 & E3 & E4 & E5 & E6 & E7 & E8).
  clear B1.
  match type of E2 with
  | vec ?w1' dw_aug = _ => set (w1 := w1') in *
  end.
  pose proof (rank_one_block n (dim m + n_eq m) (mu_in_inv r - mu_in_new_inv)
                (skipn n (vec w dw_aug)) (seq 0 (n_c r))) as B2.
  cbv zeta in B2.
  destruct (B2 (fun i Hi => ltac:(apply in_seq in Hi; unfold n; lia)) w1 E2)
    as (F1 & F2 & F3 & F4 & F5 & F6 & F7 & F8).
  clear B2.
  split.
  { rewrite F1, E1. f_equal.
    apply fold_left_ext_nat. intros L i. rewrite Nat.add_0_r. reflexivity. }
  split.
  { rewrite F2. unfold set_head. f_equal.
    unfold vzero. symmetry. apply firstn_all2. rewrite repeat_length. lia. }
  split; [rewrite F3, E3; reflexivity|].
  split; [rewrite F4, E4; reflexivity|].
  split; [rewrite F5, E5; reflexivity|].
  split; [rewrite F6, E6; reflexivity|].
  split; [rewrite F7, E7; reflexivity|].
  intros f Hf. rewrite F8, E8 by assumption. unfold w0. apply vec_set_vec_other. congruence.
Qed.

End PenaltyUpdate.

(** * Further properties of the inner and outer loops (solver.hpp:589-975) *)

Section Work.
Context {T : Type} {ST : Scalar T} {Ldl Ruiz : Type}.
Variable ext : Collaborators T Ldl Ruiz.
Local Open Scope scalar_scope.

Lemma grows_by_refl (r : QPResults T) : grows_by 0 0 r r.
Proof. unfold grows_by. lia. Qed.

Lemma grows_by_trans (a b c d : Z) (r1 r2 r3 : QPResults T) :
  grows_by a b r1 r2 -> grows_by c d r2 r3 -> grows_by (a + c) (b + d) r1 r3.
Proof. unfold grows_by. lia. Qed.

Lemma grows_by_weaken (a b a' b' : Z) (r r' : QPResults T) :
  (a <= a')%Z -> (b <= b')%Z -> grows_by a b r r' -> grows_by a' b' r r'.
Proof. unfold grows_by. lia. Qed.

Lemma grows_by_same (r r' : QPResults T) :
  n_tot r' = n_tot r -> n_mu_change r' = n_mu_change r -> grows_by 0 0 r r'.
Proof. unfold grows_by. lia. Qed.

Lemma correction_guess_tail_work (m : QPData T) r (w : QPWorkspace T Ldl Ruiz)
    eps iter e :
  let out := correction_guess_tail m r w eps iter e in
  n_mu_change (snd (fst (fst out))) = n_mu_change r /\
  n_tot (snd (fst (fst out)))
  = match fst (fst (fst out)) with
    | Some _ => (n_tot r + (iter + 1))%Z
    | None => n_tot r
    end /\
  fst (fst (fst out)) <> Some InnerBudget.
Proof.
  cbv zeta. unfold correction_guess_tail.
  destruct (_ <? _).
  - cbn [fst snd]. repeat split. discriminate.
  - pose proof (info_kept_correction_guess_step m r w) as Hstep.
    assert (Htot : n_tot (fst (fst (fst (correction_guess_step m r w)))) = n_tot r)
      by reflexivity.
    destruct (correction_guess_step m r w) as [[[r1 w1] c1] e1].
    cbn [fst snd] in Hstep, Htot. destruct Hstep as (_ & _ & _ & _ & _ & _ & Hmu & _).
    destruct (_ <=? _); cbn [fst snd n_tot n_mu_change set_n_tot];
      (split; [exact Hmu|split; [congruence|discriminate]]).
Qed.

Lemma correction_guess_loop_work s m eps fuel :
  forall iter r w e,
  (0 <= iter <= max_iter_in s)%Z ->
  (iter + Z.of_nat fuel = max_iter_in s + 1)%Z ->
  let out := correction_guess_loop ext fuel s m r w eps iter e in
  n_mu_change (snd (fst (fst out))) = n_mu_change r /\
  match fst (fst (fst out)) with
  | Some InnerBudget => n_tot (snd (fst (fst out))) = (n_tot r + max_iter_in s)%Z
  | Some _ =>
      (n_tot r + iter < n_tot (snd (fst (fst out))) <= n_tot r + max_iter_in s)%Z
  | None => False
  end.
Proof.
  induction fuel as [|fuel IH]; intros iter r w e Hiter Hfuel; cbv zeta;
    cbn [correction_guess_loop]; [lia|].
  destruct (iter =? max_iter_in s)%Z eqn:Ebudget.
  - cbn [fst snd]. split; reflexivity.
  - apply Z.eqb_neq in Ebudget.
    assert (Hdir : n_tot (fst (correction_guess_direction ext s m r w eps)) = n_tot r
                   /\ n_mu_change (fst (correction_guess_direction ext s m r w eps))
                      = n_mu_change r) by (split; reflexivity).
    destruct (correction_guess_direction ext s m r w eps) as [r1 w1].
    cbn [fst snd] in Hdir. destruct Hdir as [Hd1 Hd2].
    pose proof (correction_guess_tail_work m r1 w1 eps iter e) as Htail. cbv zeta in Htail.
    destruct (correction_guess_tail m r1 w1 eps iter e) as [[[stop r2] w2] e2].
    cbn [fst snd] in Htail. destruct Htail as (Ht1 & Ht2 & Ht3).
    destruct stop as [stop|].
    + cbn [fst snd]. split; [congruence|].
      destruct stop; try congruence; lia.
    + specialize (IH (iter + 1)%Z r2 w2 e2). cbv zeta in IH.
      destruct IH as [I1 I2]; [lia|lia|].
      destruct (correction_guess_loop ext fuel s m r2 w2 eps (iter + 1) e2)
        as [[[stop r3] w3] e3].
      cbn [fst snd] in *. split; [congruence|].
      destruct stop as [[| |]|]; try contradiction; lia.
Qed.

(** X11: the correction loop always leaves through one of its three breaks
    when [max_iter_in] is not negative, and is not entered otherwise.  A
    break on the budget adds [max_iter_in] to [n_tot]; a break on a small
    step or a small residual adds the number of directions computed, between
    1 and [max_iter_in]; [n_mu_change] is left alone. *)
Theorem correction_guess_loop_breaks
    (s : QPSettings T) (m : QPData T) (r : QPResults T) (w : QPWorkspace T Ldl Ruiz)
    (eps e : T) :
  let out := correction_guess_loop ext (Z.to_nat (max_iter_in s + 1)) s m r w eps 0%Z e in
  let r' := snd (fst (fst out)) in
  n_mu_change r' = n_mu_change r /\
  match fst (fst (fst out)) with
  | Some InnerBudget => n_tot r' = (n_tot r + max_iter_in s)%Z /\ (0 <= max_iter_in s)%Z
  | Some _ => (n_tot r < n_tot r' <= n_tot r + max_iter_in s)%Z
  | None => (max_iter_in s < 0)%Z /\ out = (None, r, w, e)
  end.
Proof.
  cbv zeta.
  destruct (Z.ltb_spec (max_iter_in s) 0) as [Hneg | Hpos].
  - replace (Z.to_nat (max_iter_in s + 1)) with 0%nat by lia.
    cbn [correction_guess_loop fst snd]. repeat split. exact Hneg.
  - pose proof (correction_guess_loop_work s m eps (Z.to_nat (max_iter_in s + 1))
                  0%Z r w e) as Hloop.
    cbv zeta in Hloop. destruct Hloop as [H1 H2]; [lia|lia|].
    split; [exact H1|].
    destruct (fst (fst (fst (correction_guess_loop ext _ s m r w eps 0 e))))
      as [[| |]|]; try contradiction; lia.
Qed.

Lemma grows_by_correction_guess s m r w eps :
  grows_by (Z.max 0 (max_iter_in s)) 0 r (fst (fst (correction_guess ext s m r w eps))).
Proof.
  unfold correction_guess.
  destruct (Z.ltb_spec (max_iter_in s) 0) as [Hneg | Hpos].
  - replace (Z.to_nat (max_iter_in s + 1)) with 0%nat by lia.
    cbn [correction_guess_loop fst snd]. unfold grows_by. lia.
  - pose proof (correction_guess_loop_work s m eps (Z.to_nat (max_iter_in s + 1))
                  0%Z r w (slit 1000000)) as Hloop.
    cbv zeta in Hloop.
    destruct (correction_guess_loop _ _ _ _ _ _ _ _ _) as [[[stop r1] w1] e1].
    cbn [fst snd] in *. destruct Hloop as [H1 H2]; [lia|lia|]. unfold grows_by.
    destruct stop as [[| |]|]; try contradiction; lia.
Qed.

Lemma grows_by_inner_step s m r w lhs eta_in :
  grows_by (inner_work s) 0 r (fst (inner_step ext s m r w lhs eta_in)) /\
  (n_in m = 0%nat -> n_tot (fst (inner_step ext s m r w lhs eta_in)) = (n_tot r + 1)%Z).
Proof.
  unfold inner_step, inner_work. cbv zeta.
  destruct (n_in m =? 0)%nat eqn:Ein.
  - rewrite orb_true_r. cbn [negb andb orb].
    match goal with |- context [initial_guess ?e ?a ?b ?c ?d ?f] =>
      assert (Hig : n_tot (fst (fst (initial_guess e a b c d f))) = n_tot r
                    /\ n_mu_change (fst (fst (initial_guess e a b c d f))) = n_mu_change r)
        by (split; reflexivity);
      destruct (initial_guess e a b c d f) as [[r1 w1] e1] end.
    cbn [fst snd] in *. rewrite !andb_false_r. cbn [fst n_tot set_n_tot].
    unfold grows_by. cbn [n_tot n_mu_change set_n_tot]. split; lia.
  - split; [|intros Hz; apply Nat.eqb_neq in Ein; contradiction].
    rewrite orb_false_r. cbn [negb]. rewrite !andb_true_r.
    destruct (lhs <? eps_IG s).
    + match goal with |- context [initial_guess ?e ?a ?b ?c ?d ?f] =>
        assert (Hig : n_tot (fst (fst (initial_guess e a b c d f))) = n_tot r
                      /\ n_mu_change (fst (fst (initial_guess e a b c d f)))
                         = n_mu_change r)
          by (split; reflexivity);
        destruct (initial_guess e a b c d f) as [[r1 w1] e1] end.
      cbn [fst snd] in Hig. cbn [negb andb orb].
      assert (Hr1 : grows_by 1 0 r (set_n_tot (n_tot r1 + 1)%Z r1)).
      { unfold grows_by. cbn [n_tot n_mu_change set_n_tot]. lia. }
      destruct (e1 >=? eta_in); cbn [fst snd].
      * match goal with |- context [correction_guess ?e ?a ?b ?c ?d ?f] =>
          pose proof (grows_by_correction_guess a b c d f) as Hcg;
          destruct (correction_guess e a b c d f) as [[r2 w2] e2] end.
        cbn [fst snd] in *.
        eapply grows_by_weaken; [| |eapply grows_by_trans; eassumption]; lia.
      * eapply grows_by_weaken; [| |exact Hr1]; lia.
    + cbn [negb andb orb].
      match goal with |- context [correction_guess ?e ?a ?b ?c ?d ?f] =>
        pose proof (grows_by_correction_guess a b c d f) as Hcg;
        destruct (correction_guess e a b c d f) as [[r2 w2] e2] end.
      cbn [fst snd] in *. eapply grows_by_weaken; [| |exact Hcg]; lia.
Qed.

Lemma grows_by_unscale_solution m r (w : QPWorkspace T Ldl Ruiz) :
  grows_by 0 0 r (unscale_solution ext m r w).
Proof. apply grows_by_same; reflexivity. Qed.

Lemma grows_by_bcl_update s m r (w : QPWorkspace T Ldl Ruiz) lhs eta init emin pending :
  grows_by 0 0 r (fst (fst (bcl_update s m r w lhs eta init emin pending))).
Proof. unfold bcl_update. destruct (_ <=? _); apply grows_by_same; reflexivity. Qed.

Lemma grows_by_effective_mu_update m r (w : QPWorkspace T Ldl Ruiz) pending :
  grows_by 0 1 r (fst (effective_mu_update ext m r w pending)).
Proof.
  unfold effective_mu_update. cbv zeta.
  destruct (_ || _); unfold grows_by; cbn [fst n_tot n_mu_change set_mu set_n_mu_change]; lia.
Qed.

Lemma grows_by_finish_iteration s m init emin r w p eta pending :
  grows_by (inner_work s) 1 r
    (iteration_results (finish_iteration ext s m init emin r w p eta pending)).
Proof.
  unfold finish_iteration.
  pose proof (grows_by_inner_step s m r w (primal_feasibility_lhs p) (bcl_eta_in eta))
    as [Hinner _].
  destruct (inner_step ext s m r w (primal_feasibility_lhs p) (bcl_eta_in eta)) as [r1 w1].
  cbn [fst] in Hinner.
  destruct (global_primal_residual ext m r1 w1) as [w2 p2].
  cbv zeta.
  assert (Hrest : forall w3,
    grows_by 0 1 r1
      (iteration_results
         (let '(r, eta0, pending0) :=
            bcl_update s m r1 w3 (primal_feasibility_lhs p2) eta init emin pending in
          let '(w, d_new) := global_dual_residual ext m r w3 in
          let pending1 :=
            cold_restart s r (primal_feasibility_lhs p) (primal_feasibility_lhs p2)
              (dual_feasibility_lhs d_new) pending0 in
          let '(r0, w0) := effective_mu_update ext m r w pending1 in
          NextIteration r0 w0 eta0))).
  { intros w3.
    pose proof (grows_by_bcl_update s m r1 w3 (primal_feasibility_lhs p2) eta init emin
                  pending) as Hbcl.
    destruct (bcl_update s m r1 w3 (primal_feasibility_lhs p2) eta init emin pending)
      as [[r3 eta3] pending3].
    cbn [fst] in Hbcl.
    destruct (global_dual_residual ext m r3 w3) as [w4 d4]. cbv zeta.
    match goal with |- context [effective_mu_update ?e ?a ?b ?c ?d] =>
      pose proof (grows_by_effective_mu_update a b c d) as Hmu;
      destruct (effective_mu_update e a b c d) as [r5 w5] end.
    cbn [fst iteration_results] in *.
    exact (grows_by_trans _ _ _ _ _ _ _ Hbcl Hmu). }
  assert (Hsolved : forall w3,
    grows_by (inner_work s) 1 r (unscale_solution ext m r1 w3)).
  { intros w3. eapply grows_by_weaken;
      [| |exact (grows_by_trans _ _ _ _ _ _ _ Hinner (grows_by_unscale_solution m r1 w3))];
      lia. }
  assert (Hnext : forall r3, grows_by 0 1 r1 r3 -> grows_by (inner_work s) 1 r r3).
  { intros r3 Hi. eapply grows_by_weaken;
      [| |exact (grows_by_trans _ _ _ _ _ _ _ Hinner Hi)]; lia. }
  destruct (_ <=? _).
  - destruct (global_dual_residual ext m r1 w2) as [w3 d3].
    destruct (_ <=? _).
    + cbn [iteration_results]. apply Hsolved.
    + apply Hnext. apply Hrest.
  - apply Hnext. apply Hrest.
Qed.

Lemma grows_by_outer_iteration s m init emin iter r w eta :
  grows_by (inner_work s) 1 r
    (iteration_results (outer_iteration ext s m init emin iter r w eta)).
Proof.
  assert (Hwork : (0 <= inner_work s)%Z) by (unfold inner_work; lia).
  unfold outer_iteration. cbv zeta.
  destruct (iter =? max_iter s)%Z.
  - cbn [iteration_results]. unfold grows_by, unscale_solution. cbn [n_tot n_mu_change set_n_ext set_x set_y set_z set_objValue]. lia.
  - destruct (global_primal_residual ext m _ w) as [w1 p].
    destruct (global_dual_residual ext m _ w1) as [w2 d].
    set (r1 := set_n_ext (n_ext r + 1)%Z r).
    assert (Hstage : forall rw : QPResults T * QPWorkspace T Ldl Ruiz,
      (n_tot (fst rw) = n_tot r /\ n_mu_change (fst rw) = n_mu_change r) ->
      forall pending,
      grows_by (inner_work s) 1 r (iteration_results
        (let '(r0, w0) := rw in
         if (primal_feasibility_lhs p <=? rhs_pri s w2 p)
            && (dual_feasibility_lhs d <=? rhs_dua s w2 d)
         then ExitSolved (unscale_solution ext m r0 w0) w0 p d
         else finish_iteration ext s m init emin r0 w0 p eta pending))).
    { intros [r0 w0] (e3 & e4) pending. cbn [fst] in *.
      destruct (_ && _).
      - cbn [iteration_results]. unfold grows_by, unscale_solution. cbn [n_tot n_mu_change set_n_ext set_x set_y set_z set_objValue]. lia.
      - pose proof (grows_by_finish_iteration s m init emin r0 w0 p eta pending) as Hf.
        unfold grows_by in *. lia. }
    destruct (primal_feasibility_lhs p <=? rhs_pri s w2 p) eqn:Epf.
    + apply Hstage.
      pose proof (pass_kept_refactor_on_dual_threshold ext s m r1 w2 d) as Hr.
      cbv zeta in Hr. destruct Hr as (_ & _ & Hr3 & Hr4 & _). split; assumption.
    + apply (Hstage (r1, w2)). split; reflexivity.
Qed.

Lemma qp_solve_loop_work s m init emin fuel :
  forall iter r w eta,
  (iter + Z.of_nat fuel = max_iter s + 1)%Z ->
  let r' := snd (fst (qp_solve_loop ext fuel s m init emin iter r w eta)) in
  grows_by (Z.max 0 (Z.of_nat fuel - 1) * inner_work s) (Z.max 0 (Z.of_nat fuel - 1)) r r'.
Proof.
  assert (Hwork : (0 <= inner_work s)%Z) by (unfold inner_work; lia).
  induction fuel as [|fuel IH]; intros iter r w eta Hfuel; cbv zeta; cbn [qp_solve_loop].
  - cbn [fst snd]. apply grows_by_refl.
  - pose proof (grows_by_outer_iteration s m init emin iter r w eta) as Hpass.
    destruct (outer_iteration ext s m init emin iter r w eta)
      as [r1 w1 | r1 w1 p1 d1 | r1 w1 eta1] eqn:Epass; cbn [iteration_results fst snd] in *.
    + apply outer_iteration_budget_exit in Epass as Elast. subst iter.
      rewrite outer_iteration_last in Epass. injection Epass as <- _.
      unfold grows_by. cbn [n_tot n_mu_change set_n_ext]. nia.
    + assert (iter <> max_iter s) as Hnot.
      { intros ->. rewrite outer_iteration_last in Epass. discriminate. }
      unfold grows_by in *. nia.
    + assert (iter <> max_iter s) as Hnot.
      { intros ->. rewrite outer_iteration_last in Epass. discriminate. }
      specialize (IH (iter + 1)%Z r1 w1 eta1). cbv zeta in IH.
      destruct (qp_solve_loop ext fuel s m init emin (iter + 1) r1 w1 eta1)
        as [[e r2] w2].
      cbn [fst snd] in *.
      assert (Hih : grows_by (Z.max 0 (Z.of_nat fuel - 1) * inner_work s)
                      (Z.max 0 (Z.of_nat fuel - 1)) r1 r2) by (apply IH; lia).
      unfold grows_by in *. nia.
Qed.

(** X12: the work of one call of [qp_solve] is bounded by its settings: the
    inner counter [n_tot] grows by at most
    [max 0 max_iter * (1 + max 0 max_iter_in)] and the counter of penalty
    changes [n_mu_change] by at most [max 0 max_iter]; neither decreases. *)
Theorem qp_solve_work_bound
    (s : QPSettings T) (m : QPData T) (r : QPResults T) (w : QPWorkspace T Ldl Ruiz) :
  let r' := snd (fst (qp_solve ext s m r w)) in
  (n_tot r <= n_tot r'
   <= n_tot r + Z.max 0 (max_iter s) * (1 + Z.max 0 (max_iter_in s)))%Z /\
  (n_mu_change r <= n_mu_change r' <= n_mu_change r + Z.max 0 (max_iter s))%Z.
Proof.
  cbv zeta. unfold qp_solve. cbv zeta.
  match goal with
  | |- context [qp_solve_loop ext ?fuel s m ?init ?emin 0%Z r w ?eta] =>
      destruct (Z.ltb_spec (max_iter s) 0) as [Hneg | Hpos];
      [ replace fuel with 0%nat by lia
      | pose proof (qp_solve_loop_work s m init emin fuel 0%Z r w eta) as Hloop ]
  end.
  - cbn [qp_solve_loop fst snd n_tot n_mu_change set_objValue]. lia.
  - cbv zeta in Hloop.
    destruct (qp_solve_loop ext _ s m _ _ 0 r w _) as [[e r1] w1].
    cbn [fst snd n_tot n_mu_change set_objValue] in *.
    assert (Hg : grows_by (Z.max 0 (Z.of_nat (Z.to_nat (max_iter s + 1)) - 1) * inner_work s)
                   (Z.max 0 (Z.of_nat (Z.to_nat (max_iter s + 1)) - 1)) r r1)
      by (apply Hloop; lia).
    replace (Z.of_nat (Z.to_nat (max_iter s + 1)) - 1)%Z with (max_iter s) in Hg by lia.
    unfold grows_by, inner_work in Hg. exact Hg.
Qed.

(** X13: one pass of the outer loop adds at most [1 + max 0 max_iter_in] to
    [n_tot] and at most 1 to [n_mu_change]; on a problem without inequality
    rows the inner step is the initial guess alone and adds exactly 1. *)
Theorem inner_step_work_bound
    (s : QPSettings T) (m : QPData T) (r : QPResults T) (w : QPWorkspace T Ldl Ruiz)
    (lhs eta_in init emin : T) (iter : Z) (eta : BclTolerances T) :
  let r1 := fst (inner_step ext s m r w lhs eta_in) in
  let r2 := iteration_results (outer_iteration ext s m init emin iter r w eta) in
  (n_tot r <= n_tot r1 <= n_tot r + (1 + Z.max 0 (max_iter_in s)))%Z /\
  (n_in m = 0%nat -> n_tot r1 = (n_tot r + 1)%Z) /\
  (n_tot r <= n_tot r2 <= n_tot r + (1 + Z.max 0 (max_iter_in s)))%Z /\
  (n_mu_change r <= n_mu_change r2 <= n_mu_change r + 1)%Z.
Proof.
  cbv zeta.
  pose proof (grows_by_inner_step s m r w lhs eta_in) as [[H1 _] H2].
  pose proof (grows_by_outer_iteration s m init emin iter r w eta) as [H3 H4].
  unfold inner_work in *. split; [lia|]. split; [exact H2|]. split; lia.
Qed.

End Work.

(** * Further properties of [qp_solve] (solver.hpp:670-975) *)

Section SolveEdges.
Context {T : Type} {ST : Scalar T} {Ldl Ruiz : Type}.
Variable ext : Collaborators T Ldl Ruiz.
Local Open Scope scalar_scope.

Lemma refactor_on_dual_threshold_rho s m r (w : QPWorkspace T Ldl Ruiz) d :
  let r' := fst (refactor_on_dual_threshold ext s m r w d) in
  (rho r' = rho r \/ rho r' = refactor_rho_threshold s) /\
  mu_eq r' = mu_eq r /\ mu_in r' = mu_in r /\
  mu_eq_inv r' = mu_eq_inv r /\ mu_in_inv r' = mu_in_inv r /\ n_c r' = n_c r.
Proof.
  cbv zeta. unfold refactor_on_dual_threshold.
  destruct (_ && _); cbn [fst rho set_rho mu_eq mu_in mu_eq_inv mu_in_inv n_c];
    repeat split; auto.
Qed.

Lemma outer_iteration_rho s m init emin iter r w eta :
  let r' := iteration_results (outer_iteration ext s m init emin iter r w eta) in
  rho r' = rho r \/ rho r' = refactor_rho_threshold s.
Proof.
  unfold outer_iteration. cbv zeta.
  destruct (iter =? max_iter s)%Z; [left; reflexivity|].
  destruct (global_primal_residual ext m _ w) as [w1 p].
  destruct (global_dual_residual ext m _ w1) as [w2 d].
  set (r1 := set_n_ext (n_ext r + 1)%Z r).
  assert (Hstage : forall rw : QPResults T * QPWorkspace T Ldl Ruiz,
    (rho (fst rw) = rho r \/ rho (fst rw) = refactor_rho_threshold s) ->
    forall pending,
    let r' := iteration_results
      (let '(r0, w0) := rw in
       if (primal_feasibility_lhs p <=? rhs_pri s w2 p)
          && (dual_feasibility_lhs d <=? rhs_dua s w2 d)
       then ExitSolved (unscale_solution ext m r0 w0) w0 p d
       else finish_iteration ext s m init emin r0 w0 p eta pending) in
    rho r' = rho r \/ rho r' = refactor_rho_threshold s).
  { intros [r0 w0] Hrho pending. cbn [fst] in *. cbv zeta.
    destruct (_ && _).
    - exact Hrho.
    - pose proof (pass_kept_finish_iteration ext s m init emin r0 w0 p eta pending)
        as (k1 & _).
      rewrite k1. exact Hrho. }
  destruct (primal_feasibility_lhs p <=? rhs_pri s w2 p).
  - apply Hstage.
    pose proof (refactor_on_dual_threshold_rho s m r1 w2 d) as [Hr _]. exact Hr.
  - apply (Hstage (r1, w2)). left. reflexivity.
Qed.

Lemma qp_solve_loop_rho s m init emin fuel :
  forall iter r w eta,
  let r' := snd (fst (qp_solve_loop ext fuel s m init emin iter r w eta)) in
  rho r' = rho r \/ rho r' = refactor_rho_threshold s.
Proof.
  induction fuel as [|fuel IH]; intros iter r w eta; cbv zeta; cbn [qp_solve_loop].
  - left. reflexivity.
  - pose proof (outer_iteration_rho s m init emin iter r w eta) as Hpass. cbv zeta in Hpass.
    destruct (outer_iteration ext s m init emin iter r w eta)
      as [r1 w1 | r1 w1 p1 d1 | r1 w1 eta1]; cbn [iteration_results fst snd] in *;
      try exact Hpass.
    specialize (IH (iter + 1)%Z r1 w1 eta1). cbv zeta in IH.
    destruct IH as [E | E]; [|right; exact E].
    rewrite E. exact Hpass.
Qed.

(** X14: [qp_solve] writes [rho] only through the refactorization rule: on
    return [rho] is the value it had on entry or [refactor_rho_threshold]. *)
Theorem qp_solve_rho_values
    (s : QPSettings T) (m : QPData T) (r : QPResults T) (w : QPWorkspace T Ldl Ruiz) :
  let r' := snd (fst (qp_solve ext s m r w)) in
  rho r' = rho r \/ rho r' = refactor_rho_threshold s.
Proof.
  cbv zeta. unfold qp_solve. cbv zeta.
  match goal with
  | |- context [qp_solve_loop ext ?fuel s m ?init ?emin 0%Z r w ?eta] =>
      pose proof (qp_solve_loop_rho s m init emin fuel 0%Z r w eta) as Hloop;
      cbv zeta in Hloop;
      destruct (qp_solve_loop ext fuel s m init emin 0%Z r w eta) as [[e r1] w1]
  end.
  exact Hloop.
Qed.

(** X15: with an iteration budget of zero [qp_solve] counts one outer
    iteration and returns; with a negative budget its loop is not entered.
    In both cases the iterate, the penalties and the workspace are those it
    was given and only [objValue] is computed, from the x it was given. *)
Theorem qp_solve_without_budget
    (s : QPSettings T) (m : QPData T) (r : QPResults T) (w : QPWorkspace T Ldl Ruiz) :
  (max_iter s <= 0)%Z ->
  qp_solve ext s m r w
  = (ByBudget,
     set_objValue (objective m (x r))
       (if (max_iter s =? 0)%Z then set_n_ext (n_ext r + 1)%Z r else r),
     w).
Proof.
  intros Hbudget. unfold qp_solve. cbv zeta.
  destruct (max_iter s =? 0)%Z eqn:Ezero.
  - apply Z.eqb_eq in Ezero. rewrite Ezero.
    change (Z.to_nat (0 + 1)) with 1%nat. cbn [qp_solve_loop].
    rewrite <- Ezero at 1. rewrite outer_iteration_last. reflexivity.
  - apply Z.eqb_neq in Ezero.
    replace (Z.to_nat (max_iter s + 1)) with 0%nat by lia. reflexivity.
Qed.

(** X16: a call of [qp_solve] on an iterate that passes both stopping tests
    of the first pass, such as the solution of an earlier call, returns
    through the first [Solved] exit: one outer iteration is counted, no inner
    step is made, the penalties, [n_tot] and [n_mu_change] are left as they
    were, and x, y, z are the unscaled input. *)
Theorem qp_solve_already_solved
    (s : QPSettings T) (m : QPData T) (r : QPResults T) (w : QPWorkspace T Ldl Ruiz) :
  let r1 := set_n_ext (n_ext r + 1)%Z r in
  let wp := global_primal_residual ext m r1 w in
  let wd := global_dual_residual ext m r1 (fst wp) in
  (0 < max_iter s)%Z ->
  (primal_feasibility_lhs (snd wp) <=? rhs_pri s (fst wd) (snd wp)) = true ->
  (dual_feasibility_lhs (snd wd) <=? rhs_dua s (fst wd) (snd wd)) = true ->
  let out := qp_solve ext s m r w in
  let r' := snd (fst out) in
  fst (fst out) = BySolved (snd wp) (snd wd) /\
  n_ext r' = (n_ext r + 1)%Z /\ n_tot r' = n_tot r /\ n_mu_change r' = n_mu_change r /\
  mu_eq r' = mu_eq r /\ mu_in r' = mu_in r /\
  mu_eq_inv r' = mu_eq_inv r /\ mu_in_inv r' = mu_in_inv r /\ status r' = status r /\
  x r' = unscale_primal_in_place ext (ruiz (snd out)) (x r) /\
  y r' = unscale_dual_in_place_eq ext (ruiz (snd out)) (y r) /\
  z r' = unscale_dual_in_place_in ext (ruiz (snd out)) (z r).
Proof.
  cbv zeta. intros Hbudget Hp Hd. unfold qp_solve. cbv zeta.
  destruct (Z.to_nat (max_iter s + 1)) as [|fuel] eqn:Efuel; [lia|].
  cbn [qp_solve_loop]. unfold outer_iteration. cbv zeta.
  destruct (0 =? max_iter s)%Z eqn:Ezero; [apply Z.eqb_eq in Ezero; lia|].
  destruct (global_primal_residual ext m (set_n_ext (n_ext r + 1)%Z r) w) as [w1 p].
  cbn [fst snd] in *.
  destruct (global_dual_residual ext m (set_n_ext (n_ext r + 1)%Z r) w1) as [w2 d].
  cbn [fst snd] in *.
  rewrite Hp, Hd. cbn [andb].
  pose proof (pass_kept_refactor_on_dual_threshold ext s m
                (set_n_ext (n_ext r + 1)%Z r) w2 d) as Hr1.
  pose proof (refactor_on_dual_threshold_rho s m (set_n_ext (n_ext r + 1)%Z r) w2 d) as Hr2.
  cbv zeta in Hr1, Hr2.
  destruct (refactor_on_dual_threshold ext s m (set_n_ext (n_ext r + 1)%Z r) w2 d)
    as [r3 w3].
  cbn [fst snd] in *.
  destruct Hr1 as (a1 & a2 & a3 & a4 & a5 & a6 & a7).
  destruct Hr2 as (_ & b1 & b2 & b3 & b4 & _).
  unfold unscale_solution.
  cbn [x y z n_ext n_tot n_mu_change mu_eq mu_in mu_eq_inv mu_in_inv status
       set_x set_y set_z set_objValue set_n_ext] in *.
  rewrite a5, a6, a7. repeat split; assumption.
Qed.

End SolveEdges.

(** * The penalties through the outer loop *)

Section PenaltyInvariant.
Context {T : Type} {ST : Scalar T} {Ldl Ruiz : Type}.
Variable ext : Collaborators T Ldl Ruiz.
Local Open Scope scalar_scope.

(** A property [Pp] of the four penalty values that the reset constants have
    and that the bad step of [bcl_update] hands on. *)
Variable Pp : PendingMu T -> Prop.
Variable s : QPSettings T.
Variable m : QPData T.
Hypothesis Pp_cold : Pp (cold_reset_of s).
Hypothesis Pp_bcl :
  forall r (w : QPWorkspace T Ldl Ruiz) lhs eta init emin pending,
  Pp (penalties_of r) -> Pp pending ->
  Pp (snd (bcl_update s m r w lhs eta init emin pending)).

Lemma penalties_of_info_kept (r r' : QPResults T) :
  info_kept r r' -> penalties_of r' = penalties_of r.
Proof.
  unfold info_kept, penalties_of. intros (_ & a2 & a3 & a4 & a5 & _).
  rewrite a2, a3, a4, a5. reflexivity.
Qed.

Lemma penalties_of_bcl_update r (w : QPWorkspace T Ldl Ruiz) lhs eta init emin pending :
  penalties_of (fst (fst (bcl_update s m r w lhs eta init emin pending))) = penalties_of r.
Proof. unfold bcl_update. destruct (_ <=? _); reflexivity. Qed.

Lemma penalties_of_effective_mu_update r (w : QPWorkspace T Ldl Ruiz) pending :
  penalties_of (fst (effective_mu_update ext m r w pending)) = pending.
Proof. destruct pending. reflexivity. Qed.

Lemma Pp_cold_restart r lhs lhs_new dual_new pending :
  Pp pending -> Pp (cold_restart s r lhs lhs_new dual_new pending).
Proof.
  intros Hp. unfold cold_restart. destruct (_ && _); [exact Pp_cold|exact Hp].
Qed.

Lemma Pp_finish_iteration init emin r w p eta pending :
  Pp (penalties_of r) -> Pp pending ->
  Pp (penalties_of
        (iteration_results (finish_iteration ext s m init emin r w p eta pending))).
Proof.
  intros Hr Hpending. unfold finish_iteration.
  pose proof (info_kept_inner_step ext s m r w (primal_feasibility_lhs p) (bcl_eta_in eta))
    as Hinner.
  apply penalties_of_info_kept in Hinner.
  destruct (inner_step ext s m r w (primal_feasibility_lhs p) (bcl_eta_in eta)) as [r1 w1].
  cbn [fst] in Hinner. rewrite <- Hinner in Hr.
  destruct (global_primal_residual ext m r1 w1) as [w2 p2].
  cbv zeta.
  assert (Hrest : forall w3,
    Pp (penalties_of
      (iteration_results
         (let '(r, eta0, pending0) :=
            bcl_update s m r1 w3 (primal_feasibility_lhs p2) eta init emin pending in
          let '(w, d_new) := global_dual_residual ext m r w3 in
          let pending1 :=
            cold_restart s r (primal_feasibility_lhs p) (primal_feasibility_lhs p2)
              (dual_feasibility_lhs d_new) pending0 in
          let '(r0, w0) := effective_mu_update ext m r w pending1 in
          NextIteration r0 w0 eta0)))).
  { intros w3.
    pose proof (Pp_bcl r1 w3 (primal_feasibility_lhs p2) eta init emin pending Hr Hpending)
      as Hbcl.
    destruct (bcl_update s m r1 w3 (primal_feasibility_lhs p2) eta init emin pending)
      as [[r3 eta3] pending3].
    cbn [snd] in Hbcl.
    destruct (global_dual_residual ext m r3 w3) as [w4 d4]. cbv zeta.
    match goal with |- context [effective_mu_update ?e ?a ?b ?c ?d] =>
      pose proof (penalties_of_effective_mu_update b c d) as Hmu;
      destruct (effective_mu_update e a b c d) as [r5 w5] end.
    cbn [fst iteration_results] in *. rewrite Hmu. apply Pp_cold_restart. exact Hbcl. }
  destruct (_ <=? _).
  - destruct (global_dual_residual ext m r1 w2) as [w3 d3].
    destruct (_ <=? _).
    + cbn [iteration_results]. exact Hr.
    + apply Hrest.
  - apply Hrest.
Qed.

Lemma Pp_outer_iteration init emin iter r w eta :
  Pp (penalties_of r) ->
  Pp (penalties_of (iteration_results (outer_iteration ext s m init emin iter r w eta))).
Proof.
  intros Hr. unfold outer_iteration. cbv zeta.
  destruct (iter =? max_iter s)%Z; [exact Hr|].
  destruct (global_primal_residual ext m _ w) as [w1 p].
  destruct (global_dual_residual ext m _ w1) as [w2 d].
  set (r1 := set_n_ext (n_ext r + 1)%Z r).
  assert (Hstage : forall rw : QPResults T * QPWorkspace T Ldl Ruiz,
    penalties_of (fst rw) = penalties_of r ->
    Pp (penalties_of (iteration_results
      (let '(r0, w0) := rw in
       if (primal_feasibility_lhs p <=? rhs_pri s w2 p)
          && (dual_feasibility_lhs d <=? rhs_dua s w2 d)
       then ExitSolved (unscale_solution ext m r0 w0) w0 p d
       else finish_iteration ext s m init emin r0 w0 p eta
              {| new_bcl_mu_in := mu_in r1; new_bcl_mu_eq := mu_eq r1;
                 new_bcl_mu_in_inv := mu_in_inv r1;
                 new_bcl_mu_eq_inv := mu_eq_inv r1 |})))).
  { intros [r0 w0] E. cbn [fst] in E.
    destruct (_ && _).
    - cbn [iteration_results]. change (Pp (penalties_of r0)). rewrite E. exact Hr.
    - apply Pp_finish_iteration; [rewrite E; exact Hr|exact Hr]. }
  destruct (primal_feasibility_lhs p <=? rhs_pri s w2 p).
  - apply Hstage.
    pose proof (refactor_on_dual_threshold_rho ext s m r1 w2 d) as (_ & b1 & b2 & b3 & b4 & _).
    unfold penalties_of. rewrite b1, b2, b3, b4. reflexivity.
  - apply (Hstage (r1, w2)). reflexivity.
Qed.

Lemma Pp_qp_solve_loop init emin fuel :
  forall iter r w eta,
  Pp (penalties_of r) ->
  Pp (penalties_of (snd (fst (qp_solve_loop ext fuel s m init emin iter r w eta)))).
Proof.
  induction fuel as [|fuel IH]; intros iter r w eta Hr; cbn [qp_solve_loop];
    [exact Hr|].
  pose proof (Pp_outer_iteration init emin iter r w eta Hr) as Hpass.
  destruct (outer_iteration ext s m init emin iter r w eta)
    as [r1 w1 | r1 w1 p1 d1 | r1 w1 eta1]; cbn [iteration_results fst snd] in *;
    try exact Hpass.
  apply IH. exact Hpass.
Qed.

Lemma Pp_qp_solve r w :
  Pp (penalties_of r) -> Pp (penalties_of (snd (fst (qp_solve ext s m r w)))).
Proof.
  intros Hr. unfold qp_solve. cbv zeta.
  match goal with
  | |- context [qp_solve_loop ext ?fuel s m ?init ?emin 0%Z r w ?eta] =>
      pose proof (Pp_qp_solve_loop init emin fuel 0%Z r w eta Hr) as Hloop;
      destruct (qp_solve_loop ext fuel s m init emin 0%Z r w eta) as [[e r1] w1]
  end.
  exact Hloop.
Qed.

End PenaltyInvariant.

(** ** On the reals *)

Ltac real_ops :=
  cbn [sadd ssub smul sdiv sopp sabs sleb sltb seqb spow slit s0 s1 sepsilon Scalar_R] in *.

Lemma max2_real (a b : R) : (a <= max2 a b)%R /\ (b <= max2 a b)%R /\
  (max2 a b = a \/ max2 a b = b).
Proof.
  unfold max2. real_ops. unfold Rltb. destruct (Rlt_dec b a); repeat split; auto; lra.
Qed.

Lemma std_min_real (a b : R) : (std_min a b <= a)%R /\ (std_min a b <= b)%R /\
  (std_min a b = a \/ std_min a b = b).
Proof.
  unfold std_min. real_ops. unfold Rltb. destruct (Rlt_dec b a); repeat split; auto; lra.
Qed.

(** A penalty multiplied by the update factor and capped, with its reciprocal
    multiplied by the reciprocal factor and floored. *)
Lemma capped_reciprocal (mu f cap : R) :
  (0 < mu)%R -> (0 < f)%R -> (0 < cap)%R ->
  (0 < std_min (mu * f) cap)%R /\
  (max2 (/ mu * / f) (/ cap) = / std_min (mu * f) cap)%R.
Proof.
  intros Hmu Hf Hcap.
  assert (Hprod : (0 < mu * f)%R) by nra.
  assert (Hinv : (/ mu * / f = / (mu * f))%R) by (rewrite Rinv_mult; reflexivity).
  rewrite Hinv.
  unfold std_min, max2. real_ops. unfold Rltb.
  destruct (Rlt_dec cap (mu * f)) as [Hlt | Hge].
  - split; [exact Hcap|].
    destruct (Rlt_dec (/ cap) (/ (mu * f))) as [Hlt' | _]; [|reflexivity].
    exfalso. apply Rinv_lt_contravar in Hlt; [lra|nra].
  - split; [exact Hprod|].
    destruct (Rlt_dec (/ cap) (/ (mu * f))) as [_ | Hge']; [reflexivity|].
    assert (Heq : (mu * f = cap)%R).
    { destruct (Rle_lt_or_eq_dec (mu * f) cap) as [Hlt | E]; [lra| |exact E].
      exfalso. apply Hge'. apply Rinv_lt_contravar; [nra|exact Hlt]. }
    rewrite Heq. reflexivity.
Qed.

(** X17: on the reals, with update factor, bounds and reset constants that
    are positive and carry exact reciprocals, [bcl_update] keeps the pending
    penalties positive with exact reciprocals: on a bad step the capped
    product [min (mu * factor) mu_max] and the floored product
    [max (mu_inv * factor_inv) mu_max_inv] are reciprocal to each other.  The
    new penalties do not exceed their bounds, the new inner tolerance is at
    least [eps_in_min], and the new outer tolerance is positive when the old
    and the initial one are. *)
Theorem bcl_update_keeps_reciprocals
    {Ldl Ruiz : Type} (s : QPSettings R) (m : QPData R) (r : QPResults R)
    (w : QPWorkspace R Ldl Ruiz) (lhs : R) (eta : BclTolerances R)
    (eta_init eps_in_min : R) (pending : PendingMu R) :
  settings_reciprocal s ->
  penalties_reciprocal r ->
  pending_reciprocal pending ->
  (0 < bcl_eta_ext eta)%R -> (0 < eta_init)%R ->
  let out := bcl_update s m r w lhs eta eta_init eps_in_min pending in
  pending_reciprocal (snd out) /\
  penalties_reciprocal (fst (fst out)) /\
  (0 < bcl_eta_ext (snd (fst out)))%R /\
  (eps_in_min <= bcl_eta_in (snd (fst out)))%R /\
  (sleb lhs (bcl_eta_ext eta) = false ->
   (new_bcl_mu_in (snd out) <= mu_max_in s)%R /\
   (new_bcl_mu_eq (snd out) <= mu_max_eq s)%R).
Proof.
  intros (f1 & f2 & f3 & f4 & f5 & f6 & f7) (r1 & r2 & r3 & r4) Hpending Heta Hinit.
  cbn [penalties_of new_bcl_mu_eq new_bcl_mu_in new_bcl_mu_eq_inv new_bcl_mu_in_inv] in *.
  cbv zeta. unfold bcl_update.
  assert (Hpow : forall a e : R, (0 < a)%R -> (0 < spow a e)%R).
  { intros a e Ha. real_ops. unfold Rpow.
    destruct (Rlt_dec 0 a) as [_|Hno]; [|contradiction]. unfold Rpower. apply exp_pos. }
  destruct (sleb lhs (bcl_eta_ext eta)).
  - cbn [fst snd bcl_eta_ext bcl_eta_in].
    split; [exact Hpending|]. split; [repeat split; assumption|].
    split.
    { real_ops. apply Rmult_lt_0_compat; [exact Heta|].
      apply (Hpow (mu_in_inv r)). rewrite r4. apply Rinv_0_lt_compat. exact r2. }
    split; [apply max2_real|discriminate].
  - cbv zeta. cbn [fst snd bcl_eta_ext bcl_eta_in].
    real_ops. rewrite r3, r4, f2, f4, f6.
    destruct (capped_reciprocal (mu_in r) (mu_update_factor s) (mu_max_in s) r2 f1 f5)
      as [Hin1 Hin2].
    destruct (capped_reciprocal (mu_eq r) (mu_update_factor s) (mu_max_eq s) r1 f1 f3)
      as [Heq1 Heq2].
    split.
    { unfold pending_reciprocal.
      cbn [new_bcl_mu_eq new_bcl_mu_in new_bcl_mu_eq_inv new_bcl_mu_in_inv].
      repeat split; assumption. }
    split.
    { unfold penalties_reciprocal, pending_reciprocal.
      cbn [penalties_of mu_eq mu_in mu_eq_inv mu_in_inv set_y set_z
           new_bcl_mu_eq new_bcl_mu_in new_bcl_mu_eq_inv new_bcl_mu_in_inv].
      repeat split; assumption. }
    split.
    { apply Rmult_lt_0_compat; [exact Hinit|].
      apply (Hpow _ (alpha_bcl s)). rewrite Hin2. apply Rinv_0_lt_compat. exact Hin1. }
    split; [apply max2_real|].
    intros _. cbn [new_bcl_mu_eq new_bcl_mu_in]. split; apply std_min_real.
Qed.

(** X18: on the reals, with such settings, [qp_solve] hands back penalties
    that are positive and carry their exact reciprocals whenever it was given
    such penalties: the invariant holds across [bcl_update], the cold restart
    and the penalty update of every pass. *)
Theorem qp_solve_keeps_reciprocals
    {Ldl Ruiz : Type} (ext : Collaborators R Ldl Ruiz)
    (s : QPSettings R) (m : QPData R) (r : QPResults R) (w : QPWorkspace R Ldl Ruiz) :
  settings_reciprocal s ->
  penalties_reciprocal r ->
  penalties_reciprocal (snd (fst (qp_solve ext s m r w))).
Proof.
  intros Hs Hr. unfold penalties_reciprocal.
  apply (Pp_qp_solve ext pending_reciprocal s m); [apply Hs| |exact Hr].
  intros r0 w0 lhs eta init emin pending Hr0 Hpending.
  unfold bcl_update.
  destruct (sleb lhs (bcl_eta_ext eta)); cbn [snd]; [exact Hpending|].
  destruct Hs as (f1 & f2 & f3 & f4 & f5 & f6 & f7).
  destruct Hr0 as (r1 & r2 & r3 & r4).
  cbn [penalties_of new_bcl_mu_eq new_bcl_mu_in new_bcl_mu_eq_inv new_bcl_mu_in_inv] in *.
  cbv zeta. real_ops. rewrite r3, r4, f2, f4, f6.
  destruct (capped_reciprocal (mu_in r0) (mu_update_factor s) (mu_max_in s) r2 f1 f5)
    as [Hin1 Hin2].
  destruct (capped_reciprocal (mu_eq r0) (mu_update_factor s) (mu_max_eq s) r1 f1 f3)
    as [Heq1 Heq2].
  unfold pending_reciprocal.
  cbn [new_bcl_mu_eq new_bcl_mu_in new_bcl_mu_eq_inv new_bcl_mu_in_inv].
  repeat split; assumption.
Qed.

(** X19: on the reals, [update_proximal_parameters] replaces exactly the
    parameters supplied and stores [1 / mu] beside a supplied [mu]: with
    positive inputs, penalties that carried exact reciprocals still do. *)
Theorem update_proximal_parameters_keeps_reciprocals
    (r : QPResults R) (rho_new mu_eq_new mu_in_new : option R) :
  penalties_reciprocal r ->
  (forall v, mu_eq_new = Some v -> (0 < v)%R) ->
  (forall v, mu_in_new = Some v -> (0 < v)%R) ->
  let r' := update_proximal_parameters r rho_new mu_eq_new mu_in_new in
  penalties_reciprocal r' /\
  rho r' = value_or rho_new (rho r) /\
  mu_eq r' = value_or mu_eq_new (mu_eq r) /\
  mu_in r' = value_or mu_in_new (mu_in r) /\
  x r' = x r /\ y r' = y r /\ z r' = z r.
Proof.
  intros (r1 & r2 & r3 & r4) Heq Hin. cbv zeta.
  cbn [penalties_of new_bcl_mu_eq new_bcl_mu_in new_bcl_mu_eq_inv new_bcl_mu_in_inv] in *.
  unfold update_proximal_parameters, penalties_reciprocal, pending_reciprocal.
  destruct rho_new as [rv|], mu_eq_new as [ev|], mu_in_new as [iv|];
    cbn [penalties_of value_or rho mu_eq mu_in mu_eq_inv mu_in_inv x y z
         set_rho set_mu new_bcl_mu_eq new_bcl_mu_in new_bcl_mu_eq_inv new_bcl_mu_in_inv];
    real_ops; unfold Rdiv; rewrite ?Rmult_1_l;
    repeat split; try assumption; try reflexivity;
    try (apply Heq; reflexivity); try (apply Hin; reflexivity).
Qed.

(** X20: on the reals, a vector is the sum of its positive and its negative
    part (solver.hpp:44-49), and the two parts do not overlap. *)
Theorem positive_negative_part_decompose (v : list R) :
  vadd (positive_part v) (negative_part v) = v /\
  Forall (fun p : R * R => (fst p * snd p)%R = 0%R)
    (combine (positive_part v) (negative_part v)).
Proof.
  unfold vadd, positive_part, negative_part. real_ops.
  induction v as [|a v [IH1 IH2]]; [split; [reflexivity|constructor]|].
  cbn [map combine fst snd].
  split.
  - rewrite IH1. f_equal. unfold Rltb.
    destruct (Rlt_dec 0 a), (Rlt_dec a 0); lra.
  - constructor; [|exact IH2]. cbn [fst snd]. unfold Rltb.
    destruct (Rlt_dec 0 a), (Rlt_dec a 0); lra.
Qed.

(** * The test utilities (test/include/util.hpp) *)

Section Lehmer.
Local Open Scope Z_scope.

Lemma lehmer64_state_range (st : Z) : 0 <= fst (lehmer64 st) < 2 ^ 128.
Proof. unfold lehmer64. cbn [fst]. apply Z.mod_pos_bound. reflexivity. Qed.

Lemma lehmer64_zero : lehmer64 0 = (0, 0).
Proof. reflexivity. Qed.

Lemma lehmer64_injective (a b : Z) :
  0 <= a < 2 ^ 128 -> 0 <= b < 2 ^ 128 ->
  fst (lehmer64 a) = fst (lehmer64 b) -> a = b.
Proof.
  intros Ha Hb. unfold lehmer64. cbn [fst]. intros E.
  assert (Hdiv : (2 ^ 128 | lehmer_multiplier * (a - b))).
  { apply Z.mod_divide; [discriminate|].
    replace (lehmer_multiplier * (a - b))
      with (a * lehmer_multiplier - b * lehmer_multiplier) by ring.
    rewrite Zminus_mod, E, Z.sub_diag. reflexivity. }
  apply Z.gauss in Hdiv; [|reflexivity].
  destruct Hdiv as [k Hk]. nia.
Qed.

Lemma lehmer64_output (st : Z) :
  snd (lehmer64 st) = fst (lehmer64 st) / 2 ^ 64 /\ 0 <= snd (lehmer64 st) < 2 ^ 64.
Proof.
  pose proof (lehmer64_state_range st) as Hrange.
  assert (Hout : 0 <= fst (lehmer64 st) / 2 ^ 64 < 2 ^ 64).
  { split; [apply Z.div_pos; lia|]. apply Z.div_lt_upper_bound; lia. }
  assert (Hsnd : snd (lehmer64 st) = fst (lehmer64 st) / 2 ^ 64).
  { unfold lehmer64 in *. cbn [fst snd] in *.
    rewrite Z.shiftr_div_pow2 by lia. apply Z.mod_small. exact Hout. }
  split; [exact Hsnd|]. rewrite Hsnd. exact Hout.
Qed.

(** X21: one draw of the generator.  The state stays below 2^128 and the
    draw is its upper 64 bits, below 2^64; the step is injective on states,
    so that the all-zero state, which only draws zeros, is never reached from
    another state. *)
Theorem lehmer64_step (st : Z) :
  0 <= fst (lehmer64 st) < 2 ^ 128 /\
  0 <= snd (lehmer64 st) < 2 ^ 64 /\
  snd (lehmer64 st) = fst (lehmer64 st) / 2 ^ 64 /\
  (forall st', 0 <= st < 2 ^ 128 -> 0 <= st' < 2 ^ 128 ->
               fst (lehmer64 st) = fst (lehmer64 st') -> st = st') /\
  (0 < st < 2 ^ 128 -> fst (lehmer64 st) <> 0).
Proof.
  split; [apply lehmer64_state_range|].
  destruct (lehmer64_output st) as [Hsnd Hout].
  split; [exact Hout|]. split; [exact Hsnd|]. split.
  - intros st' H1 H2. apply lehmer64_injective; assumption.
  - intros Hst E.
    assert (st = 0); [|lia].
    apply lehmer64_injective; [lia|lia|]. rewrite E. reflexivity.
Qed.

Lemma lehmer_iterate_zero (k : nat) : lehmer_iterate k 0 = 0.
Proof.
  induction k as [|k IH]; [reflexivity|].
  unfold lehmer_iterate in *. cbn [nat_rect]. rewrite IH. reflexivity.
Qed.

(** X22: [set_seed] leaves the generator in the all-zero state for exactly
    one seed, the largest 64-bit value, whose increment wraps to zero; from
    that state every draw is zero. *)
Theorem set_seed_degenerate (seed : Z) :
  0 <= seed < 2 ^ 64 ->
  (set_seed seed = 0 <-> seed = 2 ^ 64 - 1) /\
  (forall k, snd (lehmer64 (lehmer_iterate k (set_seed (2 ^ 64 - 1)))) = 0).
Proof.
  intros Hseed. split.
  - unfold set_seed. cbv zeta. split.
    + intros E.
      assert (H1 : fst (lehmer64 ((seed + 1) mod 2 ^ 64)) = 0).
      { apply lehmer64_injective;
          [apply lehmer64_state_range|lia|rewrite E; reflexivity]. }
      assert (H2 : (seed + 1) mod 2 ^ 64 = 0).
      { pose proof (Z.mod_pos_bound (seed + 1) (2 ^ 64) eq_refl).
        apply lehmer64_injective; [lia|lia|rewrite H1; reflexivity]. }
      destruct (Z.eq_dec seed (2 ^ 64 - 1)) as [|Hne]; [assumption|].
      rewrite Z.mod_small in H2 by lia. lia.
    + intros ->. reflexivity.
  - intros k. change (set_seed (2 ^ 64 - 1)) with 0.
    rewrite lehmer_iterate_zero. reflexivity.
Qed.

(** X23: [uniform_rand] advances the generator by one draw and returns a
    multiple of 2^-53 in the interval from 0, included, to 1, excluded. *)
Theorem uniform_rand_unit_interval (st : Z) :
  fst (uniform_rand st) = fst (lehmer64 st) /\
  (exists a, 0 <= a < 2 ^ 53 /\ snd (uniform_rand st) = Qmake a (2 ^ 53)%positive) /\
  (0 <= snd (uniform_rand st))%Q /\ (snd (uniform_rand st) < 1)%Q.
Proof.
  destruct (lehmer64_output st) as [_ Hout].
  unfold uniform_rand. cbv zeta. cbn [fst snd].
  assert (Ha : 0 <= snd (lehmer64 st) / 2 ^ 11 < 2 ^ 53).
  { split; [apply Z.div_pos; lia|]. apply Z.div_lt_upper_bound; lia. }
  split; [reflexivity|]. split; [eexists; split; [exact Ha|reflexivity]|].
  unfold Qle, Qlt. cbn [Qnum Qden]. split; lia.
Qed.

End Lehmer.

Section SparseConversion.
Context {T : Type} {ST : Scalar T}.
Local Open Scope scalar_scope.

(** X24: [to_sparse] stores exactly the coefficients of the dense matrix
    that the test [!= 0] keeps, each at its own row and column. *)
Theorem to_sparse_entries (M : list (list T)) (i j : nat) (v : T) :
  In (i, j, v) (to_sparse M) <->
  (i < dense_rows M)%nat /\ (j < dense_cols M)%nat /\
  v = dense_coeff M i j /\ (v !=? s0) = true.
Proof.
  unfold to_sparse. rewrite in_flat_map. split.
  - intros (j' & Hj & Hin). rewrite in_flat_map in Hin.
    destruct Hin as (i' & Hi & Hin). apply in_seq in Hj, Hi.
    destruct (dense_coeff M i' j' !=? s0) eqn:Enz; [|contradiction].
    destruct Hin as [E | []]. injection E as <- <- <-.
    repeat split; try lia. exact Enz.
  - intros (Hi & Hj & -> & Enz).
    exists j. split; [apply in_seq; lia|].
    rewrite in_flat_map. exists i. split; [apply in_seq; lia|].
    rewrite Enz. left. reflexivity.
Qed.

Lemma filter_flat_map {A B : Type} (p : B -> bool) (f : A -> list B) (xs : list A) :
  filter p (flat_map f xs) = flat_map (fun a => filter p (f a)) xs.
Proof.
  induction xs as [|a xs IH]; [reflexivity|].
  cbn [flat_map]. rewrite filter_app, IH. reflexivity.
Qed.

Lemma flat_map_ext_in {A B : Type} (f g : A -> list B) (xs : list A) :
  (forall a, In a xs -> f a = g a) -> flat_map f xs = flat_map g xs.
Proof.
  induction xs as [|a xs IH]; intros Hfg; [reflexivity|].
  cbn [flat_map]. rewrite Hfg by (left; reflexivity).
  rewrite IH; [reflexivity|]. intros b Hb. apply Hfg. right. exact Hb.
Qed.

Lemma flat_map_nil {A B : Type} (xs : list A) :
  flat_map (fun _ : A => @nil B) xs = [].
Proof. induction xs as [|a xs IH]; [reflexivity|exact IH]. Qed.

Lemma filter_keeps_all {A : Type} (p : A -> bool) (xs : list A) :
  (forall a, In a xs -> p a = true) -> filter p xs = xs.
Proof.
  induction xs as [|a xs IH]; intros Hp; [reflexivity|].
  cbn [filter]. rewrite Hp by (left; reflexivity).
  rewrite IH; [reflexivity|]. intros b Hb. apply Hp. right. exact Hb.
Qed.

Lemma filter_keeps_none {A : Type} (p : A -> bool) (xs : list A) :
  (forall a, In a xs -> p a = false) -> filter p xs = [].
Proof.
  induction xs as [|a xs IH]; intros Hp; [reflexivity|].
  cbn [filter]. rewrite Hp by (left; reflexivity).
  apply IH. intros b Hb. apply Hp. right. exact Hb.
Qed.

Lemma upper_rows_of_column (j n : nat) (f : nat -> list (nat * nat * T)) :
  (j < n)%nat ->
  (forall i, forall e, In e (f i) -> fst (fst e) = i) ->
  flat_map (fun i => filter (fun e : nat * nat * T => (fst (fst e) <=? j)%nat) (f i))
    (seq 0 n)
  = flat_map f (seq 0 (j + 1)).
Proof.
  intros Hj Hrow.
  replace n with ((j + 1) + (n - (j + 1)))%nat by lia.
  rewrite seq_app, flat_map_app.
  rewrite (flat_map_ext_in _ f (seq 0 (j + 1))).
  - rewrite (flat_map_ext_in _ (fun _ => []) (seq (0 + (j + 1)) _)).
    + rewrite flat_map_nil, app_nil_r. reflexivity.
    + intros i Hi. apply in_seq in Hi.
      apply filter_keeps_none. intros e He. rewrite (Hrow i e He).
      apply Nat.leb_gt. lia.
  - intros i Hi. apply in_seq in Hi.
    apply filter_keeps_all. intros e He. rewrite (Hrow i e He).
    apply Nat.leb_le. lia.
Qed.

(** X25: on a matrix with at least as many rows as columns, so that every
    read is in range, [to_sparse_sym] stores the entries of [to_sparse] that
    lie on or above the diagonal, in the same order. *)
Theorem to_sparse_sym_upper_triangle (M : list (list T)) :
  (dense_cols M <= dense_rows M)%nat ->
  to_sparse_sym M
  = filter (fun e : nat * nat * T => (fst (fst e) <=? snd (fst e))%nat) (to_sparse M).
Proof.
  intros Hshape. unfold to_sparse_sym, to_sparse.
  rewrite filter_flat_map. apply flat_map_ext_in. intros j Hj. apply in_seq in Hj.
  rewrite filter_flat_map.
  rewrite <- (upper_rows_of_column j (dense_rows M)); [|lia|].
  - apply flat_map_ext_in. intros i _.
    destruct (dense_coeff M i j !=? s0); reflexivity.
  - intros i e He. destruct (dense_coeff M i j !=? s0); [|contradiction].
    destruct He as [<- | []]. reflexivity.
Qed.

End SparseConversion.

(** * What the stopping tests measure, on the reals (solver.hpp:343-408) *)

Section ResidualMeaning.
Context {Ldl Ruiz : Type}.
Variable ext : Collaborators R Ldl Ruiz.
Local Open Scope R_scope.

Lemma fold_max_le (v : list R) : forall acc e : R,
  fold_left (fun acc x => max2 acc (sabs x)) v acc <= e
  <-> acc <= e /\ Forall (fun x => Rabs x <= e) v.
Proof.
  induction v as [|a v IH]; intros acc e; cbn [fold_left].
  - split; [intros Hle; split; [exact Hle|constructor]|intros [Hle _]; exact Hle].
  - rewrite IH. real_ops.
    destruct (max2_real acc (Rabs a)) as (H1 & H2 & [E | E]); rewrite E in *.
    + split.
      * intros [Hacc Hv]. split; [exact Hacc|]. constructor; [lra|exact Hv].
      * intros [Hacc Hv]. inversion Hv; subst. split; assumption.
    + split.
      * intros [Ha Hv]. split; [lra|]. constructor; assumption.
      * intros [Hacc Hv]. inversion Hv; subst. split; assumption.
Qed.

Lemma infty_norm_le (v : list R) (e : R) :
  infty_norm v <= e
  <-> 0 <= e /\ forall k, (k < length v)%nat -> Rabs (nth k v 0) <= e.
Proof.
  unfold infty_norm. rewrite fold_max_le. real_ops.
  split; intros [He Hv]; (split; [exact He|]).
  - intros k Hk. apply (proj1 (Forall_nth _ v) Hv). exact Hk.
  - apply Forall_nth. intros k d Hk. rewrite (nth_indep v d 0 Hk). apply Hv. exact Hk.
Qed.

Lemma max2_le (a b e : R) : max2 a b <= e <-> a <= e /\ b <= e.
Proof. destruct (max2_real a b) as (H1 & H2 & [E | E]); rewrite E; lra. Qed.

Lemma nth_map_in (A B : Type) (f : A -> B) (xs : list A) (k : nat) (d : B) (d' : A) :
  (k < length xs)%nat -> nth k (map f xs) d = f (nth k xs d').
Proof.
  intros Hk. rewrite (nth_indep (map f xs) d (f d')) by (rewrite length_map; exact Hk).
  apply map_nth.
Qed.

Lemma nth_vsub (a b : list R) (k : nat) :
  length b = length a -> (k < length a)%nat ->
  nth k (vsub a b) 0 = nth k a 0 - nth k b 0.
Proof.
  intros Hlen Hk. unfold vsub.
  rewrite (nth_map_in _ _ _ _ k 0 (0, 0)) by (rewrite length_combine; lia).
  rewrite combine_nth by lia. reflexivity.
Qed.

Lemma nth_vadd (a b : list R) (k : nat) :
  length b = length a -> (k < length a)%nat ->
  nth k (vadd a b) 0 = nth k a 0 + nth k b 0.
Proof.
  intros Hlen Hk. unfold vadd.
  rewrite (nth_map_in _ _ _ _ k 0 (0, 0)) by (rewrite length_combine; lia).
  rewrite combine_nth by lia. reflexivity.
Qed.

Lemma length_vsub (a b : list R) : length b = length a -> length (vsub a b) = length a.
Proof. intros Hlen. unfold vsub. rewrite length_map, length_combine. lia. Qed.

Lemma length_vadd (a b : list R) : length b = length a -> length (vadd a b) = length a.
Proof. intros Hlen. unfold vadd. rewrite length_map, length_combine. lia. Qed.

(** The violation of the bounds [lo <= c <= up] that the solver measures. *)
Lemma bound_violation_le (c lo up e : R) :
  lo <= up -> 0 <= e ->
  (Rabs ((if Rltb 0 (c - up) then c - up else 0) + (if Rltb (c - lo) 0 then c - lo else 0))
   <= e
   <-> lo - e <= c <= up + e).
Proof.
  intros Hbox He. unfold Rltb.
  destruct (Rlt_dec 0 (c - up)), (Rlt_dec (c - lo) 0);
    try (exfalso; lra); unfold Rabs; destruct (Rcase_abs _); lra.
Qed.

(** X26: on the reals, with bounds [l <= u] and vectors of matching sizes,
    the value [primal_feasibility_lhs] that the stopping test compares is at
    most [e] exactly when every equality row of the unscaled problem is off
    by at most [e] and every inequality row leaves its bounds by at most
    [e]. *)
Theorem primal_residual_measures_violation
    (m : QPData R) (r : QPResults R) (w : QPWorkspace R Ldl Ruiz) (e : R) :
  let Ax := unscale_primal_residual_in_place_eq ext (ruiz w)
              (mat_vec (mat w A_scaled) (x r)) in
  let Cx := unscale_primal_residual_in_place_in ext (ruiz w)
              (mat_vec (mat w C_scaled) (x r)) in
  length (b m) = length Ax -> length (u m) = length Cx -> length (l m) = length Cx ->
  (forall k, (k < length Cx)%nat -> nth k (l m) 0 <= nth k (u m) 0) ->
  (primal_feasibility_lhs (snd (global_primal_residual ext m r w)) <= e
   <-> 0 <= e /\
       (forall k, (k < length Ax)%nat -> Rabs (nth k Ax 0 - nth k (b m) 0) <= e) /\
       (forall k, (k < length Cx)%nat ->
                  nth k (l m) 0 - e <= nth k Cx 0 <= nth k (u m) 0 + e)).
Proof.
  cbv zeta. intros Hb Hu Hl Hbox.
  set (Ax := unscale_primal_residual_in_place_eq ext (ruiz w)
               (mat_vec (mat w A_scaled) (x r))) in *.
  set (Cx := unscale_primal_residual_in_place_in ext (ruiz w)
               (mat_vec (mat w C_scaled) (x r))) in *.
  assert (Elhs : primal_feasibility_lhs (snd (global_primal_residual ext m r w))
                 = max2 (infty_norm (vsub Ax (b m)))
                     (infty_norm (vadd (positive_part (vsub Cx (u m)))
                                       (negative_part (vsub Cx (l m)))))) by reflexivity.
  rewrite Elhs, max2_le, !infty_norm_le.
  assert (Hin : forall k, (k < length Cx)%nat ->
    nth k (vadd (positive_part (vsub Cx (u m))) (negative_part (vsub Cx (l m)))) 0
    = (if Rltb 0 (nth k Cx 0 - nth k (u m) 0) then nth k Cx 0 - nth k (u m) 0 else 0)
      + (if Rltb (nth k Cx 0 - nth k (l m) 0) 0 then nth k Cx 0 - nth k (l m) 0 else 0)).
  { intros k Hk. unfold positive_part, negative_part.
    rewrite nth_vadd by (rewrite !length_map, !length_vsub by assumption; lia).
    rewrite (nth_map_in _ _ _ _ k 0 0) by (rewrite length_vsub by assumption; exact Hk).
    rewrite (nth_map_in _ _ _ _ k 0 0) by (rewrite length_vsub by assumption; exact Hk).
    rewrite !nth_vsub by assumption. reflexivity. }
  assert (Hlen_in : length (vadd (positive_part (vsub Cx (u m)))
                             (negative_part (vsub Cx (l m)))) = length Cx).
  { unfold positive_part, negative_part.
    rewrite length_vadd; rewrite !length_map, !length_vsub by assumption; reflexivity. }
  rewrite Hlen_in, (length_vsub Ax (b m) Hb).
  split.
  - intros [[He Heq] [_ Hineq]]. split; [exact He|]. split.
    + intros k Hk. rewrite <- nth_vsub by assumption. apply Heq. exact Hk.
    + intros k Hk. apply (bound_violation_le _ _ _ e (Hbox k Hk) He).
      rewrite <- Hin by exact Hk. apply Hineq. exact Hk.
  - intros (He & Heq & Hineq). split; (split; [exact He|]).
    + intros k Hk. rewrite nth_vsub by assumption. apply Heq. exact Hk.
    + intros k Hk. rewrite Hin by exact Hk.
      apply (bound_violation_le _ _ _ e (Hbox k Hk) He). apply Hineq. exact Hk.
Qed.

(** X27: on the reals, the value [dual_feasibility_lhs] that the stopping
    test compares is the largest absolute coefficient of the unscaled
    gradient of the Lagrangian [g + H x + A^T y + C^T z] of the scaled
    problem: it is at most [e] exactly when every coefficient is. *)
Theorem dual_residual_measures_stationarity
    (m : QPData R) (r : QPResults R) (w : QPWorkspace R Ldl Ruiz) (e : R) :
  let grad :=
    unscale_dual_residual_in_place ext (ruiz w)
      (vadd (vadd (vadd (vec w g_scaled) (mat_vec (mat w H_scaled) (x r)))
                  (matT_vec (dim m) (mat w A_scaled) (y r)))
            (matT_vec (dim m) (mat w C_scaled) (z r))) in
  dual_feasibility_lhs (snd (global_dual_residual ext m r w)) = infty_norm grad /\
  (dual_feasibility_lhs (snd (global_dual_residual ext m r w)) <= e
   <-> 0 <= e /\ forall k, (k < length grad)%nat -> Rabs (nth k grad 0) <= e).
Proof.
  cbv zeta.
  assert (Elhs : dual_feasibility_lhs (snd (global_dual_residual ext m r w))
    = infty_norm
        (unscale_dual_residual_in_place ext (ruiz w)
           (vadd (vadd (vadd (vec w g_scaled) (mat_vec (mat w H_scaled) (x r)))
                       (matT_vec (dim m) (mat w A_scaled) (y r)))
                 (matT_vec (dim m) (mat w C_scaled) (z r))))) by reflexivity.
  rewrite Elhs. split; [reflexivity|]. apply infty_norm_le.
Qed.

End ResidualMeaning.

(** * The first KKT matrix (helpers.hpp:62-84) *)

Section KktMatrix.
Context {T : Type} {ST : Scalar T} {Ldl Ruiz : Type}.
Variable ext : Collaborators T Ldl Ruiz.
Local Open Scope scalar_scope.

Lemma coeff_nil (k : nat) : coeff (@nil T) k = s0.
Proof. destruct k; reflexivity. Qed.

Lemma length_set_coeff (c : T) : forall (k : nat) (v : list T),
  length (set_coeff k c v) = length v.
Proof.
  induction k as [|k IH]; intros [|e v]; cbn [set_coeff length]; try reflexivity.
  rewrite IH. reflexivity.
Qed.

Lemma coeff_set_coeff (c : T) : forall (k : nat) (v : list T) (j : nat),
  coeff (set_coeff k c v) j = if (j =? k)%nat && (k <? length v)%nat then c else coeff v j.
Proof.
  unfold coeff.
  induction k as [|k IH]; intros [|e v] j; destruct j as [|j]; cbn [set_coeff nth length];
    try reflexivity.
  - change (S k <? 0)%nat with false. rewrite andb_false_r. reflexivity.
  - rewrite IH. reflexivity.
Qed.

Lemma length_set_segment (j q : nat) (src v : list T) :
  (j + q <= length v)%nat -> (q <= length src)%nat ->
  length (set_segment j q src v) = length v.
Proof.
  intros Hv Hsrc. unfold set_segment.
  rewrite !length_app, !length_firstn, length_skipn. lia.
Qed.

Lemma coeff_set_segment (j q : nat) (src v : list T) (k : nat) :
  (j + q <= length v)%nat -> (q <= length src)%nat ->
  coeff (set_segment j q src v) k
  = if (j <=? k)%nat && (k <? j + q)%nat then coeff src (k - j) else coeff v k.
Proof.
  intros Hv Hsrc. unfold set_segment, coeff.
  assert (L1 : length (firstn j v) = j) by (rewrite length_firstn; lia).
  assert (L2 : length (firstn q src) = q) by (rewrite length_firstn; lia).
  destruct (Nat.leb_spec j k) as [Hjk | Hjk]; cbn [andb].
  - rewrite app_nth2 by lia. rewrite L1.
    destruct (Nat.ltb_spec k (j + q)) as [Hkq | Hkq].
    + rewrite app_nth1 by lia. rewrite nth_firstn.
      destruct (Nat.ltb_spec (k - j) q); [reflexivity|lia].
    + rewrite app_nth2 by lia. rewrite L2, nth_skipn. f_equal. lia.
  - rewrite app_nth1 by lia. rewrite nth_firstn.
    destruct (Nat.ltb_spec k j); [reflexivity|lia].
Qed.

Lemma length_set_block (i j p q : nat) (src M : list (list T)) :
  (i + p <= length M)%nat -> (p <= length src)%nat ->
  length (set_block i j p q src M) = length M.
Proof.
  intros HM Hsrc. unfold set_block.
  rewrite !length_app, length_map, length_combine, !length_firstn, !length_skipn. lia.
Qed.

Lemma row_set_block (i j p q : nat) (src M : list (list T)) (a : nat) :
  (i + p <= length M)%nat -> (p <= length src)%nat ->
  row (set_block i j p q src M) a
  = if (i <=? a)%nat && (a <? i + p)%nat
    then set_segment j q (row src (a - i)) (row M a)
    else row M a.
Proof.
  intros HM Hsrc. unfold set_block, row.
  assert (L1 : length (firstn i M) = i) by (rewrite length_firstn; lia).
  assert (L2 : length (firstn p src) = p) by (rewrite length_firstn; lia).
  assert (L3 : length (firstn p (skipn i M)) = p)
    by (rewrite length_firstn, length_skipn; lia).
  destruct (Nat.leb_spec i a) as [Hia | Hia]; cbn [andb].
  - rewrite app_nth2 by lia. rewrite L1.
    destruct (Nat.ltb_spec a (i + p)) as [Hap | Hap].
    + rewrite app_nth1 by (rewrite length_map, length_combine; lia).
      rewrite (nth_map_in _ _ _ _ (a - i) [] ([], []))
        by (rewrite length_combine; lia).
      rewrite combine_nth by lia. cbn [fst snd].
      rewrite !nth_firstn.
      destruct (Nat.ltb_spec (a - i) p); [|lia].
      rewrite nth_skipn. do 2 f_equal. lia.
    + rewrite app_nth2 by (rewrite length_map, length_combine; lia).
      rewrite length_map, length_combine, L2, L3, nth_skipn. f_equal. lia.
  - rewrite app_nth1 by lia. rewrite nth_firstn.
    destruct (Nat.ltb_spec a i); [reflexivity|lia].
Qed.

Lemma set_block_matrix (P Q i j p q q' : nat) (src M : list (list T)) :
  is_matrix P Q M -> is_matrix p q' src ->
  (i + p <= P)%nat -> (j + q <= Q)%nat -> (q <= q')%nat ->
  is_matrix P Q (set_block i j p q src M) /\
  forall a b,
    dense_coeff (set_block i j p q src M) a b
    = if (i <=? a)%nat && (a <? i + p)%nat && (j <=? b)%nat && (b <? j + q)%nat
      then dense_coeff src (a - i) (b - j)
      else dense_coeff M a b.
Proof.
  intros [HM1 HM2] [Hs1 Hs2] Hi Hj Hq.
  assert (Hrow : forall a,
    row (set_block i j p q src M) a
    = if (i <=? a)%nat && (a <? i + p)%nat
      then set_segment j q (row src (a - i)) (row M a)
      else row M a) by (intros a; apply row_set_block; lia).
  split; [split|].
  - rewrite length_set_block; lia.
  - intros k Hk. rewrite Hrow.
    destruct (Nat.leb_spec i k), (Nat.ltb_spec k (i + p)); cbn [andb];
      try (apply HM2; exact Hk).
    rewrite length_set_segment; [apply HM2; exact Hk| |].
    + rewrite HM2 by exact Hk. exact Hj.
    + rewrite Hs2 by lia. exact Hq.
  - intros a b. unfold dense_coeff. rewrite Hrow.
    destruct (Nat.leb_spec i a), (Nat.ltb_spec a (i + p)); cbn [andb]; try reflexivity.
    rewrite coeff_set_segment; [reflexivity| |].
    + rewrite HM2 by lia. exact Hj.
    + rewrite Hs2 by lia. exact Hq.
Qed.

Lemma row_map_diag_from (f : nat -> T -> T) : forall (M : list (list T)) (k a : nat),
  row (map_diag_from k f M) a
  = if (a <? length M)%nat
    then set_coeff (k + a) (f (k + a)%nat (coeff (row M a) (k + a))) (row M a)
    else [].
Proof.
  unfold row.
  induction M as [|r M IH]; intros k a; cbn [map_diag_from length].
  - destruct a; reflexivity.
  - destruct a as [|a]; cbn [nth].
    + rewrite Nat.add_0_r. reflexivity.
    + rewrite IH. replace (S k + a)%nat with (k + S a)%nat by lia.
      change (S a <? S (length M))%nat with (a <? length M)%nat. reflexivity.
Qed.

Lemma length_map_diag_from (f : nat -> T -> T) : forall (M : list (list T)) (k : nat),
  length (map_diag_from k f M) = length M.
Proof.
  induction M as [|r M IH]; intros k; cbn [map_diag_from length]; [reflexivity|].
  rewrite IH. reflexivity.
Qed.

Lemma diag_update_matrix (P Q i n : nat) (f : T -> T) (M : list (list T)) :
  is_matrix P Q M ->
  is_matrix P Q (diag_update i n f M) /\
  forall a b, (a < P)%nat -> (b < Q)%nat ->
    dense_coeff (diag_update i n f M) a b
    = if (a =? b)%nat && (i <=? a)%nat && (a <? i + n)%nat
      then f (dense_coeff M a a)
      else dense_coeff M a b.
Proof.
  intros [HM1 HM2]. unfold diag_update.
  split; [split|].
  - rewrite length_map_diag_from. exact HM1.
  - intros k Hk. rewrite row_map_diag_from.
    destruct (Nat.ltb_spec k (length M)); [|lia].
    rewrite length_set_coeff. apply HM2. exact Hk.
  - intros a b Ha Hb. unfold dense_coeff. rewrite row_map_diag_from.
    destruct (Nat.ltb_spec a (length M)); [|lia].
    cbn [Nat.add]. rewrite coeff_set_coeff, (HM2 a Ha).
    destruct (Nat.eqb_spec b a) as [-> | Hne].
    + rewrite Nat.eqb_refl. destruct (Nat.ltb_spec a Q); [|lia]. cbn [andb].
      destruct ((i <=? a)%nat && (a <? i + n)%nat); reflexivity.
    + destruct (Nat.eqb_spec a b); [congruence|]. reflexivity.
Qed.

Lemma transpose_matrix (q : nat) (M : list (list T)) :
  is_matrix q (length M) (transpose q M) /\
  forall a b, (a < q)%nat -> dense_coeff (transpose q M) a b = dense_coeff M b a.
Proof.
  assert (Hrow : forall a, (a < q)%nat ->
    row (transpose q M) a = map (fun r : list T => coeff r a) M).
  { intros a Ha. unfold transpose, row.
    rewrite (nth_map_in _ _ _ _ a [] 0%nat) by (rewrite length_seq; exact Ha).
    rewrite seq_nth by exact Ha. reflexivity. }
  split; [split|].
  - unfold transpose. rewrite length_map, length_seq. reflexivity.
  - intros k Hk. rewrite Hrow by exact Hk. apply length_map.
  - intros a b Ha. unfold dense_coeff. rewrite Hrow by exact Ha.
    unfold coeff at 1.
    destruct (Nat.ltb_spec b (length M)) as [Hb | Hb].
    + rewrite (nth_map_in _ _ _ _ b s0 []) by exact Hb. reflexivity.
    + rewrite nth_overflow by (rewrite length_map; exact Hb).
      unfold row. rewrite (nth_overflow M) by exact Hb. symmetry. apply coeff_nil.
Qed.

Lemma mzero_matrix (p q : nat) :
  is_matrix p q (mzero p q) /\ forall a b, dense_coeff (mzero p q) a b = @s0 T ST.
Proof.
  assert (Hrow : forall a, (a < p)%nat -> row (mzero p q) a = vzero q).
  { intros a Ha. unfold mzero, row.
    rewrite (nth_indep _ [] (vzero q)) by (rewrite repeat_length; exact Ha).
    apply nth_repeat. }
  split; [split|].
  - unfold mzero. apply repeat_length.
  - intros k Hk. rewrite Hrow by exact Hk. unfold vzero. apply repeat_length.
  - intros a b. unfold dense_coeff.
    destruct (Nat.ltb_spec a p) as [Ha | Ha].
    + rewrite Hrow by exact Ha. unfold coeff, vzero.
      destruct (Nat.ltb_spec b q) as [Hb | Hb].
      * apply nth_repeat.
      * apply nth_overflow. rewrite repeat_length. exact Hb.
    + unfold mzero, row. rewrite nth_overflow by (rewrite repeat_length; exact Ha).
      apply coeff_nil.
Qed.

Lemma is_matrix_cols (P Q : nat) (M : list (list T)) :
  is_matrix P Q M -> (0 < P)%nat -> dense_rows M = P /\ dense_cols M = Q.
Proof. intros [H1 H2] HP. split; [exact H1|]. apply H2. exact HP. Qed.

(** X28: given a square [kkt] buffer of size [dim + n_eq] and scaled
    matrices of the sizes of the model, [setup_factorization] factorizes the
    matrix it leaves in [kkt], whose blocks are [H_scaled + rho I] and the
    transpose of [A_scaled] above, [A_scaled] and [- mu_eq I] below; it is
    symmetric when [H_scaled] is.  The diagonal of the lower block is
    [- mu_eq], where [refactorize] writes [- mu_eq_inv].  Nothing else of the
    workspace is written. *)
Theorem setup_factorization_kkt
    (w : QPWorkspace T Ldl Ruiz) (m : QPData T) (r : QPResults T) :
  let n := dim m in
  let ne := n_eq m in
  is_matrix (n + ne) (n + ne) (mat w kkt) ->
  is_matrix n n (mat w H_scaled) ->
  is_matrix ne n (mat w A_scaled) ->
  let w' := setup_factorization ext w m r in
  let K := mat w' kkt in
  ldl w' = ldl_factorize ext (ldl w) K /\
  is_matrix (n + ne) (n + ne) K /\
  (forall i j, (i < n + ne)%nat -> (j < n + ne)%nat ->
     dense_coeff K i j
     = if (i <? n)%nat then
         if (j <? n)%nat then
           if (i =? j)%nat then dense_coeff (mat w H_scaled) i i + rho r
           else dense_coeff (mat w H_scaled) i j
         else dense_coeff (mat w A_scaled) (j - n) i
       else
         if (j <? n)%nat then dense_coeff (mat w A_scaled) (i - n) j
         else if (i =? j)%nat then - mu_eq r else s0) /\
  ((forall i j, (i < n)%nat -> (j < n)%nat ->
      dense_coeff (mat w H_scaled) i j = dense_coeff (mat w H_scaled) j i) ->
   forall i j, (i < n + ne)%nat -> (j < n + ne)%nat ->
     dense_coeff K i j = dense_coeff K j i) /\
  vec w' = vec w /\ bvec w' = bvec w /\ scal w' = scal w /\ ruiz w' = ruiz w /\
  current_bijection_map w' = current_bijection_map w /\
  forall f, f <> kkt -> mat w' f = mat w f.
Proof.
  cbv zeta. intros HK HH HA.
  set (n := dim m) in *. set (ne := n_eq m) in *.
  unfold setup_factorization. fold n ne. cbv zeta.
  set (K0 := mat w kkt) in *.
  destruct (set_block_matrix (n + ne) (n + ne) 0 0 n n n (mat w H_scaled) K0 HK HH)
    as [M1 C1]; [lia|lia|lia|].
  set (K1 := set_block 0 0 n n (mat w H_scaled) K0) in *.
  destruct (diag_update_matrix (n + ne) (n + ne) 0 n (fun d => d + rho r) K1 M1)
    as [M2 C2].
  set (K2 := diag_update 0 n (fun d => d + rho r) K1) in *.
  destruct (transpose_matrix n (mat w A_scaled)) as [MT CT].
  rewrite (proj1 HA) in MT.
  destruct (set_block_matrix (n + ne) (n + ne) 0 n n ne ne
              (transpose n (mat w A_scaled)) K2 M2 MT) as [M3 C3]; [lia|lia|lia|].
  set (K3 := set_block 0 n n ne (transpose n (mat w A_scaled)) K2) in *.
  destruct (set_block_matrix (n + ne) (n + ne) n 0 ne n n (mat w A_scaled) K3 M3 HA)
    as [M4 C4]; [lia|lia|lia|].
  set (K4 := set_block n 0 ne n (mat w A_scaled) K3) in *.
  assert (Hcorner : (dense_rows K4 - ne = n /\ dense_cols K4 - ne = n)%nat
                    \/ (n + ne = 0)%nat).
  { destruct (Nat.eq_dec (n + ne) 0) as [E | E]; [right; exact E|left].
    destruct (is_matrix_cols _ _ _ M4) as [R1 R2]; [lia|]. rewrite R1, R2. lia. }
  assert (M5C5 :
    is_matrix (n + ne) (n + ne)
      (set_block (dense_rows K4 - ne) (dense_cols K4 - ne) ne ne (mzero ne ne) K4) /\
    forall a b,
      dense_coeff
        (set_block (dense_rows K4 - ne) (dense_cols K4 - ne) ne ne (mzero ne ne) K4) a b
      = if (n <=? a)%nat && (a <? n + ne)%nat && (n <=? b)%nat && (b <? n + ne)%nat
        then s0 else dense_coeff K4 a b).
  { destruct (mzero_matrix ne ne) as [MZ CZ].
    destruct Hcorner as [[R1 R2] | E0].
    - rewrite R1, R2.
      destruct (set_block_matrix (n + ne) (n + ne) n n ne ne ne (mzero ne ne) K4 M4 MZ)
        as [M5 C5]; [lia|lia|lia|].
      split; [exact M5|]. intros a b. rewrite C5, CZ. reflexivity.
    - assert (n = 0%nat) by lia. assert (ne = 0%nat) by lia.
      replace (dense_rows K4 - ne)%nat with 0%nat by (destruct M4 as [L _]; unfold dense_rows; lia).
      replace ne with 0%nat in *.
      destruct (set_block_matrix (n + 0) (n + 0) 0 (dense_cols K4 - 0) 0 0 0
                  (mzero 0 0) K4 M4 MZ) as [M5 C5]; [lia| |lia|].
      + unfold dense_cols. destruct M4 as [L _].
        destruct K4; [cbn; lia|cbn in L; lia].
      + split; [exact M5|]. intros a b. rewrite C5.
        destruct (Nat.ltb_spec a (0 + 0)); [lia|].
        destruct (Nat.ltb_spec a (n + 0)); [lia|].
        rewrite !andb_false_r. reflexivity. }
  destruct M5C5 as [M5 C5].
  set (K5 := set_block (dense_rows K4 - ne) (dense_cols K4 - ne) ne ne (mzero ne ne) K4)
    in *.
  destruct (diag_update_matrix (n + ne) (n + ne) n ne (fun _ => - mu_eq r) K5 M5)
    as [M6 C6].
  set (K6 := diag_update n ne (fun _ => - mu_eq r) K5) in *.
  assert (Hkkt : mat (set_ldl (ldl_factorize ext (ldl (set_mat kkt K6 w))
                                 (mat (set_mat kkt K6 w) kkt)) (set_mat kkt K6 w)) kkt = K6)
    by reflexivity.
  rewrite Hkkt.
  assert (Hentries : forall i j, (i < n + ne)%nat -> (j < n + ne)%nat ->
    dense_coeff K6 i j
    = if (i <? n)%nat then
        if (j <? n)%nat then
          if (i =? j)%nat then dense_coeff (mat w H_scaled) i i + rho r
          else dense_coeff (mat w H_scaled) i j
        else dense_coeff (mat w A_scaled) (j - n) i
      else
        if (j <? n)%nat then dense_coeff (mat w A_scaled) (i - n) j
        else if (i =? j)%nat then - mu_eq r else s0).
  { intros i j Hi Hj.
    rewrite C6 by assumption. rewrite !C5, !C4, !C3. rewrite !C2 by assumption.
    rewrite !C1.
    destruct (Nat.ltb_spec i n), (Nat.ltb_spec j n), (Nat.eqb_spec i j);
      repeat match goal with
      | |- context [(?a <=? ?b)%nat] => destruct (Nat.leb_spec a b); try lia
      | |- context [(?a <? ?b)%nat] => destruct (Nat.ltb_spec a b); try lia
      | |- context [(?a =? ?b)%nat] => destruct (Nat.eqb_spec a b); try lia
      end; cbn [andb]; subst;
      rewrite ?Nat.sub_0_r; try reflexivity; try lia.
    all: try (rewrite CT by lia; reflexivity). }
  split; [reflexivity|]. split; [exact M6|]. split; [exact Hentries|]. split.
  { intros Hsym i j Hi Hj. rewrite !Hentries by assumption.
    destruct (Nat.ltb_spec i n), (Nat.ltb_spec j n), (Nat.eqb_spec i j);
      try (destruct (Nat.eqb_spec j i); try lia); subst; try reflexivity; try lia.
    apply Hsym; assumption. }
  repeat split.
  intros f Hf. destruct f; try reflexivity. congruence.
Qed.

End KktMatrix.

(** * The equality-constrained initial guess (helpers.hpp:31-53, 124-138) *)

Section EqualityGuess.
Context {T : Type} {ST : Scalar T} {Ldl Ruiz : Type}.
Variable ext : Collaborators T Ldl Ruiz.
Local Open Scope scalar_scope.

Lemma setZero_repeat (v : list T) : setZero v = vzero (length v).
Proof.
  unfold setZero, vzero. induction v as [|e v IH]; [reflexivity|].
  cbn [map length repeat]. rewrite IH. reflexivity.
Qed.

Lemma setZero_zero (v : list T) : Forall (fun e => e = s0) (setZero v).
Proof.
  unfold setZero. induction v as [|e v IH]; constructor; [reflexivity|exact IH].
Qed.

Lemma skipn_vzero (k n : nat) : skipn k (@vzero T ST n) = vzero (n - k).
Proof.
  unfold vzero. revert n. induction k as [|k IH]; intros n.
  - rewrite Nat.sub_0_r. reflexivity.
  - destruct n as [|n]; [reflexivity|]. cbn [repeat skipn]. apply IH.
Qed.

(** The right-hand side written by three assignments, as one vector. *)
Lemma equality_guess_rhs (n ne : nat) (gs bs v : list T) :
  length gs = n -> length bs = ne -> (n + ne <= length v)%nat ->
  set_segment n ne bs (set_head n (vneg gs) (setZero v))
  = vneg gs ++ bs ++ vzero (length v - (n + ne)).
Proof.
  intros Hg Hb Hv.
  assert (Hneg : length (vneg gs) = n) by (unfold vneg; rewrite length_map; exact Hg).
  unfold set_head, set_segment. rewrite setZero_repeat, skipn_vzero.
  rewrite (firstn_all2 (vneg gs)) by lia.
  rewrite firstn_app, (firstn_all2 (vneg gs)) by lia.
  rewrite Hneg, Nat.sub_diag, firstn_O, app_nil_r.
  rewrite (firstn_all2 bs) by lia.
  rewrite skipn_app, (skipn_all2 (vneg gs)) by lia.
  rewrite Hneg, skipn_vzero. cbn [app].
  do 3 f_equal. lia.
Qed.

(** X29: with scaled vectors of the sizes of the model, the equality
    constrained initial guess solves the KKT system with right-hand side
    [(- g_scaled, b_scaled, 0)]: x and y are the first [dim] and the next
    [n_eq] entries of the solution of [iterative_solve_with_permut_fact] with
    tolerance 1 on a workspace that differs from the given one in [rhs] only.
    z, the penalties and the counters are left alone, and [dw_aug] and [rhs]
    are handed back zeroed.  The [initial_guess] of the helpers runs it under
    the policy [EQUALITY_CONSTRAINED_INITIAL_GUESS] and does nothing under the
    other four. *)
Theorem equality_constrained_initial_guess_system
    (w : QPWorkspace T Ldl Ruiz) (s : QPSettings T) (m : QPData T) (r : QPResults T) :
  let n := dim m in
  let ne := n_eq m in
  length (vec w g_scaled) = n ->
  length (vec w b_scaled) = ne ->
  (n + ne <= length (vec w rhs))%nat ->
  let out := compute_equality_constrained_initial_guess ext w s m r in
  (exists w_sys : QPWorkspace T Ldl Ruiz,
     vec w_sys rhs
     = vneg (vec w g_scaled) ++ vec w b_scaled ++ vzero (length (vec w rhs) - (n + ne)) /\
     (forall f, f <> rhs -> vec w_sys f = vec w f) /\
     mat w_sys = mat w /\ bvec w_sys = bvec w /\ scal w_sys = scal w /\
     ldl w_sys = ldl w /\ ruiz w_sys = ruiz w /\
     current_bijection_map w_sys = current_bijection_map w /\
     let w_sol := iterative_solve_with_permut_fact ext s m r w_sys s1 (n + ne) in
     x (snd out) = vhead n (vec w_sol dw_aug) /\
     y (snd out) = vsegment n ne (vec w_sol dw_aug)) /\
  z (snd out) = z r /\ info_kept r (snd out) /\ n_tot (snd out) = n_tot r /\
  Forall (fun e => e = s0) (vec (fst out) dw_aug) /\
  Forall (fun e => e = s0) (vec (fst out) rhs) /\
  (initial_guess_policy s = EQUALITY_CONSTRAINED_INITIAL_GUESS ->
   dense_initial_guess ext w s m r = out) /\
  (initial_guess_policy s <> EQUALITY_CONSTRAINED_INITIAL_GUESS ->
   dense_initial_guess ext w s m r = (w, r)).
Proof.
  cbv zeta. intros Hg Hb Hv.
  unfold compute_equality_constrained_initial_guess. cbv zeta.
  match goal with
  | |- context [iterative_solve_with_permut_fact ext s m r ?w0 s1 _] => set (w_sys := w0)
  end.
  set (w_sol := iterative_solve_with_permut_fact ext s m r w_sys s1 (dim m + n_eq m)).
  cbn [fst snd].
  split.
  { exists w_sys. split.
    - unfold w_sys. rewrite vec_set_vec_same.
      rewrite vec_set_vec_same.
      rewrite (vec_set_vec_other rhs b_scaled), (vec_set_vec_other rhs b_scaled) by congruence.
      rewrite vec_set_vec_same.
      rewrite (vec_set_vec_other rhs g_scaled) by congruence.
      apply equality_guess_rhs; assumption.
    - split.
      { intros f Hf. unfold w_sys. rewrite !vec_set_vec_other by congruence. reflexivity. }
      repeat split; reflexivity. }
  split; [reflexivity|]. split; [unfold info_kept; cbn; repeat split; lia|].
  split; [reflexivity|].
  split; [rewrite vec_set_vec_other by congruence; rewrite vec_set_vec_same;
          apply setZero_zero|].
  split; [rewrite vec_set_vec_same; apply setZero_zero|].
  unfold dense_initial_guess, compute_equality_constrained_initial_guess.
  split.
  - intros ->. reflexivity.
  - intros Hne. destruct (initial_guess_policy s); congruence.
Qed.

End EqualityGuess.

(** * The refactorization (solver.hpp:57-81) *)

Section Refactorize.
Context {T : Type} {ST : Scalar T} {Ldl Ruiz : Type}.
Variable ext : Collaborators T Ldl Ruiz.
Local Open Scope scalar_scope.

(** X30: on a square [kkt] buffer of size [dim + n_eq], [refactorize] adds
    [rho_new - rho] to the first [dim] diagonal entries, overwrites the next
    [n_eq] by [- mu_eq_inv], and leaves every other entry alone; without
    active inequality slots the new factorization is that of this matrix.
    [dw_aug] is handed back zeroed, and apart from it, [kkt] and the
    factorization, nothing in the workspace is written. *)
Theorem refactorize_kkt
    (m : QPData T) (r : QPResults T) (w : QPWorkspace T Ldl Ruiz) (rho_new : T) :
  let n := dim m in
  let ne := n_eq m in
  is_matrix (n + ne) (n + ne) (mat w kkt) ->
  let w' := refactorize ext m r w rho_new in
  is_matrix (n + ne) (n + ne) (mat w' kkt) /\
  (forall i j, (i < n + ne)%nat -> (j < n + ne)%nat ->
     dense_coeff (mat w' kkt) i j
     = if (i =? j)%nat then
         if (i <? n)%nat then dense_coeff (mat w kkt) i i + (rho_new - rho r)
         else - mu_eq_inv r
       else dense_coeff (mat w kkt) i j) /\
  (n_c r = 0%nat -> ldl w' = ldl_factorize ext (ldl w) (mat w' kkt)) /\
  Forall (fun e => e = s0) (vec w' dw_aug) /\
  (forall f, f <> kkt -> mat w' f = mat w f) /\
  bvec w' = bvec w /\ scal w' = scal w /\ ruiz w' = ruiz w /\
  current_bijection_map w' = current_bijection_map w /\
  forall f, f <> dw_aug -> vec w' f = vec w f.
Proof.
  cbv zeta. intros HK.
  set (n := dim m) in *. set (ne := n_eq m) in *.
  unfold refactorize. fold n ne. cbv zeta.
  match goal with
  | |- context [reinsert_active_rows ext m r ?wa] =>
      pose proof (reinsert_active_rows_frame ext m r wa) as F; cbv zeta in F;
      set (w3 := wa) in *
  end.
  destruct F as (F1 & F2 & F3 & F4 & F5 & F6).
  destruct (diag_update_matrix (n + ne) (n + ne) 0 n
              (fun d => d + (rho_new - rho r)) (mat w kkt) HK) as [M1 C1].
  destruct (diag_update_matrix (n + ne) (n + ne) n ne
              (fun _ => - mu_eq_inv r) _ M1) as [M2 C2].
  assert (Hkkt : mat (set_vec dw_aug
                        (setZero (vec (reinsert_active_rows ext m r w3) dw_aug))
                        (reinsert_active_rows ext m r w3)) kkt
                 = diag_update n ne (fun _ => - mu_eq_inv r)
                     (diag_update 0 n (fun d => d + (rho_new - rho r)) (mat w kkt))).
  { cbn [mat set_vec]. rewrite F1. reflexivity. }
  rewrite Hkkt.
  split; [exact M2|]. split.
  { intros i j Hi Hj. rewrite C2 by assumption. rewrite !C1 by assumption.
    destruct (Nat.eqb_spec i j) as [-> | Hne]; cbn [andb]; [|reflexivity].
    cbn [andb Nat.leb Nat.add].
    destruct (Nat.ltb_spec j n), (Nat.leb_spec n j), (Nat.ltb_spec j (n + ne));
      cbn [andb]; try reflexivity; lia. }
  split.
  { intros Hnc. cbn [ldl set_vec].
    unfold reinsert_active_rows. rewrite Hnc. reflexivity. }
  split; [rewrite vec_set_vec_same; apply setZero_zero|].
  cbn [mat bvec scal ruiz current_bijection_map set_vec].
  split.
  { intros f Hf. rewrite F1. destruct f; try reflexivity. congruence. }
  split; [rewrite F2; reflexivity|]. split; [rewrite F3; reflexivity|].
  split; [rewrite F4; reflexivity|]. split; [rewrite F5; reflexivity|].
  intros f Hf. rewrite vec_set_vec_other by congruence. rewrite F6 by assumption.
  unfold w3. cbn [vec set_ldl set_mat]. apply vec_set_vec_other. congruence.
Qed.

End Refactorize.

(** * The scaled problem through a solve (solver.hpp:57-975) *)

Section ProblemThroughSolve.
Context {T : Type} {ST : Scalar T} {Ldl Ruiz : Type}.
Variable ext : Collaborators T Ldl Ruiz.
Hypothesis Hext : collaborators_keep_problem ext.
Local Open Scope scalar_scope.

Lemma problem_kept_refl (w : QPWorkspace T Ldl Ruiz) : problem_kept w w.
Proof. unfold problem_kept. repeat split; reflexivity. Qed.

Lemma problem_kept_trans (w1 w2 w3 : QPWorkspace T Ldl Ruiz) :
  problem_kept w1 w2 -> problem_kept w2 w3 -> problem_kept w1 w3.
Proof.
  unfold problem_kept.
  intros (a1 & a2 & a3 & a4 & a5 & a6) (b1 & b2 & b3 & b4 & b5 & b6).
  repeat split; try congruence.
  intros f Hf. rewrite b6, a6; auto.
Qed.

Lemma problem_kept_set_vec (f : WVec) (v : list T) (w : QPWorkspace T Ldl Ruiz) :
  f <> g_scaled -> problem_kept w (set_vec f v w).
Proof.
  intros Hf. unfold problem_kept. repeat split; try reflexivity.
  apply vec_set_vec_other. exact Hf.
Qed.

Lemma problem_kept_set_bvec (f : WBool) (v : list bool) (w : QPWorkspace T Ldl Ruiz) :
  problem_kept w (set_bvec f v w).
Proof. unfold problem_kept. repeat split; reflexivity. Qed.

Lemma problem_kept_set_ldl (v : Ldl) (w : QPWorkspace T Ldl Ruiz) :
  problem_kept w (set_ldl v w).
Proof. unfold problem_kept. repeat split; reflexivity. Qed.

Lemma problem_kept_set_kkt (v : list (list T)) (w : QPWorkspace T Ldl Ruiz) :
  problem_kept w (set_mat kkt v w).
Proof. unfold problem_kept. repeat split; reflexivity. Qed.

Lemma problem_kept_solve_frame (w w' : QPWorkspace T Ldl Ruiz) :
  solve_frame w w' -> problem_kept w w'.
Proof.
  intros (a1 & a2 & a3 & a4 & a5 & a6 & a7). unfold problem_kept.
  rewrite a1, a3, a5. repeat split. apply a7; discriminate.
Qed.

Lemma problem_kept_reinsert_active_rows m r (w : QPWorkspace T Ldl Ruiz) :
  problem_kept w (reinsert_active_rows ext m r w).
Proof.
  pose proof (reinsert_active_rows_frame ext m r w) as F. cbv zeta in F.
  destruct F as (a1 & a2 & a3 & a4 & a5 & a6). unfold problem_kept.
  rewrite a1, a3, a4. repeat split. apply a6; discriminate.
Qed.

(** A chain of problem-keeping steps. *)
Ltac kept_step :=
  first [ apply problem_kept_set_vec; discriminate
        | apply problem_kept_set_bvec
        | apply problem_kept_set_ldl
        | apply problem_kept_set_kkt
        | apply problem_kept_reinsert_active_rows ].
Ltac kept_chain :=
  repeat (first [ kept_step | eapply problem_kept_trans; [|kept_step] ]);
  try apply problem_kept_refl.

Lemma problem_kept_refactorize m r (w : QPWorkspace T Ldl Ruiz) rho_new :
  problem_kept w (refactorize ext m r w rho_new).
Proof. unfold refactorize. cbv zeta. kept_chain. Qed.

Lemma problem_kept_mu_update m r (w : QPWorkspace T Ldl Ruiz) e i :
  problem_kept w (mu_update ext m r w e i).
Proof.
  unfold mu_update. cbv zeta.
  destruct (0 <? n_eq m)%nat; destruct (0 <? n_c r)%nat;
    repeat (apply fold_left_invariant with (P := problem_kept w);
            [intros w1 j H1; eapply problem_kept_trans; [exact H1|]; kept_chain|]);
    kept_chain.
Qed.

Lemma problem_kept_solve_and_refine s m r (w : QPWorkspace T Ldl Ruiz) eps k :
  problem_kept w (rwork (snd (solve_and_refine ext s m r w eps k))).
Proof. apply problem_kept_solve_frame, solve_frame_solve_and_refine. Qed.

Lemma problem_kept_iterative_solve s m r (w : QPWorkspace T Ldl Ruiz) eps k :
  problem_kept w (iterative_solve_with_permut_fact ext s m r w eps k).
Proof.
  unfold iterative_solve_with_permut_fact. cbv zeta.
  destruct (_ >=? std_max eps (eps_refact s));
    repeat (first [ kept_step | apply problem_kept_solve_and_refine
                  | eapply problem_kept_trans;
                    [|first [kept_step | apply problem_kept_solve_and_refine]] ]);
    apply problem_kept_refl.
Qed.

(** Steps that only write buffers and masks: every member of the scaled
    problem is read back through the writes. *)
Ltac kept_by_writes :=
  unfold problem_kept; repeat split; intros; reflexivity.

Lemma problem_kept_global_primal_residual m r (w : QPWorkspace T Ldl Ruiz) :
  problem_kept w (fst (global_primal_residual ext m r w)).
Proof. kept_by_writes. Qed.

Lemma problem_kept_global_dual_residual m r (w : QPWorkspace T Ldl Ruiz) :
  problem_kept w (fst (global_dual_residual ext m r w)).
Proof. kept_by_writes. Qed.

Lemma problem_kept_compute_primal_dual_residual m r (w : QPWorkspace T Ldl Ruiz) :
  problem_kept w (fst (compute_primal_dual_residual m r w)).
Proof. kept_by_writes. Qed.

Lemma problem_kept_active_set_change m r (w : QPWorkspace T Ldl Ruiz) :
  problem_kept w (snd (active_set_change ext m r w)).
Proof. destruct Hext as (H & _). apply H. Qed.

Lemma problem_kept_initial_guess_ls s m r (w : QPWorkspace T Ldl Ruiz) :
  problem_kept w (initial_guess_ls ext s m r w).
Proof. destruct Hext as (_ & H & _). apply H. Qed.

Lemma problem_kept_correction_guess_ls m r (w : QPWorkspace T Ldl Ruiz) :
  problem_kept w (correction_guess_ls ext m r w).
Proof. destruct Hext as (_ & _ & H). apply H. Qed.

Lemma problem_kept_newton_step s m r (w : QPWorkspace T Ldl Ruiz) eps :
  problem_kept w (snd (newton_step ext s m r w eps)).
Proof.
  unfold newton_step. cbv zeta. cbn [snd].
  eapply problem_kept_trans; [|apply problem_kept_iterative_solve].
  eapply problem_kept_trans; [|apply problem_kept_active_set_change].
  kept_by_writes.
Qed.

Lemma problem_kept_initial_guess_active_set m r (w : QPWorkspace T Ldl Ruiz) :
  problem_kept w (fst (initial_guess_active_set ext m r w)).
Proof. kept_by_writes. Qed.

Lemma problem_kept_initial_guess_rhs m r (w : QPWorkspace T Ldl Ruiz) :
  problem_kept w (initial_guess_rhs m r w).
Proof.
  unfold initial_guess_rhs. cbv zeta.
  apply fold_left_invariant with (P := problem_kept w).
  - intros w1 i H1. eapply problem_kept_trans; [exact H1|].
    destruct (_ <? _)%nat; [destruct (nth i (bvec w1 active_set_up) false);
      [|destruct (nth i (bvec w1 active_set_low) false)]|]; kept_chain.
  - kept_chain.
Qed.

Lemma problem_kept_initial_guess_direction m r (w : QPWorkspace T Ldl Ruiz) :
  problem_kept w (initial_guess_direction m r w).
Proof.
  unfold initial_guess_direction. cbv zeta.
  repeat (eapply problem_kept_trans; [|kept_step]).
  apply fold_left_invariant with (P := problem_kept w).
  - intros w1 i H1. eapply problem_kept_trans; [exact H1|].
    destruct (_ <? _)%nat; kept_chain.
  - apply problem_kept_refl.
Qed.

Lemma problem_kept_initial_guess_update m r (w : QPWorkspace T Ldl Ruiz) :
  problem_kept w (snd (fst (initial_guess_update m r w))).
Proof. kept_by_writes. Qed.

Lemma problem_kept_initial_guess s m r (w : QPWorkspace T Ldl Ruiz) eps :
  problem_kept w (snd (fst (initial_guess ext s m r w eps))).
Proof.
  unfold initial_guess.
  pose proof (problem_kept_initial_guess_active_set m r w) as H1.
  destruct (initial_guess_active_set ext m r w) as [w1 k]. cbn [fst] in H1. cbv zeta.
  eapply problem_kept_trans; [|apply problem_kept_initial_guess_update].
  eapply problem_kept_trans; [|apply problem_kept_initial_guess_ls].
  eapply problem_kept_trans; [|apply problem_kept_initial_guess_direction].
  eapply problem_kept_trans; [|apply problem_kept_iterative_solve].
  eapply problem_kept_trans; [|apply problem_kept_initial_guess_rhs].
  eapply problem_kept_trans; [exact H1|apply problem_kept_active_set_change].
Qed.

Lemma problem_kept_correction_guess_direction s m r (w : QPWorkspace T Ldl Ruiz) eps :
  problem_kept w (snd (correction_guess_direction ext s m r w eps)).
Proof.
  unfold correction_guess_direction.
  pose proof (problem_kept_newton_step s m r w eps) as H1.
  destruct (newton_step ext s m r w eps) as [r1 w1]. cbn [snd] in H1. cbv zeta. cbn [snd].
  eapply problem_kept_trans; [exact H1|].
  destruct (0 <? n_in m)%nat.
  - eapply problem_kept_trans; [|apply problem_kept_correction_guess_ls]. kept_chain.
  - kept_chain.
Qed.

Lemma problem_kept_correction_guess_step m r (w : QPWorkspace T Ldl Ruiz) :
  problem_kept w (snd (fst (fst (correction_guess_step m r w)))).
Proof. kept_by_writes. Qed.

Lemma problem_kept_correction_guess_tail m r (w : QPWorkspace T Ldl Ruiz) eps iter e :
  problem_kept w (snd (fst (correction_guess_tail m r w eps iter e))).
Proof.
  unfold correction_guess_tail.
  destruct (_ <? _); [apply problem_kept_refl|].
  pose proof (problem_kept_correction_guess_step m r w) as H1.
  destruct (correction_guess_step m r w) as [[[r1 w1] c1] e1]. cbn [fst snd] in H1.
  destruct (_ <=? _); exact H1.
Qed.

Lemma problem_kept_correction_guess_loop s m eps fuel :
  forall r (w : QPWorkspace T Ldl Ruiz) iter e,
  problem_kept w (snd (fst (correction_guess_loop ext fuel s m r w eps iter e))).
Proof.
  induction fuel as [|fuel IH]; intros r w iter e; cbn [correction_guess_loop].
  - apply problem_kept_refl.
  - destruct (iter =? max_iter_in s)%Z; [apply problem_kept_refl|].
    pose proof (problem_kept_correction_guess_direction s m r w eps) as H1.
    destruct (correction_guess_direction ext s m r w eps) as [r1 w1]. cbn [snd] in H1.
    pose proof (problem_kept_correction_guess_tail m r1 w1 eps iter e) as H2.
    destruct (correction_guess_tail m r1 w1 eps iter e) as [[[stop r2] w2] e2].
    cbn [fst snd] in H2.
    assert (H12 : problem_kept w w2) by (eapply problem_kept_trans; eassumption).
    destruct stop as [stop|]; [exact H12|].
    eapply problem_kept_trans; [exact H12|apply IH].
Qed.

Lemma problem_kept_correction_guess s m r (w : QPWorkspace T Ldl Ruiz) eps :
  problem_kept w (snd (fst (correction_guess ext s m r w eps))).
Proof.
  unfold correction_guess.
  match goal with
  | |- context [correction_guess_loop ext ?fuel s m r w eps ?i ?e] =>
      pose proof (problem_kept_correction_guess_loop s m eps fuel r w i e) as H1;
      destruct (correction_guess_loop ext fuel s m r w eps i e) as [[[stop r1] w1] e1]
  end.
  exact H1.
Qed.

Lemma problem_kept_inner_step s m r (w : QPWorkspace T Ldl Ruiz) lhs eta_in :
  problem_kept w (snd (inner_step ext s m r w lhs eta_in)).
Proof.
  unfold inner_step. cbv zeta.
  assert (H0 : problem_kept w (save_previous_iterate r w)) by kept_by_writes.
  set (w0 := save_previous_iterate r w) in *. clearbody w0.
  assert (Hprep1 : forall r1 (w1 : QPWorkspace T Ldl Ruiz),
            problem_kept w1 (prepare_correction_after_initial_guess m r1 w1))
    by (intros; kept_by_writes).
  assert (Hprep2 : forall r1 (w1 : QPWorkspace T Ldl Ruiz),
            problem_kept w1 (prepare_correction_from_previous ext m r1 w1))
    by (intros; kept_by_writes).
  destruct ((lhs <? eps_IG s) || (n_in m =? 0)%nat).
  - pose proof (problem_kept_initial_guess s m r w0 eta_in) as H1.
    destruct (initial_guess ext s m r w0 eta_in) as [[r1 w1] e1]. cbn [fst snd] in H1.
    assert (H01 : problem_kept w w1) by (eapply problem_kept_trans; eassumption).
    cbn [negb andb orb].
    destruct (e1 >=? eta_in); destruct (n_in m =? 0)%nat; cbn [negb andb orb]; try exact H01.
    match goal with
    | |- context [correction_guess ext s m ?ra ?wa ?ea] =>
        pose proof (problem_kept_correction_guess s m ra wa ea) as H2;
        destruct (correction_guess ext s m ra wa ea) as [[r2 w2] e2]
    end.
    cbn [fst snd] in H2 |- *.
    eapply problem_kept_trans; [|exact H2].
    eapply problem_kept_trans; [exact H01|apply Hprep1].
  - cbn [negb andb orb].
    destruct (n_in m =? 0)%nat; cbn [negb andb orb]; [exact H0|].
    match goal with
    | |- context [correction_guess ext s m ?ra ?wa ?ea] =>
        pose proof (problem_kept_correction_guess s m ra wa ea) as H2;
        destruct (correction_guess ext s m ra wa ea) as [[r2 w2] e2]
    end.
    cbn [fst snd] in H2 |- *.
    eapply problem_kept_trans; [|exact H2].
    eapply problem_kept_trans; [exact H0|apply Hprep2].
Qed.

Lemma problem_kept_effective_mu_update m r (w : QPWorkspace T Ldl Ruiz) pending :
  problem_kept w (snd (effective_mu_update ext m r w pending)).
Proof. unfold effective_mu_update. cbv zeta. cbn [snd]. apply problem_kept_mu_update. Qed.

Lemma problem_kept_refactor_on_dual_threshold s m r (w : QPWorkspace T Ldl Ruiz) d :
  problem_kept w (snd (refactor_on_dual_threshold ext s m r w d)).
Proof.
  unfold refactor_on_dual_threshold.
  destruct (_ && _); cbn [snd]; [apply problem_kept_refactorize|apply problem_kept_refl].
Qed.

End ProblemThroughSolve.

(** * The Solved exits (solver.hpp:743-789 and 875-902) *)

Section SolvedExit.
Context {T : Type} {ST : Scalar T} {Ldl Ruiz : Type}.
Variable ext : Collaborators T Ldl Ruiz.
Hypothesis Hext : collaborators_keep_problem ext.
Local Open Scope scalar_scope.

Lemma claimed_kept (m : QPData T) (w w' : QPWorkspace T Ldl Ruiz) (xs ys zs : list T) :
  problem_kept w w' ->
  primal_residual_claimed ext m w' xs = primal_residual_claimed ext m w xs /\
  dual_residual_claimed ext m w' xs ys zs = dual_residual_claimed ext m w xs ys zs /\
  R_p_claimed ext m w' xs = R_p_claimed ext m w xs /\
  R_d_claimed ext m w' xs ys zs = R_d_claimed ext m w xs ys zs.
Proof.
  intros (a1 & a2 & a3 & a4 & a5 & _).
  unfold primal_residual_claimed, dual_residual_claimed, R_p_claimed, R_d_claimed,
    Ax_claimed, Cx_claimed, Hx_claimed, ATy_claimed, CTz_claimed.
  rewrite a1, a2, a3, a4, a5. repeat split; reflexivity.
Qed.

Lemma primal_lhs_claimed (m : QPData T) r (w : QPWorkspace T Ldl Ruiz) :
  primal_feasibility_lhs (snd (global_primal_residual ext m r w))
  = primal_residual_claimed ext m w (x r).
Proof. reflexivity. Qed.

Lemma primal_rhs_claimed (m : QPData T) r (w w' : QPWorkspace T Ldl Ruiz) :
  norms_recorded m w -> problem_kept w w' ->
  primal_feasibility_rhs w' (snd (global_primal_residual ext m r w))
  = R_p_claimed ext m w (x r).
Proof.
  intros (n1 & n2 & n3 & _) (_ & _ & _ & _ & _ & a6).
  unfold primal_feasibility_rhs. rewrite !a6 by discriminate. rewrite n1, n2, n3.
  reflexivity.
Qed.

Lemma dual_lhs_claimed (m : QPData T) r (w : QPWorkspace T Ldl Ruiz) :
  dual_feasibility_lhs (snd (global_dual_residual ext m r w))
  = dual_residual_claimed ext m w (x r) (y r) (z r).
Proof. reflexivity. Qed.

Lemma dual_rhs_claimed (m : QPData T) r (w w' : QPWorkspace T Ldl Ruiz) :
  norms_recorded m w -> problem_kept w w' ->
  dual_feasibility_rhs w' (snd (global_dual_residual ext m r w))
  = R_d_claimed ext m w (x r) (y r) (z r).
Proof.
  intros (_ & _ & _ & n4) (_ & _ & _ & _ & _ & a6).
  unfold dual_feasibility_rhs. rewrite !a6 by discriminate. rewrite n4.
  reflexivity.
Qed.

Lemma norms_recorded_kept (m : QPData T) (w w' : QPWorkspace T Ldl Ruiz) :
  problem_kept w w' -> norms_recorded m w -> norms_recorded m w'.
Proof.
  intros (_ & _ & _ & _ & _ & a6) (n1 & n2 & n3 & n4). unfold norms_recorded.
  rewrite !a6 by discriminate. repeat split; assumption.
Qed.

(** The two residual evaluations of a test, on a workspace that still
    holds the problem of [wb]. *)
Lemma exit_tests_claimed (m : QPData T) r (wb w : QPWorkspace T Ldl Ruiz) :
  problem_kept wb w -> norms_recorded m wb ->
  let gp := global_primal_residual ext m r w in
  let gd := global_dual_residual ext m r (fst gp) in
  problem_kept wb (fst gp) /\ problem_kept wb (fst gd) /\
  primal_feasibility_lhs (snd gp) = primal_residual_claimed ext m wb (x r) /\
  primal_feasibility_rhs (fst gp) (snd gp) = R_p_claimed ext m wb (x r) /\
  primal_feasibility_rhs (fst gd) (snd gp) = R_p_claimed ext m wb (x r) /\
  dual_feasibility_lhs (snd gd) = dual_residual_claimed ext m wb (x r) (y r) (z r) /\
  dual_feasibility_rhs (fst gd) (snd gd) = R_d_claimed ext m wb (x r) (y r) (z r).
Proof.
  intros Hk Hn. cbv zeta.
  pose proof (problem_kept_global_primal_residual ext m r w) as K1.
  pose proof (problem_kept_global_dual_residual ext m r
                (fst (global_primal_residual ext m r w))) as K2.
  pose proof (norms_recorded_kept m wb w Hk Hn) as N0.
  pose proof (norms_recorded_kept m _ _ K1 N0) as N1.
  assert (K01 : problem_kept wb (fst (global_primal_residual ext m r w)))
    by (eapply problem_kept_trans; eassumption).
  assert (K12 : problem_kept w
            (fst (global_dual_residual ext m r (fst (global_primal_residual ext m r w)))))
    by (eapply problem_kept_trans; eassumption).
  assert (K02 : problem_kept wb
            (fst (global_dual_residual ext m r (fst (global_primal_residual ext m r w)))))
    by (eapply problem_kept_trans; eassumption).
  destruct (claimed_kept m wb w (x r) (y r) (z r) Hk) as (c1 & _ & c3 & _).
  destruct (claimed_kept m wb _ (x r) (y r) (z r) K01) as (_ & e2 & _ & e4).
  split; [exact K01|]. split; [exact K02|].
  split; [rewrite primal_lhs_claimed; exact c1|].
  split; [rewrite (primal_rhs_claimed m r w _ N0 K1); exact c3|].
  split; [rewrite (primal_rhs_claimed m r w _ N0 K12); exact c3|].
  split; [rewrite dual_lhs_claimed; exact e2|].
  rewrite (dual_rhs_claimed m r _ _ N1 K2). exact e4.
Qed.

Lemma guarded_of_plain s (v R : T) :
  (v <=? eps_abs s + eps_rel s * R) = true -> within_guarded_tolerance s v R.
Proof. intros H. left. exact H. Qed.

Lemma within_of_guarded s (v R : T) :
  zero_multiple_exact (T := T) -> within_guarded_tolerance s v R -> within_tolerance s v R.
Proof.
  intros Hz [H|[He H]]; [exact H|]. unfold within_tolerance.
  rewrite Hz by exact He. exact H.
Qed.

Lemma finish_iteration_kept s m init emin r (wb w : QPWorkspace T Ldl Ruiz)
    p0 eta pending :
  problem_kept wb w -> norms_recorded m wb ->
  match finish_iteration ext s m init emin r w p0 eta pending with
  | ExitMaxIter _ _ => False
  | ExitSolved r' w' p d => solved_exit_claimed ext m wb s r' p d
  | NextIteration r' w' eta' => problem_kept wb w'
  end.
Proof.
  intros Hk Hn. unfold finish_iteration.
  pose proof (problem_kept_inner_step ext Hext s m r w (primal_feasibility_lhs p0)
                (bcl_eta_in eta)) as K1.
  destruct (inner_step ext s m r w (primal_feasibility_lhs p0) (bcl_eta_in eta))
    as [r1 w1]. cbn [snd] in K1.
  assert (K01 : problem_kept wb w1) by (eapply problem_kept_trans; eassumption).
  pose proof (exit_tests_claimed m r1 wb w1 K01 Hn) as Ht. cbv zeta in Ht.
  destruct (global_primal_residual ext m r1 w1) as [w2 p2]. cbn [fst snd] in Ht.
  cbv zeta.
  assert (Hrest : forall w4 : QPWorkspace T Ldl Ruiz, problem_kept wb w4 ->
    match
      (let '(r, eta0, pending0) :=
         bcl_update s m r1 w4 (primal_feasibility_lhs p2) eta init emin pending in
       let '(w, d_new) := global_dual_residual ext m r w4 in
       let pending1 :=
         cold_restart s r (primal_feasibility_lhs p0) (primal_feasibility_lhs p2)
           (dual_feasibility_lhs d_new) pending0 in
       let '(r0, w0) := effective_mu_update ext m r w pending1 in
       NextIteration r0 w0 eta0)
    with
    | ExitMaxIter _ _ => False
    | ExitSolved r' w' p d => solved_exit_claimed ext m wb s r' p d
    | NextIteration r' w' eta' => problem_kept wb w'
    end).
  { intros w4 K4. destruct (bcl_update _ _ _ _ _ _ _ _ _) as [[r5 eta5] pending5].
    pose proof (problem_kept_global_dual_residual ext m r5 w4) as K5.
    destruct (global_dual_residual ext m r5 w4) as [w6 d6]. cbn [fst] in K5. cbv zeta.
    match goal with
    | |- context [effective_mu_update ext m r5 w6 ?pe] =>
        pose proof (problem_kept_effective_mu_update ext m r5 w6 pe) as K6;
        destruct (effective_mu_update ext m r5 w6 pe) as [r7 w7]
    end.
    cbn [snd] in K6.
    eapply problem_kept_trans; [exact K4|]. eapply problem_kept_trans; eassumption. }
  destruct Ht as (K02 & K03 & Hpl & Hpr & _ & Hdl & Hdr).
  destruct (primal_feasibility_lhs p2 <=? _) eqn:Epf.
  - destruct (global_dual_residual ext m r1 w2) as [w3 d3]. cbn [fst snd] in *.
    destruct (dual_feasibility_lhs d3 <=? _) eqn:Edf.
    + destruct K03 as (_ & _ & _ & _ & Hruiz & _).
      exists (x r1), (y r1), (z r1). cbn [unscale_solution x y z set_x set_y set_z
        set_objValue]. rewrite Hruiz.
      repeat (split; [first [reflexivity | assumption]|]).
      split.
      * apply guarded_of_plain. rewrite <- Hpl, <- Hpr. exact Epf.
      * apply guarded_of_plain. rewrite <- Hdl, <- Hdr. exact Edf.
    + apply Hrest. exact K03.
  - apply Hrest. exact K02.
Qed.

Lemma outer_iteration_kept s m init emin iter r (wb w : QPWorkspace T Ldl Ruiz) eta :
  problem_kept wb w -> norms_recorded m wb ->
  match outer_iteration ext s m init emin iter r w eta with
  | ExitMaxIter _ _ => True
  | ExitSolved r' w' p d => solved_exit_claimed ext m wb s r' p d
  | NextIteration r' w' eta' => problem_kept wb w'
  end.
Proof.
  intros Hk Hn. unfold outer_iteration. cbv zeta.
  destruct (iter =? max_iter s)%Z; [exact I|].
  set (r1 := set_n_ext (n_ext r + 1)%Z r).
  pose proof (exit_tests_claimed m r1 wb w Hk Hn) as Ht. cbv zeta in Ht.
  destruct (global_primal_residual ext m r1 w) as [w1 p1]. cbn [fst snd] in Ht.
  destruct (global_dual_residual ext m r1 w1) as [w2 d2]. cbn [fst snd] in Ht.
  destruct Ht as (K01 & K02 & Hpl & _ & Hpr & Hdl & Hdr).
  pose proof (pass_kept_refactor_on_dual_threshold ext s m r1 w2 d2) as Hkept.
  pose proof (problem_kept_refactor_on_dual_threshold ext s m r1 w2 d2) as K3.
  cbv zeta in Hkept.
  assert (Hfin : forall r3 (w3 : QPWorkspace T Ldl Ruiz) pending, problem_kept wb w3 ->
    match finish_iteration ext s m init emin r3 w3 p1 eta pending with
    | ExitMaxIter _ _ => True
    | ExitSolved r' w' p d => solved_exit_claimed ext m wb s r' p d
    | NextIteration r' w' eta' => problem_kept wb w'
    end).
  { intros r3 w3 pending K. pose proof (finish_iteration_kept s m init emin r3 wb w3 p1
      eta pending K Hn) as Hf.
    destruct (finish_iteration ext s m init emin r3 w3 p1 eta pending);
      [exact I|exact Hf|exact Hf]. }
  destruct (primal_feasibility_lhs p1 <=? rhs_pri s w2 p1) eqn:Epf; cbn [andb].
  - destruct (refactor_on_dual_threshold ext s m r1 w2 d2) as [r3 w3].
    cbn [fst snd] in Hkept, K3.
    assert (K03 : problem_kept wb w3) by (eapply problem_kept_trans; eassumption).
    destruct (dual_feasibility_lhs d2 <=? rhs_dua s w2 d2) eqn:Edf.
    + destruct Hkept as (_ & _ & _ & _ & Hx & Hy & Hz).
      destruct K03 as (_ & _ & _ & _ & Hruiz & _).
      exists (x r1), (y r1), (z r1). cbn [unscale_solution x y z set_x set_y set_z
        set_objValue]. rewrite Hruiz, Hx, Hy, Hz.
      repeat (split; [first [reflexivity | assumption]|]).
      unfold rhs_pri in Epf. unfold rhs_dua in Edf.
      rewrite <- Hpl, <- Hpr, <- Hdl, <- Hdr.
      destruct (eps_rel s !=? s0) eqn:Erel.
      * split; apply guarded_of_plain; assumption.
      * split; right; split; auto.
    + apply Hfin. exact K03.
  - apply Hfin. exact K02.
Qed.

Lemma qp_solve_loop_solved s m init emin (wb : QPWorkspace T Ldl Ruiz) fuel :
  norms_recorded m wb ->
  forall iter r w eta r' w' p d,
  problem_kept wb w ->
  qp_solve_loop ext fuel s m init emin iter r w eta = (BySolved p d, r', w') ->
  solved_exit_claimed ext m wb s r' p d.
Proof.
  intros Hn.
  induction fuel as [|fuel IH]; intros iter r w eta r' w' p d Hk; cbn [qp_solve_loop].
  - discriminate.
  - pose proof (outer_iteration_kept s m init emin iter r wb w eta Hk Hn) as Hpass.
    destruct (outer_iteration ext s m init emin iter r w eta)
      as [r1 w1 | r1 w1 p1 d1 | r1 w1 eta1].
    + discriminate.
    + intros Hexit. injection Hexit as <- <- <- <-. exact Hpass.
    + apply IH. exact Hpass.
Qed.

(** C1: when the outer loop leaves through a [Solved] exit, the residuals
    it tested are those of the returned iterate: for the scaled iterate
    [xs], [ys], [zs] whose unscaling is the returned x, y, z, the primal
    residual is the norm of [A x - b] and [[C x - u]+ + [C x - l]-], the dual
    residual the norm of [H x + g + A^T y + C^T z], and each is within
    [eps_abs + eps_rel * R], with [R_p] the maximum of the norms of [A x],
    [C x], [b], [u], [l] and [R_d] the maximum of the norms of [H x],
    [A^T y], [C^T z], [g].  The first exit adds the relative term only when
    [eps_rel != 0]; in exact arithmetic this is the same test.  The solve
    starts from a workspace that holds the norms as [setup] records them, and
    the collaborators leave the scaled problem alone. *)
Theorem qp_solve_solved_within_tolerance
    (s : QPSettings T) (m : QPData T) (r : QPResults T) (w : QPWorkspace T Ldl Ruiz)
    (p : PrimalResidual T) (d : DualResidual T)
    (r' : QPResults T) (w' : QPWorkspace T Ldl Ruiz) :
  norms_recorded m w ->
  qp_solve ext s m r w = (BySolved p d, r', w') ->
  exists xs ys zs : list T,
    x r' = unscale_primal_in_place ext (ruiz w) xs /\
    y r' = unscale_dual_in_place_eq ext (ruiz w) ys /\
    z r' = unscale_dual_in_place_in ext (ruiz w) zs /\
    primal_feasibility_lhs p = primal_residual_claimed ext m w xs /\
    dual_feasibility_lhs d = dual_residual_claimed ext m w xs ys zs /\
    within_guarded_tolerance s (primal_feasibility_lhs p) (R_p_claimed ext m w xs) /\
    within_guarded_tolerance s (dual_feasibility_lhs d) (R_d_claimed ext m w xs ys zs) /\
    (zero_multiple_exact (T := T) ->
     (primal_feasibility_lhs p <=? eps_abs s + eps_rel s * R_p_claimed ext m w xs) = true /\
     (dual_feasibility_lhs d
      <=? eps_abs s + eps_rel s * R_d_claimed ext m w xs ys zs) = true).
Proof.
  intros Hn. unfold qp_solve. cbv zeta.
  destruct (qp_solve_loop _ _ _ _ _ _ _ _ _ _) as [[e r1] w1] eqn:Eloop.
  intros Hexit. injection Hexit as -> <- <-.
  apply (qp_solve_loop_solved s m _ _ w _ Hn) in Eloop; [|apply problem_kept_refl].
  destruct Eloop as (xs & ys & zs & Hx & Hy & Hz & Hp & Hd & Tp & Td).
  exists xs, ys, zs. cbn [x y z set_objValue]. rewrite <- Hp in Tp. rewrite <- Hd in Td.
  repeat (split; [assumption|]).
  intros Hzero. split; apply within_of_guarded; assumption.
Qed.

End SolvedExit.

(** * The termination test and the cold restart at concrete inputs *)

(** The reference collaborators keep the scaled problem: the active set is
    left as it is and the full step writes [alpha] only. *)
Lemma reference_keeps_problem (T : Type) (ST : Scalar T) :
  collaborators_keep_problem (reference (T := T)).
Proof.
  unfold collaborators_keep_problem, problem_kept. repeat split; try reflexivity.
  - intros f Hf. destruct f; try reflexivity. congruence.
  - intros f Hf. destruct f; try reflexivity. congruence.
Qed.

(** The equality-constrained problem is solved in three passes; the tested
    residuals are those of the returned iterate. *)
Lemma qp_solve_solved_within_tolerance_witness :
  exists (p : PrimalResidual Q) (d : DualResidual Q) (r' : QPResults Q)
         (w' : QPWorkspace Q (list (list Q)) IdentityPrecond),
    qp_solve reference eq_settings eq_problem eq_results eq_work = (BySolved p d, r', w') /\
    n_ext r' = 3%Z /\
    primal_feasibility_lhs p = primal_residual_claimed reference eq_problem eq_work (x r') /\
    dual_feasibility_lhs d
    = dual_residual_claimed reference eq_problem eq_work (x r') (y r') (z r') /\
    (primal_feasibility_lhs p
     <=? eps_abs eq_settings
         + eps_rel eq_settings * R_p_claimed reference eq_problem eq_work (x r'))%S = true /\
    (dual_feasibility_lhs d
     <=? eps_abs eq_settings
         + eps_rel eq_settings
           * R_d_claimed reference eq_problem eq_work (x r') (y r') (z r'))%S = true.
Proof.
  pose proof (qp_solve_solved_within_tolerance reference
                (reference_keeps_problem Q Scalar_Q)
                eq_settings eq_problem eq_results eq_work) as Hthm.
  assert (Hrec : norms_recorded eq_problem eq_work) by (repeat split).
  assert (Hn : n_ext (snd (fst (qp_solve reference eq_settings eq_problem eq_results
                                   eq_work))) = 3%Z)
    by (vm_compute; reflexivity).
  assert (Hexit : match fst (fst (qp_solve reference eq_settings eq_problem eq_results
                                     eq_work)) with
                  | BySolved _ _ => true
                  | ByBudget => false
                  end = true) by (vm_compute; reflexivity).
  destruct (qp_solve reference eq_settings eq_problem eq_results eq_work)
    as [[[p d|] r'] w'].
  - exists p, d, r', w'. cbn [fst snd] in Hn.
    destruct (Hthm p d r' w' Hrec eq_refl)
      as (xs & ys & zs & Hx & Hy & Hz & Hp & Hd & _ & _ & Hplain).
    change (x r' = xs) in Hx. change (y r' = ys) in Hy. change (z r' = zs) in Hz.
    subst xs ys zs. destruct (Hplain Q_zero_multiple_neutral) as (Tp & Td).
    repeat split; assumption.
  - discriminate Hexit.
Defined.

(** On the two contradicting rows the residuals cannot improve: the pass
    stores the cold-reset penalties 11/10. *)
Lemma outer_iteration_cold_restart_rule_witness :
  exists (r' : QPResults Q) (w' : QPWorkspace Q (list (list Q)) IdentityPrecond)
         (eta' : BclTolerances Q),
    outer_iteration reference eq_settings clash_problem (1 # 10)%Q (1 # 1000000000)%Q 0%Z
      clash_results clash_work start_tolerances = NextIteration r' w' eta' /\
    penalties_of r' = cold_reset_of eq_settings /\
    mu_in clash_results = 100000%Q /\ mu_in r' = (11 # 10)%Q.
Proof.
  pose proof (outer_iteration_cold_restart_rule reference eq_settings clash_problem
                (1 # 10)%Q (1 # 1000000000)%Q 0%Z clash_results clash_work
                start_tolerances) as Hthm.
  assert (Hnext : match outer_iteration reference eq_settings clash_problem (1 # 10)%Q
                          (1 # 1000000000)%Q 0%Z clash_results clash_work
                          start_tolerances with
                  | NextIteration _ _ _ => true
                  | _ => false
                  end = true) by (vm_compute; reflexivity).
  destruct (outer_iteration reference eq_settings clash_problem (1 # 10)%Q
              (1 # 1000000000)%Q 0%Z clash_results clash_work start_tolerances)
    as [r1 w1 | r1 w1 p1 d1 | r' w' eta']; try discriminate Hnext.
  exists r', w', eta'. split; [reflexivity|].
  destruct (Hthm r' w' eta' eq_refl) as (Hpen & _). cbv zeta in Hpen.
  match type of Hpen with
  | _ = (if ?c then _ else _) =>
      assert (Hcold : c = true) by (vm_compute; reflexivity); rewrite Hcold in Hpen
  end.
  split; [exact Hpen|]. split; [reflexivity|].
  change (new_bcl_mu_in (penalties_of r') = (11 # 10)%Q). rewrite Hpen. reflexivity.
Defined.

(** * The further properties at concrete inputs *)

Lemma iterative_solve_keeps_factorization_witness :
  ldl (iterative_solve_with_permut_fact reference eq_settings eq_problem eq_results
         eq_rhs_work (1 # 1000000000)%Q 3) = eq_kkt.
Proof.
  destruct (iterative_solve_keeps_factorization reference eq_settings eq_problem eq_results
              eq_rhs_work (1 # 1000000000)%Q 3) as (Hldl & _).
  - vm_compute. reflexivity.
  - exact Hldl.
Defined.

Lemma qp_solve_without_budget_witness :
  fst (fst (qp_solve reference (example_settings 1%Q 0%Z NO_INITIAL_GUESS) small_problem
              (small_results Solved) small_work)) = ByBudget.
Proof.
  rewrite (qp_solve_without_budget reference (example_settings 1%Q 0%Z NO_INITIAL_GUESS)
             small_problem (small_results Solved) small_work).
  - reflexivity.
  - cbn. lia.
Defined.

Lemma qp_solve_already_solved_witness :
  n_tot (snd (fst (qp_solve reference eq_settings eq_problem warm_results eq_work)))
  = n_tot warm_results.
Proof.
  pose proof (qp_solve_already_solved reference eq_settings eq_problem warm_results eq_work)
    as Hthm.
  cbv zeta in Hthm.
  destruct Hthm as (_ & _ & Htot & _).
  - cbn. lia.
  - vm_compute. reflexivity.
  - vm_compute. reflexivity.
  - exact Htot.
Defined.

Lemma real_settings_reciprocal (beta : R) : settings_reciprocal (real_settings beta).
Proof.
  unfold settings_reciprocal, pending_reciprocal, real_settings, example_settings.
  cbn [mu_update_factor mu_update_inv_factor mu_max_eq mu_max_eq_inv mu_max_in
       mu_max_in_inv cold_reset_of cold_reset_mu_eq cold_reset_mu_in cold_reset_mu_eq_inv
       cold_reset_mu_in_inv new_bcl_mu_eq new_bcl_mu_in new_bcl_mu_eq_inv new_bcl_mu_in_inv
       slit Scalar_R].
  unfold Q2R. cbn [Qnum Qden].
  repeat split; try lra; field.
Qed.

Lemma real_results_reciprocal : penalties_reciprocal real_results.
Proof.
  unfold penalties_reciprocal, pending_reciprocal, real_results, example_results.
  cbn [penalties_of mu_eq mu_in mu_eq_inv mu_in_inv
       new_bcl_mu_eq new_bcl_mu_in new_bcl_mu_eq_inv new_bcl_mu_in_inv].
  repeat split; lra.
Qed.

Lemma real_pending_reciprocal : pending_reciprocal real_pending.
Proof.
  unfold pending_reciprocal, real_pending.
  cbn [new_bcl_mu_eq new_bcl_mu_in new_bcl_mu_eq_inv new_bcl_mu_in_inv].
  repeat split; lra.
Qed.

Lemma bcl_update_keeps_reciprocals_witness :
  pending_reciprocal
    (snd (bcl_update (real_settings 1%R) real_problem real_results real_work 2%R
            real_tolerances 1%R 0%R real_pending)).
Proof.
  apply (bcl_update_keeps_reciprocals (real_settings 1%R) real_problem real_results
           real_work 2%R real_tolerances 1%R 0%R real_pending).
  - apply real_settings_reciprocal.
  - apply real_results_reciprocal.
  - apply real_pending_reciprocal.
  - cbn. lra.
  - lra.
Defined.

Lemma qp_solve_keeps_reciprocals_witness :
  penalties_reciprocal
    (snd (fst (qp_solve reference (real_settings 1%R) real_problem real_results real_work))).
Proof.
  apply (qp_solve_keeps_reciprocals reference (real_settings 1%R) real_problem real_results
           real_work).
  - apply real_settings_reciprocal.
  - apply real_results_reciprocal.
Defined.

Lemma update_proximal_parameters_keeps_reciprocals_witness :
  penalties_reciprocal (update_proximal_parameters real_results None (Some 4%R) None) /\
  mu_eq (update_proximal_parameters real_results None (Some 4%R) None) = 4%R.
Proof.
  destruct (update_proximal_parameters_keeps_reciprocals real_results None (Some 4%R) None)
    as (Hrec & _ & Hmu & _).
  - apply real_results_reciprocal.
  - intros v E. injection E as <-. lra.
  - intros v E. discriminate E.
  - split; [exact Hrec|exact Hmu].
Defined.

Lemma set_seed_degenerate_witness :
  (set_seed 0 = 0 <-> 0 = 2 ^ 64 - 1)%Z.
Proof.
  destruct (set_seed_degenerate 0%Z) as [Hiff _].
  - lia.
  - exact Hiff.
Defined.

Lemma to_sparse_sym_upper_triangle_witness :
  to_sparse_sym upper_example = [(0, 0, 1%Q); (0, 1, 2%Q); (1, 1, 3%Q)]%nat.
Proof.
  rewrite (to_sparse_sym_upper_triangle upper_example).
  - vm_compute. reflexivity.
  - cbn. lia.
Defined.

Lemma primal_residual_measures_violation_witness :
  (primal_feasibility_lhs
     (snd (global_primal_residual reference real_box_problem real_box_results real_box_work))
   <= 0)%R.
Proof.
  apply (primal_residual_measures_violation reference real_box_problem real_box_results
           real_box_work 0%R).
  - reflexivity.
  - reflexivity.
  - reflexivity.
  - intros k Hk. cbn in Hk. destruct k as [|k]; [cbn; lra|lia].
  - split; [lra|]. split; intros k Hk; cbn in Hk; (destruct k as [|k]; [|lia]).
    + cbn. replace (0 + 1 * 1 - 1)%R with 0%R by ring. rewrite Rabs_R0. lra.
    + cbn. lra.
Defined.

Lemma eq_kkt_square : is_matrix 3 3 eq_kkt.
Proof.
  split; [reflexivity|]. intros k Hk.
  destruct k as [|[|[|k]]]; [reflexivity..|lia].
Qed.

Lemma setup_factorization_kkt_witness :
  dense_coeff (mat (setup_factorization reference eq_work eq_problem eq_results) kkt) 2 2
  = (- (1000))%Q.
Proof.
  destruct (setup_factorization_kkt reference eq_work eq_problem eq_results)
    as (_ & _ & Hentries & _).
  - exact eq_kkt_square.
  - split; [reflexivity|]. intros k Hk. destruct k as [|[|k]]; [reflexivity..|cbn in Hk; lia].
  - split; [reflexivity|]. intros k Hk. destruct k as [|k]; [reflexivity|cbn in Hk; lia].
  - rewrite Hentries by (cbn; lia). reflexivity.
Defined.

Lemma equality_constrained_initial_guess_system_witness :
  z (snd (compute_equality_constrained_initial_guess reference eq_work eq_settings
            eq_problem eq_results)) = z eq_results.
Proof.
  destruct (equality_constrained_initial_guess_system reference eq_work eq_settings
              eq_problem eq_results) as (_ & Hz & _).
  - reflexivity.
  - reflexivity.
  - cbn. lia.
  - exact Hz.
Defined.

Lemma refactorize_kkt_witness :
  dense_coeff (mat (refactorize reference eq_problem eq_results eq_work (1 # 10000000)%Q) kkt)
    2 2
  = (- (1 # 1000))%Q.
Proof.
  destruct (refactorize_kkt reference eq_problem eq_results eq_work (1 # 10000000)%Q)
    as (_ & Hentries & _).
  - exact eq_kkt_square.
  - rewrite Hentries by (cbn; lia). reflexivity.
Defined.
